(** * Disaster mesh network: a shallow embedding of the core and its properties

    The development follows the Python sources module by module:
    - [Trust]        : [auth_system.TrustManager] (the trust ledger);
    - [Crypto]       : [crypto_utils.CryptoManager] (PKCS#7 + AES-CBC + base64);
    - [Mesh]         : [mesh_node.MeshNode] and [secure_mesh_node.SecureMeshNode]
                       (envelope, duplicate cache, receive handler, send);
    - [FileTransfer] : [file_transfer.FileTransferManager] (chunk reassembly);
    - [Router]       : [message_router.MessageRouter] (Dijkstra routing table);
    - [FloatRouter]  : [MessageRouter._compute_routes] once more, with the
                       arithmetic of the floats and the heap as parameters.

    Python [dict]s are [gmap]s, [set]s are [gset]s, [int] is [Z], [str] is
    [string], [bytes] is [list byte] and [float] is modelled by the exact
    rationals [Q] where every sum is exact ([0.0 + x] in [Router]) and is a
    parameter otherwise.  Calls into third-party libraries (PyCryptodome, [base64],
    [json]) are parameters of the sections that use them, together with the
    part of their documented contract that the proofs rely on. *)

From Stdlib Require Import ZArith QArith Lqa Lia String Ascii List.
From Stdlib Require Import Strings.Byte.
From stdpp Require Import gmap strings list fin_maps pretty.

Local Open Scope string_scope.
Local Open Scope Z_scope.

(* ===================================================================== *)
(** * The trust ledger ([auth_system.TrustManager]) *)
(* ===================================================================== *)

Module Trust.

(** [self.trusted_nodes : {node_id: public_key_b64}] and
    [self.trust_scores : {node_id: score}]. *)
Record TrustManager := mkTrust {
  trusted_nodes : gmap string string;
  trust_scores : gmap string Z
}.

Definition empty : TrustManager :=
  {| trusted_nodes := ∅; trust_scores := ∅ |}.

(** [max(0, min(100, x))] *)
Definition clamp (x : Z) : Z := Z.max 0 (Z.min 100 x).

(** [add_trusted_node(node_id, public_key_b64, initial_score=50)] *)
Definition add_trusted_node (tm : TrustManager)
    (node_id public_key_b64 : string) (initial_score : Z) : TrustManager :=
  {| trusted_nodes := <[node_id := public_key_b64]> (trusted_nodes tm);
     trust_scores := <[node_id := initial_score]> (trust_scores tm) |}.

(** [is_trusted(node_id, min_score=30)]:
    [if node_id not in self.trusted_nodes: return False];
    [return self.trust_scores.get(node_id, 0) >= min_score]. *)
Definition is_trusted (tm : TrustManager) (node_id : string) (min_score : Z) : bool :=
  match trusted_nodes tm !! node_id with
  | None => false
  | Some _ => min_score <=? default 0 (trust_scores tm !! node_id)
  end.

(** [update_trust_score(node_id, delta)]:
    [if node_id not in self.trust_scores: self.trust_scores[node_id] = 50];
    [self.trust_scores[node_id] = max(0, min(100, self.trust_scores[node_id] + delta))]. *)
Definition update_trust_score (tm : TrustManager) (node_id : string) (delta : Z)
    : TrustManager :=
  let scores :=
    match trust_scores tm !! node_id with
    | None => <[node_id := 50]> (trust_scores tm)
    | Some _ => trust_scores tm
    end in
  {| trusted_nodes := trusted_nodes tm;
     trust_scores := <[node_id := clamp (scores !!! node_id + delta)]> scores |}.

(** The score the ledger shows for an id ([None] when it has none). *)
Definition score_of (tm : TrustManager) (node_id : string) : option Z :=
  trust_scores tm !! node_id.

(** ** Properties *)

Lemma clamp_range x : 0 <= clamp x <= 100.
Proof. unfold clamp. lia. Qed.

Lemma clamp_id x : 0 <= x <= 100 -> clamp x = x.
Proof. unfold clamp. lia. Qed.

Lemma update_trust_score_lookup tm node_id delta :
  score_of (update_trust_score tm node_id delta) node_id
  = Some (clamp (default 50 (score_of tm node_id) + delta)).
Proof.
  unfold score_of, update_trust_score; cbn.
  rewrite lookup_insert_eq.
  destruct (trust_scores tm !! node_id) as [s|] eqn:E; cbn.
  - by rewrite lookup_total_alt, E.
  - by rewrite lookup_total_insert_eq.
Qed.

Lemma update_trust_score_other tm node_id delta other :
  other ≠ node_id ->
  score_of (update_trust_score tm node_id delta) other = score_of tm other.
Proof.
  intros Hne. unfold score_of, update_trust_score; cbn.
  rewrite lookup_insert_ne by done.
  destruct (trust_scores tm !! node_id); [done|].
  by rewrite lookup_insert_ne.
Qed.

Lemma update_trust_score_trusted_nodes tm node_id delta :
  trusted_nodes (update_trust_score tm node_id delta) = trusted_nodes tm.
Proof. reflexivity. Qed.

Lemma is_trusted_spec tm node_id min_score :
  is_trusted tm node_id min_score = true
  <-> node_id ∈ dom (trusted_nodes tm)
      /\ min_score <= default 0 (score_of tm node_id).
Proof.
  unfold is_trusted, score_of. rewrite elem_of_dom.
  destruct (trusted_nodes tm !! node_id) as [pk|] eqn:E.
  - rewrite Z.leb_le. split; [intros H; split; [by eexists|done] | by intros [_ H]].
  - split; [done | intros [[? ?] _]; done].
Qed.

Lemma is_trusted_not_admitted tm node_id min_score :
  node_id ∉ dom (trusted_nodes tm) -> is_trusted tm node_id min_score = false.
Proof.
  intros Hn. destruct (is_trusted tm node_id min_score) eqn:E; [|done].
  apply is_trusted_spec in E as [? _]. done.
Qed.

(** C6: after [update_trust_score(id, delta)] the stored score of [id] is
    [clamp(old + delta)], where [old] is the previous score (50 for an id
    without one), and therefore lies in [[0, 100]]. *)
Theorem update_trust_score_clamped (tm : TrustManager) (node_id : string) (delta : Z) :
  exists s,
    score_of (update_trust_score tm node_id delta) node_id = Some s
    /\ s = Z.max 0 (Z.min 100 (default 50 (score_of tm node_id) + delta))
    /\ 0 <= s <= 100.
Proof.
  eexists. split; [apply update_trust_score_lookup|].
  split; [reflexivity | apply clamp_range].
Qed.

(** ** Pruning the ledger ([remove_untrusted_nodes]) *)

(** The ids whose score is below [threshold], as the list comprehension
    over [trust_scores.items()] collects them.  The dictionary is visited in
    the order of [map_to_list]; nothing below depends on the order. *)
Definition to_remove (tm : TrustManager) (threshold : Z) : list string :=
  (filter (λ kv, kv.2 < threshold) (map_to_list (trust_scores tm))).*1.

(** The loop [for node_id in to_remove]: [del self.trusted_nodes[node_id]]
    raises [KeyError] for an id that is not in [trusted_nodes], and the loop
    stops there with the earlier deletions done.  The second component is
    the id the [KeyError] names, if one was raised. *)
Fixpoint remove_loop (ids : list string) (tm : TrustManager)
    : TrustManager * option string :=
  match ids with
  | [] => (tm, None)
  | node_id :: ids =>
    match trusted_nodes tm !! node_id with
    | None => (tm, Some node_id)
    | Some _ =>
      remove_loop ids {| trusted_nodes := delete node_id (trusted_nodes tm);
                         trust_scores := delete node_id (trust_scores tm) |}
    end
  end.

(** [remove_untrusted_nodes(threshold=10)] *)
Definition remove_untrusted_nodes (tm : TrustManager) (threshold : Z)
    : TrustManager * option string :=
  remove_loop (to_remove tm threshold) tm.

(** [get_public_key(node_id)] *)
Definition get_public_key (tm : TrustManager) (node_id : string) : option string :=
  trusted_nodes tm !! node_id.

(** Every stored score lies in [[0, 100]]. *)
Definition scores_in_range (tm : TrustManager) : Prop :=
  forall node_id s, score_of tm node_id = Some s -> 0 <= s <= 100.

Lemma elem_of_to_remove tm threshold node_id :
  node_id ∈ to_remove tm threshold
  <-> exists s, score_of tm node_id = Some s /\ s < threshold.
Proof.
  unfold to_remove, score_of. rewrite list_elem_of_fmap. split.
  - intros ([k s] & -> & [Hlt Hin%elem_of_map_to_list]%list_elem_of_filter).
    by exists s.
  - intros (s & Hs & Hlt). exists (node_id, s). split; [done|].
    apply list_elem_of_filter. split; [done|]. by apply elem_of_map_to_list.
Qed.

Lemma NoDup_to_remove tm threshold : NoDup (to_remove tm threshold).
Proof.
  unfold to_remove. eapply NoDup_fmap_fst.
  - intros k s1 s2 [_ H1%elem_of_map_to_list]%list_elem_of_filter
                   [_ H2%elem_of_map_to_list]%list_elem_of_filter.
    congruence.
  - apply NoDup_filter, NoDup_map_to_list.
Qed.

Lemma remove_loop_ok ids tm :
  (forall node_id, node_id ∈ ids -> node_id ∈ dom (trusted_nodes tm)) ->
  NoDup ids ->
  exists tm',
    remove_loop ids tm = (tm', None)
    /\ forall k,
         trusted_nodes tm' !! k
         = (if decide (k ∈ ids) then None else trusted_nodes tm !! k)
         /\ trust_scores tm' !! k
            = (if decide (k ∈ ids) then None else trust_scores tm !! k).
Proof.
  revert tm. induction ids as [|id ids IH]; intros tm Hin Hnd; cbn.
  - exists tm. split; [done|]. intros k. rewrite decide_False; [done|].
    apply not_elem_of_nil.
  - apply NoDup_cons in Hnd as [Hid Hnd].
    destruct (trusted_nodes tm !! id) as [pk|] eqn:Hpk.
    2:{ exfalso. assert (id ∈ dom (trusted_nodes tm)) as Hd by (apply Hin; by left).
        apply elem_of_dom in Hd as [? ?]. congruence. }
    destruct (IH {| trusted_nodes := delete id (trusted_nodes tm);
                    trust_scores := delete id (trust_scores tm) |})
      as (tm' & -> & Hlook); [|done|].
    { intros k Hk. cbn. rewrite dom_delete. apply elem_of_difference.
      split; [apply Hin; by right|]. intros ->%elem_of_singleton. done. }
    exists tm'. split; [done|]. intros k. destruct (Hlook k) as [H1 H2]. cbn in *.
    rewrite H1, H2.
    destruct (decide (k ∈ ids)) as [Hk|Hk];
      destruct (decide (k ∈ id :: ids)) as [Hk'|Hk']; try done.
    + exfalso. apply Hk'. by right.
    + apply elem_of_cons in Hk' as [->|?]; [|done].
      by rewrite !lookup_delete_eq.
    + assert (k ≠ id) by (intros ->; apply Hk'; by left).
      by rewrite !lookup_delete_ne.
Qed.

Lemma remove_loop_key_error ids tm bad :
  NoDup ids ->
  bad ∈ ids ->
  (bad ∉ dom (trusted_nodes tm)) ->
  exists tm' node_id,
    remove_loop ids tm = (tm', Some node_id)
    /\ node_id ∈ ids
    /\ (node_id ∉ dom (trusted_nodes tm)).
Proof.
  revert tm. induction ids as [|id ids IH]; intros tm Hnd Hbad Hnot; cbn.
  - by apply elem_of_nil in Hbad.
  - apply NoDup_cons in Hnd as [Hid Hnd].
    destruct (trusted_nodes tm !! id) as [pk|] eqn:Hpk.
    + assert (bad ≠ id) as Hne.
      { intros ->. apply Hnot, elem_of_dom. by eexists. }
      apply elem_of_cons in Hbad as [?|Hbad]; [done|].
      destruct (IH {| trusted_nodes := delete id (trusted_nodes tm);
                      trust_scores := delete id (trust_scores tm) |} Hnd Hbad)
        as (tm' & k & -> & Hk & Hknot).
      { cbn. rewrite dom_delete. intros [? _]%elem_of_difference. done. }
      exists tm', k. split; [done|]. split; [by right|].
      cbn in Hknot. rewrite dom_delete in Hknot. intros Hkd. apply Hknot.
      apply elem_of_difference. split; [done|].
      intros ->%elem_of_singleton. done.
    + exists tm, id. split; [done|]. split; [by left|].
      by apply not_elem_of_dom.
Qed.

(** X1: When every id with a score below [threshold] has been admitted to
    [trusted_nodes], [remove_untrusted_nodes] returns normally: those ids
    lose both their key and their score, every other id keeps both, and no
    score below [threshold] is left. *)
Theorem remove_untrusted_nodes_prunes (tm : TrustManager) (threshold : Z) :
  (forall node_id s, score_of tm node_id = Some s -> s < threshold ->
     node_id ∈ dom (trusted_nodes tm)) ->
  exists tm',
    remove_untrusted_nodes tm threshold = (tm', None)
    /\ (forall node_id s, score_of tm' node_id = Some s ->
          threshold <= s /\ score_of tm node_id = Some s)
    /\ (forall node_id s, score_of tm node_id = Some s ->
          if decide (s < threshold)
          then score_of tm' node_id = None /\ get_public_key tm' node_id = None
          else score_of tm' node_id = Some s
               /\ get_public_key tm' node_id = get_public_key tm node_id).
Proof.
  intros Hadm. unfold remove_untrusted_nodes.
  destruct (remove_loop_ok (to_remove tm threshold) tm) as (tm' & -> & Hlook).
  { intros k (s & Hs & Hlt)%elem_of_to_remove. by eapply Hadm. }
  { apply NoDup_to_remove. }
  exists tm'. split; [done|]. unfold score_of, get_public_key. split.
  - intros k s. destruct (Hlook k) as [_ ->].
    case_decide as Hk; [done|]. intros Hs. split; [|done].
    destruct (decide (threshold <= s)); [done|]. exfalso. apply Hk.
    apply elem_of_to_remove. exists s. split; [done|lia].
  - intros k s Hs. destruct (Hlook k) as [-> ->].
    destruct (decide (k ∈ to_remove tm threshold)) as [Hk|Hk];
      destruct (decide (s < threshold)) as [Hlt|Hlt]; try done.
    + apply elem_of_to_remove in Hk as (s' & Hs' & Hlt').
      unfold score_of in Hs'. congruence.
    + exfalso. apply Hk, elem_of_to_remove. by exists s.
Qed.

(** X2: When some id has a score below [threshold] but was never admitted to
    [trusted_nodes] -- as happens to a sender that has only ever been
    penalised -- [remove_untrusted_nodes] raises [KeyError] on such an id. *)
Theorem remove_untrusted_nodes_key_error
    (tm : TrustManager) (threshold : Z) (bad : string) (s : Z) :
  score_of tm bad = Some s ->
  s < threshold ->
  (bad ∉ dom (trusted_nodes tm)) ->
  exists tm' node_id s',
    remove_untrusted_nodes tm threshold = (tm', Some node_id)
    /\ score_of tm node_id = Some s' /\ s' < threshold
    /\ (node_id ∉ dom (trusted_nodes tm)).
Proof.
  intros Hs Hlt Hnot. unfold remove_untrusted_nodes.
  destruct (remove_loop_key_error (to_remove tm threshold) tm bad)
    as (tm' & k & Hr & Hk & Hknot); [apply NoDup_to_remove| |done|].
  { apply elem_of_to_remove. by exists s. }
  apply elem_of_to_remove in Hk as (s' & Hs' & Hlt').
  by exists tm', k, s'.
Qed.

(** [update_trust_score] and [add_trusted_node] with an initial score in
    range keep every stored score in [[0, 100]]. *)
Lemma update_trust_score_in_range tm node_id delta :
  scores_in_range tm -> scores_in_range (update_trust_score tm node_id delta).
Proof.
  intros Hr k s. destruct (decide (k = node_id)) as [->|Hne].
  - rewrite update_trust_score_lookup. intros [= <-]. apply clamp_range.
  - rewrite update_trust_score_other by done. apply Hr.
Qed.

Lemma add_trusted_node_in_range tm node_id pk initial_score :
  0 <= initial_score <= 100 ->
  scores_in_range tm -> scores_in_range (add_trusted_node tm node_id pk initial_score).
Proof.
  intros Hi Hr k s. unfold score_of, add_trusted_node. cbn.
  destruct (decide (k = node_id)) as [->|Hne].
  - rewrite lookup_insert_eq. by intros [= <-].
  - rewrite lookup_insert_ne by done. apply Hr.
Qed.

(** X3: After [add_trusted_node(id, pk, initial)] and any sequence of score
    updates for [id], the ledger still holds [pk] for [id], and
    [is_trusted(id, min_score)] holds exactly when the score reached is at
    least [min_score]; that score is [initial] with the deltas applied one
    by one, each result clamped. *)
Theorem admitted_node_tracks_score
    (tm : TrustManager) (node_id pk : string) (initial_score min_score : Z)
    (deltas : list Z) :
  let tm' := foldl (λ t delta, update_trust_score t node_id delta)
                   (add_trusted_node tm node_id pk initial_score) deltas in
  let final := foldl (λ s delta, clamp (s + delta)) initial_score deltas in
  get_public_key tm' node_id = Some pk
  /\ score_of tm' node_id = Some final
  /\ (is_trusted tm' node_id min_score = true <-> min_score <= final).
Proof.
  cbn zeta.
  assert (forall ds t s0,
    trusted_nodes t !! node_id = Some pk -> score_of t node_id = Some s0 ->
    let t' := foldl (λ t delta, update_trust_score t node_id delta) t ds in
    trusted_nodes t' !! node_id = Some pk
    /\ score_of t' node_id = Some (foldl (λ s delta, clamp (s + delta)) s0 ds))
    as Hfold.
  { induction ds as [|delta ds IH]; intros t s0 Hpk Hs; cbn; [done|].
    apply IH; [done|]. by rewrite update_trust_score_lookup, Hs. }
  destruct (Hfold deltas (add_trusted_node tm node_id pk initial_score) initial_score)
    as [Hpk Hs].
  { cbn. apply lookup_insert_eq. }
  { unfold score_of. cbn. apply lookup_insert_eq. }
  cbn zeta in Hpk, Hs. split; [exact Hpk|]. split; [exact Hs|].
  rewrite is_trusted_spec, Hs. cbn. split; [by intros [_ ?]|].
  intros Hle. split; [|done]. apply elem_of_dom. by eexists.
Qed.

(** One admitted node with a low score. *)
Definition one_low : TrustManager := add_trusted_node empty "a" "pk-a" 5.

(** A sender that was never admitted and has been penalised three times. *)
Definition thrice_penalised : TrustManager :=
  update_trust_score (update_trust_score (update_trust_score empty "x" (-20)) "x" (-20))
                     "x" (-20).

Lemma remove_untrusted_nodes_prunes_witness :
  exists tm',
    remove_untrusted_nodes one_low 10 = (tm', None)
    /\ (forall node_id s, score_of tm' node_id = Some s ->
          10 <= s /\ score_of one_low node_id = Some s)
    /\ (forall node_id s, score_of one_low node_id = Some s ->
          if decide (s < 10)
          then score_of tm' node_id = None /\ get_public_key tm' node_id = None
          else score_of tm' node_id = Some s
               /\ get_public_key tm' node_id = get_public_key one_low node_id).
Proof.
  apply (remove_untrusted_nodes_prunes one_low 10).
  intros node_id s Hs _. apply elem_of_dom.
  unfold score_of, one_low, add_trusted_node in *. cbn in *.
  apply lookup_insert_Some in Hs as [[<- _]|[_ Hs]].
  - rewrite lookup_insert_eq. by eexists.
  - by rewrite lookup_empty in Hs.
Defined.

Lemma remove_untrusted_nodes_key_error_witness :
  exists tm' node_id s',
    remove_untrusted_nodes thrice_penalised 10 = (tm', Some node_id)
    /\ score_of thrice_penalised node_id = Some s' /\ s' < 10
    /\ (node_id ∉ dom (trusted_nodes thrice_penalised)).
Proof.
  apply (remove_untrusted_nodes_key_error thrice_penalised 10 "x" 0).
  - vm_compute. reflexivity.
  - lia.
  - apply not_elem_of_dom. reflexivity.
Defined.

End Trust.

(* ===================================================================== *)
(** * Symmetric encryption ([crypto_utils.CryptoManager]) *)
(* ===================================================================== *)

Module Crypto.

(** [AES.block_size] *)
Definition block_size : nat := 16.

(** ** Text and bytes

    A Python [str] is represented by the [string] of its UTF-8 bytes, so
    [s.encode('utf-8')] reads the bytes off and [b.decode('utf-8')] puts them
    back; both raise on byte sequences that are not well-formed UTF-8 (lone
    surrogates on the way out, arbitrary garbage on the way in). *)

Definition in_range (lo hi : N) (b : byte) : bool :=
  ((lo <=? Byte.to_N b) && (Byte.to_N b <=? hi))%N.

Definition is_cont (b : byte) : bool := in_range 128 191 b.

Definition two_ok (b0 b1 : byte) : bool :=
  in_range 194 223 b0 && is_cont b1.

Definition three_ok (b0 b1 b2 : byte) : bool :=
  (in_range 224 224 b0 && in_range 160 191 b1
   || in_range 225 236 b0 && is_cont b1
   || in_range 237 237 b0 && in_range 128 159 b1
   || in_range 238 239 b0 && is_cont b1)
  && is_cont b2.

Definition four_ok (b0 b1 b2 b3 : byte) : bool :=
  (in_range 240 240 b0 && in_range 144 191 b1
   || in_range 241 243 b0 && is_cont b1
   || in_range 244 244 b0 && in_range 128 143 b1)
  && is_cont b2 && is_cont b3.

(** Well-formed UTF-8 (RFC 3629: shortest form, no surrogates, at most
    U+10FFFF), which is what the strict codec accepts. *)
Fixpoint valid_utf8 (bs : list byte) : bool :=
  match bs with
  | [] => true
  | b0 :: r0 =>
    if in_range 0 127 b0 then valid_utf8 r0
    else match r0 with
    | [] => false
    | b1 :: r1 =>
      if two_ok b0 b1 then valid_utf8 r1
      else match r1 with
      | [] => false
      | b2 :: r2 =>
        if three_ok b0 b1 b2 then valid_utf8 r2
        else match r2 with
        | [] => false
        | b3 :: r3 => four_ok b0 b1 b2 b3 && valid_utf8 r3
        end
      end
    end
  end.

(** [plaintext.encode('utf-8')]; [None] stands for [UnicodeEncodeError]. *)
Definition utf8_encode (s : string) : option (list byte) :=
  let bs := list_byte_of_string s in
  if valid_utf8 bs then Some bs else None.

(** [plaintext.decode('utf-8')]; [None] stands for [UnicodeDecodeError]. *)
Definition utf8_decode (bs : list byte) : option string :=
  if valid_utf8 bs then Some (string_of_list_byte bs) else None.

(** [b[-1]] on a byte string; [None] stands for [IndexError]. *)
Definition last_byte (bs : list byte) : option byte := last bs.

(** [b[:-n]] for [n >= 0]: Python reads [-0] as [0], so [b[:-0]] is empty;
    otherwise the stop index is [len(b) - n], clipped at [0]. *)
Definition strip_suffix (n : nat) (bs : list byte) : list byte :=
  match n with
  | O => []
  | _ => take (length bs - n) bs
  end.

Section WithPrimitives.

(** [self.key = PBKDF2(shared_key, b"mesh-network-salt", dkLen=32)] *)
Variable key : list byte.

(** [AES.new(key, AES.MODE_CBC, iv).encrypt(data)] and [.decrypt(data)],
    as functions of [key], [iv] and [data]; [None] stands for the
    [ValueError] raised on an IV of the wrong size or on data that is not
    a whole number of blocks. *)
Variable aes_cbc_encrypt : list byte -> list byte -> list byte -> option (list byte).
Variable aes_cbc_decrypt : list byte -> list byte -> list byte -> option (list byte).

(** [base64.b64encode(b).decode('utf-8')] and [base64.b64decode(s)]
    ([None] stands for [binascii.Error]). *)
Variable b64encode : list byte -> string.
Variable b64decode : string -> option (list byte).

(** [encrypt(plaintext)], with the IV drawn by [get_random_bytes] passed in. *)
Definition encrypt (iv : list byte) (plaintext : string) : option string :=
  plaintext_bytes ← utf8_encode plaintext;
  let padding_length := (block_size - length plaintext_bytes mod block_size)%nat in
  pad ← Byte.of_nat padding_length;
  let padded_plaintext := (plaintext_bytes ++ replicate padding_length pad)%list in
  ciphertext ← aes_cbc_encrypt key iv padded_plaintext;
  Some (b64encode (iv ++ ciphertext)%list).

(** [decrypt(ciphertext_b64)]; [None] stands for the [ValueError] into which
    the method turns every exception. *)
Definition decrypt (ciphertext_b64 : string) : option string :=
  data ← b64decode ciphertext_b64;
  let iv := take block_size data in
  let ciphertext := drop block_size data in
  padded_plaintext ← aes_cbc_decrypt key iv ciphertext;
  last ← last_byte padded_plaintext;
  let padding_length := Byte.to_nat last in
  let plaintext := strip_suffix padding_length padded_plaintext in
  utf8_decode plaintext.

(** ** Round trip *)

Lemma pad_byte_exists (n : nat) :
  (n <= 255)%nat -> exists b, Byte.of_nat n = Some b /\ Byte.to_nat b = n.
Proof.
  intros Hn. rewrite Byte.of_nat_via_N.
  destruct (Byte.of_N (N.of_nat n)) as [b|] eqn:E.
  - exists b. split; [done|].
    rewrite Byte.to_nat_via_N, (Byte.to_of_N _ E). lia.
  - apply Byte.of_N_None_iff in E. lia.
Qed.

Lemma padding_length_range (n : nat) :
  (1 <= block_size - n mod block_size <= 16)%nat.
Proof.
  unfold block_size.
  pose proof (Nat.mod_upper_bound n 16 ltac:(lia)). lia.
Qed.

Lemma padded_length_aligned (n : nat) :
  ((n + (block_size - n mod block_size)) mod block_size = 0)%nat.
Proof.
  unfold block_size.
  pose proof (Nat.mod_upper_bound n 16 ltac:(lia)).
  pose proof (Nat.div_mod_eq n 16).
  replace (n + (16 - n mod 16))%nat with ((n / 16 + 1) * 16)%nat by lia.
  apply Nat.Div0.mod_mul.
Qed.

Lemma last_padded (bs : list byte) (pad : byte) (n : nat) :
  (1 <= n)%nat -> last_byte (bs ++ replicate n pad)%list = Some pad.
Proof.
  intros Hn. unfold last_byte. destruct n as [|n]; [lia|].
  rewrite replicate_S_end, app_assoc. apply last_snoc.
Qed.

Lemma strip_suffix_padded (bs : list byte) (pad : byte) (n : nat) :
  (1 <= n)%nat -> strip_suffix n (bs ++ replicate n pad)%list = bs.
Proof.
  intros Hn. unfold strip_suffix. destruct n as [|n]; [lia|].
  rewrite length_app, length_replicate.
  replace (length bs + S n - S n)%nat with (length bs) by lia.
  by rewrite take_app_length.
Qed.

Hypothesis aes_cbc_roundtrip : forall iv data,
  length iv = block_size ->
  (length data mod block_size = 0)%nat ->
  exists ct, aes_cbc_encrypt key iv data = Some ct
             /\ aes_cbc_decrypt key iv ct = Some data.

Hypothesis b64_roundtrip : forall bs, b64decode (b64encode bs) = Some bs.

(** C7: for every valid UTF-8 string [x] and every 16-byte IV, [encrypt]
    succeeds and [decrypt] of its result gives back exactly [x]. *)
Theorem decrypt_encrypt (x : string) (iv : list byte) :
  valid_utf8 (list_byte_of_string x) = true ->
  length iv = 16%nat ->
  exists c, encrypt iv x = Some c /\ decrypt c = Some x.
Proof.
  intros Hvalid Hiv. unfold encrypt, utf8_encode. rewrite Hvalid. cbn [mbind option_bind].
  set (bs := list_byte_of_string x) in *.
  set (n := (block_size - length bs mod block_size)%nat).
  pose proof (padding_length_range (length bs)) as Hn. fold n in Hn.
  destruct (pad_byte_exists n ltac:(lia)) as (pad & Hpad & Hto).
  rewrite Hpad. cbn [mbind option_bind].
  destruct (aes_cbc_roundtrip iv (bs ++ replicate n pad)%list Hiv) as (ct & Henc & Hdec).
  { rewrite length_app, length_replicate. apply padded_length_aligned. }
  rewrite Henc. cbn [mbind option_bind]. eexists. split; [reflexivity|].
  unfold decrypt. rewrite b64_roundtrip. cbn [mbind option_bind].
  rewrite take_app_length' by done. rewrite drop_app_length' by done.
  rewrite Hdec. cbn [mbind option_bind].
  rewrite last_padded by lia. cbn [mbind option_bind].
  rewrite Hto, strip_suffix_padded by lia.
  unfold utf8_decode. rewrite Hvalid. subst bs.
  by rewrite string_of_list_byte_of_string.
Qed.

(** ** Padding *)

(** X5: Whenever [encrypt] returns, the data it handed to AES is the text's
    bytes followed by [n] copies of the byte [n], where [n] lies in
    [[1, 16]] and makes the length a multiple of the block size; a text
    whose length is already a multiple of 16 gets a whole block of padding. *)
Theorem encrypt_pads_to_block (iv : list byte) (plaintext c : string) :
  encrypt iv plaintext = Some c ->
  let bs := list_byte_of_string plaintext in
  exists (pad : byte) (ct : list byte),
    (1 <= Byte.to_nat pad <= 16)%nat
    /\ ((length bs + Byte.to_nat pad) mod 16 = 0)%nat
    /\ (length bs mod 16 = 0 -> Byte.to_nat pad = 16)%nat
    /\ aes_cbc_encrypt key iv (bs ++ replicate (Byte.to_nat pad) pad)%list = Some ct
    /\ c = b64encode (iv ++ ct)%list.
Proof.
  unfold encrypt, utf8_encode. cbn zeta.
  destruct (valid_utf8 (list_byte_of_string plaintext)); [|done].
  cbn [mbind option_bind]. intros Henc.
  set (bs := list_byte_of_string plaintext) in *.
  set (n := (block_size - length bs mod block_size)%nat) in *.
  pose proof (padding_length_range (length bs)) as Hn. fold n in Hn.
  destruct (pad_byte_exists n ltac:(lia)) as (pad & Hpad & Hto).
  rewrite Hpad in Henc. cbn [mbind option_bind] in Henc.
  destruct (aes_cbc_encrypt key iv _) as [ct|] eqn:Haes; [|done].
  injection Henc as <-. exists pad, ct. rewrite Hto.
  split; [lia|]. split; [apply padded_length_aligned|].
  split; [|done]. unfold n, block_size. intros ->. lia.
Qed.

(** X6: [decrypt] does not check the padding: only the last byte of the
    decrypted data counts.  When that byte is zero, or at least the length
    of the data, the slice [padded[:-n]] is empty and [decrypt] returns the
    empty string instead of failing. *)
Theorem decrypt_degenerate_padding
    (c : string) (data padded : list byte) (last : byte) :
  b64decode c = Some data ->
  aes_cbc_decrypt key (take block_size data) (drop block_size data) = Some padded ->
  last_byte padded = Some last ->
  (Byte.to_nat last = 0 \/ length padded <= Byte.to_nat last)%nat ->
  decrypt c = Some "".
Proof.
  intros Hb Ha Hl Hn. unfold decrypt. rewrite Hb. cbn [mbind option_bind].
  rewrite Ha. cbn [mbind option_bind]. rewrite Hl. cbn [mbind option_bind].
  assert (strip_suffix (Byte.to_nat last) padded = []) as ->; [|done].
  unfold strip_suffix. destruct (Byte.to_nat last) as [|n]; [done|].
  destruct Hn as [?|Hn]; [done|].
  replace (length padded - S n)%nat with 0%nat by lia. done.
Qed.

(** Otherwise [decrypt] keeps what precedes the last [n] bytes, whatever
    those bytes are. *)
Theorem decrypt_strips_by_last_byte
    (c : string) (data padded : list byte) (last : byte) :
  b64decode c = Some data ->
  aes_cbc_decrypt key (take block_size data) (drop block_size data) = Some padded ->
  last_byte padded = Some last ->
  (1 <= Byte.to_nat last <= length padded)%nat ->
  decrypt c = utf8_decode (take (length padded - Byte.to_nat last) padded).
Proof.
  intros Hb Ha Hl Hn. unfold decrypt. rewrite Hb. cbn [mbind option_bind].
  rewrite Ha. cbn [mbind option_bind]. rewrite Hl. cbn [mbind option_bind].
  unfold strip_suffix. destruct (Byte.to_nat last); [lia|done].
Qed.

End WithPrimitives.

(** ** A stand-in cipher and codec

    The executable scenarios below need some instance of the primitives;
    this one keeps the interface (sizes are checked, failures are reported)
    without being a cipher: the "ciphertext" is the data reversed and
    "base64" is the identity on bytes. *)

Definition standin_cbc (key iv data : list byte) : option (list byte) :=
  if ((length iv =? block_size) && (length data mod block_size =? 0))%nat
  then Some (reverse data) else None.

Definition standin_b64encode (bs : list byte) : string := string_of_list_byte bs.
Definition standin_b64decode (s : string) : option (list byte) :=
  Some (list_byte_of_string s).

Definition standin_encrypt : list byte -> string -> option string :=
  encrypt [] standin_cbc standin_b64encode.
Definition standin_decrypt : string -> option string :=
  decrypt [] standin_cbc standin_b64decode.

Lemma standin_cbc_roundtrip key iv data :
  length iv = block_size ->
  (length data mod block_size = 0)%nat ->
  exists ct, standin_cbc key iv data = Some ct /\ standin_cbc key iv ct = Some data.
Proof.
  intros Hiv Hd. exists (reverse data). unfold standin_cbc.
  rewrite length_reverse, Hiv, Hd, Nat.eqb_refl. cbn.
  by rewrite reverse_involutive.
Qed.

Lemma standin_b64_roundtrip bs : standin_b64decode (standin_b64encode bs) = Some bs.
Proof.
  unfold standin_b64decode, standin_b64encode.
  by rewrite list_byte_of_string_of_list_byte.
Qed.

(** The round trip at the text [ping] under an all-zero IV. *)
Lemma decrypt_encrypt_witness :
  exists c, standin_encrypt (replicate 16 x00) "ping" = Some c
            /\ standin_decrypt c = Some "ping".
Proof.
  apply (decrypt_encrypt [] standin_cbc standin_cbc standin_b64encode standin_b64decode
           (standin_cbc_roundtrip []) standin_b64_roundtrip "ping" (replicate 16 x00)).
  - vm_compute. reflexivity.
  - reflexivity.
Defined.

Lemma encrypt_pads_to_block_witness :
  exists (pad : byte) (ct : list byte),
    (1 <= Byte.to_nat pad <= 16)%nat
    /\ ((length (list_byte_of_string "ping") + Byte.to_nat pad) mod 16 = 0)%nat
    /\ (length (list_byte_of_string "ping") mod 16 = 0 -> Byte.to_nat pad = 16)%nat
    /\ standin_cbc [] (replicate 16 x00)
         (list_byte_of_string "ping" ++ replicate (Byte.to_nat pad) pad)%list = Some ct
    /\ default "" (standin_encrypt (replicate 16 x00) "ping")
       = standin_b64encode (replicate 16 x00 ++ ct)%list.
Proof.
  apply (encrypt_pads_to_block [] standin_cbc standin_b64encode (replicate 16 x00)
           "ping" (default "" (standin_encrypt (replicate 16 x00) "ping"))).
  vm_compute. reflexivity.
Defined.

(** A block of zero bytes after the IV: the last byte says "strip nothing". *)
Definition zero_block_ciphertext : string := standin_b64encode (replicate 32 x00).

Lemma decrypt_degenerate_padding_witness :
  standin_decrypt zero_block_ciphertext = Some "".
Proof.
  apply (decrypt_degenerate_padding [] standin_cbc standin_b64decode
           zero_block_ciphertext (replicate 32 x00) (replicate 16 x00) x00).
  - vm_compute. reflexivity.
  - vm_compute. reflexivity.
  - reflexivity.
  - left. reflexivity.
Defined.

(** Fourteen letters, then [z] and the byte 2: not a PKCS#7 padding. *)
Definition odd_padding : list byte := (replicate 14 x41 ++ [x7a; x02])%list.

Definition odd_padding_ciphertext : string :=
  standin_b64encode (replicate 16 x00 ++ reverse odd_padding)%list.

Lemma decrypt_strips_by_last_byte_witness :
  standin_decrypt odd_padding_ciphertext
  = utf8_decode (take (length odd_padding - Byte.to_nat x02) odd_padding).
Proof.
  apply (decrypt_strips_by_last_byte [] standin_cbc standin_b64decode
           odd_padding_ciphertext
           (replicate 16 x00 ++ reverse odd_padding)%list odd_padding x02).
  - vm_compute. reflexivity.
  - vm_compute. reflexivity.
  - reflexivity.
  - vm_compute. split; repeat constructor.
Defined.

End Crypto.

(* ===================================================================== *)
(** * Signature checking ([auth_system.AuthenticationManager]) *)
(* ===================================================================== *)

Module Auth.

(** The JSON object built by [sign_message] and read back by
    [verify_signature]. *)
Record SignedBlob := mkBlob {
  message : string;
  signature : string;
  public_key : string;
  signer_id : string
}.

Section WithPrimitives.

(** [json.loads(s)] followed by the four field reads; [None] stands for
    any exception they raise. *)
Variable json_loads_blob : string -> option SignedBlob.

(** Decoding and importing the public key, hashing the message and
    [DSS.new(public_key, 'fips-186-3').verify(h, signature)], as a function
    of the [public_key], [message] and [signature] fields; [false] stands
    for any exception raised on the way. *)
Variable dss_verify : string -> string -> string -> bool.

(** [verify_signature(signed_message_json)]: [Some (message, signer_id)]
    is the result [(True, message, signer_id)] and [None] is
    [(False, None, None)]. *)
Definition verify_signature (signed_message_json : string) : option (string * string) :=
  match json_loads_blob signed_message_json with
  | None => None
  | Some signed_message =>
    if dss_verify (public_key signed_message) (message signed_message)
                  (signature signed_message)
    then Some (message signed_message, signer_id signed_message)
    else None
  end.

End WithPrimitives.

Section Signing.

(** [json.dumps] of the blob and [json.loads] with the field reads. *)
Variable json_dumps_blob : SignedBlob -> string.
Variable json_loads_blob : string -> option SignedBlob.

(** [DSS.new(self.private_key, 'fips-186-3').sign(SHA256.new(message))],
    base64-encoded, for the loaded private key; [None] when [message] cannot
    be encoded.  [dss_verify] is as in [verify_signature]. *)
Variable dss_sign : string -> option string.
Variable dss_verify : string -> string -> string -> bool.

(** The loaded key pair: whether [self.private_key] is set, and the
    base64 of the PEM export of [self.public_key]. *)
Variable has_private_key : bool.
Variable public_key_b64 : string.

(** [sign_message(message, node_id)]; [None] stands for the [ValueError]
    raised without a private key and for an encoding error. *)
Definition sign_message (message node_id : string) : option string :=
  if has_private_key then
    signature_b64 ← dss_sign message;
    Some (json_dumps_blob (mkBlob message signature_b64 public_key_b64 node_id))
  else None.

(** [json.loads] reads back what [json.dumps] wrote. *)
Hypothesis json_roundtrip : forall sb, json_loads_blob (json_dumps_blob sb) = Some sb.

(** A signature made with the private key verifies under the public key of
    the same pair. *)
Hypothesis dss_sign_verifies : forall message signature_b64,
  dss_sign message = Some signature_b64 ->
  dss_verify public_key_b64 message signature_b64 = true.

(** X4: What [sign_message] returns, [verify_signature] accepts, giving back the
    message and the signer id that went in. *)
Theorem verify_signature_sign_message (message node_id signed : string) :
  sign_message message node_id = Some signed ->
  verify_signature json_loads_blob dss_verify signed = Some (message, node_id).
Proof.
  unfold sign_message, verify_signature.
  destruct has_private_key; [|done].
  destruct (dss_sign message) as [sig|] eqn:Hsig; [|done]. cbn.
  intros [= <-]. rewrite json_roundtrip. cbn.
  by rewrite (dss_sign_verifies _ _ Hsig).
Qed.

End Signing.

End Auth.

(* ===================================================================== *)
(** * Mesh nodes ([mesh_node], [secure_mesh_node]) *)
(* ===================================================================== *)

Module NodeInfo.
(** [@dataclass NodeInfo] *)
Record t := mk {
  node_id : string;
  ip_address : string;
  port : Z;
  last_seen : Q;
  hostname : string
}.
End NodeInfo.

Module Message.
(** [@dataclass Message] *)
Record t := mk {
  msg_id : string;
  source_id : string;
  dest_id : string;
  payload : string;
  timestamp : Q;
  ttl : Z;
  msg_type : string;
  route : list string
}.

(** [message.payload = p] *)
Definition set_payload (p : string) (m : t) : t :=
  mk (msg_id m) (source_id m) (dest_id m) p (timestamp m) (ttl m) (msg_type m) (route m).

(** [message.route.append(n)] *)
Definition route_append (n : string) (m : t) : t :=
  mk (msg_id m) (source_id m) (dest_id m) (payload m) (timestamp m) (ttl m)
     (msg_type m) (route m ++ [n]).

(** [message.ttl -= 1] *)
Definition ttl_decrement (m : t) : t :=
  mk (msg_id m) (source_id m) (dest_id m) (payload m) (timestamp m) (ttl m - 1)
     (msg_type m) (route m).
End Message.

Module Mesh.

Import Message.

(** [MeshNode.MAX_TTL] *)
Definition MAX_TTL : Z := 20.

(** The part of a [MeshNode] that the message path reads and writes.
    [known_nodes] lists the values of the neighbour dictionary in insertion
    order; the registered callbacks are represented by the [Callback] effect. *)
Record MeshNode := mkNode {
  node_id : string;
  known_nodes : list NodeInfo.t;
  message_cache : gset string
}.

(** A [SecureMeshNode] is a [MeshNode] with the authentication switch and
    its trust ledger. *)
Record SecureMeshNode := mkSecure {
  base : MeshNode;
  enable_auth : bool;
  trust_manager : Trust.TrustManager
}.

(** What a call leaves behind outside the node object. *)
Inductive Effect :=
| Callback (m : Message.t)                      (* [_trigger_callbacks(m)] *)
| ForwardCall (m : Message.t)                   (* [_forward_message(m)] was entered *)
| Frame (target : NodeInfo.t) (m : Message.t).  (* [_send_to_node] wrote [m] to [target] *)

Definition effect_message (e : Effect) : Message.t :=
  match e with
  | Callback m | ForwardCall m | Frame _ m => m
  end.

(** [self.message_cache.add(msg_id)] *)
Definition cache_add (id : string) (st : MeshNode) : MeshNode :=
  mkNode (node_id st) (known_nodes st) ({[id]} ∪ message_cache st).

Definition with_base (b : MeshNode) (st : SecureMeshNode) : SecureMeshNode :=
  mkSecure b (enable_auth st) (trust_manager st).

Definition with_trust (tm : Trust.TrustManager) (st : SecureMeshNode) : SecureMeshNode :=
  mkSecure (base st) (enable_auth st) tm.

(** ** Neighbour discovery ([_discovery_listener], [_cleanup_old_nodes]) *)

(** [MeshNode.NODE_TIMEOUT] *)
Definition NODE_TIMEOUT : Q := 90.

(** The decoded discovery datagram: the keys the listener reads, each
    present or absent. *)
Record Discovery := mkDiscovery {
  disc_type : option string;
  disc_node_id : option string;
  disc_port : option Z;
  disc_hostname : option string
}.

(** [self.known_nodes[node_info.node_id] = node_info] on the list of values:
    an existing key keeps its place, a new key goes to the end. *)
Fixpoint known_nodes_set (node_info : NodeInfo.t) (nodes : list NodeInfo.t)
    : list NodeInfo.t :=
  match nodes with
  | [] => [node_info]
  | n :: rest =>
    if decide (NodeInfo.node_id n = NodeInfo.node_id node_info)
    then node_info :: rest
    else n :: known_nodes_set node_info rest
  end.

(** [self.known_nodes.pop(node_id)]; [None] stands for [KeyError]. *)
Fixpoint known_nodes_pop (node_id : string) (nodes : list NodeInfo.t)
    : option (NodeInfo.t * list NodeInfo.t) :=
  match nodes with
  | [] => None
  | n :: rest =>
    if decide (NodeInfo.node_id n = node_id) then Some (n, rest)
    else '(x, rest') ← known_nodes_pop node_id rest; Some (x, n :: rest')
  end.

Definition with_known_nodes (nodes : list NodeInfo.t) (st : MeshNode) : MeshNode :=
  mkNode (node_id st) nodes (message_cache st).

(** One turn of the loop of [_discovery_listener], from the decoded
    datagram [msg] received from address [addr] at time [now].  A missing
    key raises [KeyError], which the [except] clause swallows: the node is
    left as it was. *)
Definition _discovery_listener (st : MeshNode) (msg : Discovery) (addr : string)
    (now : Q) : MeshNode :=
  if bool_decide (disc_type msg = Some "discovery") then
    match disc_node_id msg with
    | None => st
    | Some sender =>
      if bool_decide (sender ≠ node_id st) then
        match disc_port msg, disc_hostname msg with
        | Some port, Some hostname =>
          with_known_nodes
            (known_nodes_set (NodeInfo.mk sender addr port now hostname)
                             (known_nodes st)) st
        | _, _ => st
        end
      else st
    end
  else st.

(** [current_time - node.last_seen > self.NODE_TIMEOUT] *)
Definition expired (current_time : Q) (node : NodeInfo.t) : bool :=
  negb (Qle_bool (current_time - NodeInfo.last_seen node) NODE_TIMEOUT).

(** The loop [for node_id in expired_nodes: self.known_nodes.pop(node_id)]. *)
Fixpoint pop_all (ids : list string) (nodes : list NodeInfo.t)
    : option (list NodeInfo.t) :=
  match ids with
  | [] => Some nodes
  | node_id :: ids =>
    '(_, nodes) ← known_nodes_pop node_id nodes; pop_all ids nodes
  end.

(** One turn of the loop of [_cleanup_old_nodes] at time [current_time];
    [None] stands for a [KeyError] of [pop]. *)
Definition _cleanup_old_nodes (st : MeshNode) (current_time : Q) : option MeshNode :=
  let expired_nodes :=
    NodeInfo.node_id <$> filter (λ n, expired current_time n = true) (known_nodes st) in
  nodes ← pop_all expired_nodes (known_nodes st);
  Some (with_known_nodes nodes st).

(** The neighbour table is a dictionary keyed by node id that never holds
    the node itself. *)
Definition table_ok (st : MeshNode) : Prop :=
  NoDup (NodeInfo.node_id <$> known_nodes st)
  /\ (node_id st ∉ NodeInfo.node_id <$> known_nodes st).

Lemma elem_of_known_nodes_set (x n : NodeInfo.t) (nodes : list NodeInfo.t) :
  NoDup (NodeInfo.node_id <$> nodes) ->
  n ∈ known_nodes_set x nodes
  <-> n = x \/ (n ∈ nodes /\ NodeInfo.node_id n ≠ NodeInfo.node_id x).
Proof.
  induction nodes as [|a rest IH]; cbn [known_nodes_set fmap list_fmap]; intros Hnd.
  - rewrite list_elem_of_singleton. split; [by left|].
    intros [?|[?%elem_of_nil _]]; done.
  - apply NoDup_cons in Hnd as [Ha Hnd]. case_decide as Heq.
    + rewrite !elem_of_cons. split.
      * intros [->|Hin]; [by left|]. right. split; [by right|].
        intros Hid. apply Ha. rewrite Heq, <- Hid.
        apply list_elem_of_fmap. by exists n.
      * intros [->|[[->|Hin] Hne]]; [by left|done|by right].
    + rewrite !elem_of_cons, IH by done. split.
      * intros [->|[->|[Hin Hne]]]; [right; split; [by left|done] |by left|].
        right. split; [by right|done].
      * intros [->|[[->|Hin] Hne]]; [right; by left|by left|].
        right. right. done.
Qed.

Lemma known_nodes_set_ids (x : NodeInfo.t) (nodes : list NodeInfo.t) :
  NodeInfo.node_id <$> known_nodes_set x nodes
  = if decide (NodeInfo.node_id x ∈ NodeInfo.node_id <$> nodes)
    then NodeInfo.node_id <$> nodes
    else ((NodeInfo.node_id <$> nodes) ++ [NodeInfo.node_id x])%list.
Proof.
  induction nodes as [|a rest IH]; cbn [known_nodes_set fmap list_fmap].
  - rewrite decide_False; [done|]. apply not_elem_of_nil.
  - destruct (decide (NodeInfo.node_id a = NodeInfo.node_id x)) as [Heq|Heq].
    + cbn [fmap list_fmap]. rewrite decide_True; [by rewrite Heq|].
      rewrite Heq. by left.
    + cbn [fmap list_fmap]. rewrite IH.
      destruct (decide (NodeInfo.node_id x ∈ NodeInfo.node_id <$> rest)) as [Hin|Hin].
      * rewrite decide_True; [done|]. by right.
      * rewrite decide_False; [done|].
        intros [?|?]%elem_of_cons; [by apply Heq|done].
Qed.

Lemma filter_all {A} (P : A -> Prop) `{forall x, Decision (P x)} (l : list A) :
  (forall x, x ∈ l -> P x) -> filter P l = l.
Proof.
  induction l as [|a l IH]; intros Hall; [done|].
  rewrite filter_cons_True by (apply Hall; by left).
  f_equal. apply IH. intros x Hx. apply Hall. by right.
Qed.

Lemma filter_iff_in {A} (P Q : A -> Prop)
    `{forall x, Decision (P x)} `{forall x, Decision (Q x)} (l : list A) :
  (forall x, x ∈ l -> P x <-> Q x) -> filter P l = filter Q l.
Proof.
  induction l as [|a l IH]; intros Hall; [done|].
  assert (filter P l = filter Q l) as Hl.
  { apply IH. intros x Hx. apply Hall. by right. }
  destruct (decide (P a)) as [Hp|Hp].
  - rewrite !filter_cons_True; [by f_equal|by apply Hall; [left|]|done].
  - rewrite !filter_cons_False; [done| |done].
    intros Hq. apply Hp, Hall; [by left|done].
Qed.

Lemma NoDup_ids_filter (P : NodeInfo.t -> Prop) `{forall x, Decision (P x)}
    (nodes : list NodeInfo.t) :
  NoDup (NodeInfo.node_id <$> nodes) ->
  NoDup (NodeInfo.node_id <$> filter P nodes).
Proof.
  intros Hnd. eapply sublist_NoDup; [exact Hnd|].
  apply fmap_sublist, sublist_filter.
Qed.

Lemma same_id_same_node (nodes : list NodeInfo.t) (x y : NodeInfo.t) :
  NoDup (NodeInfo.node_id <$> nodes) ->
  x ∈ nodes -> y ∈ nodes -> NodeInfo.node_id x = NodeInfo.node_id y -> x = y.
Proof.
  induction nodes as [|a rest IH]; cbn [fmap list_fmap]; intros Hnd Hx Hy Hid.
  - by apply elem_of_nil in Hx.
  - apply NoDup_cons in Hnd as [Ha Hnd].
    apply elem_of_cons in Hx as [->|Hx]; apply elem_of_cons in Hy as [->|Hy].
    + done.
    + exfalso. apply Ha. rewrite Hid. apply list_elem_of_fmap. by exists y.
    + exfalso. apply Ha. rewrite <- Hid. apply list_elem_of_fmap. by exists x.
    + by apply IH.
Qed.

Lemma known_nodes_pop_filter (id : string) (nodes : list NodeInfo.t) :
  NoDup (NodeInfo.node_id <$> nodes) ->
  id ∈ NodeInfo.node_id <$> nodes ->
  exists x,
    known_nodes_pop id nodes
    = Some (x, filter (λ n, NodeInfo.node_id n ≠ id) nodes)
    /\ x ∈ nodes /\ NodeInfo.node_id x = id.
Proof.
  induction nodes as [|a rest IH]; cbn [known_nodes_pop fmap list_fmap];
    intros Hnd Hin.
  - by apply elem_of_nil in Hin.
  - apply NoDup_cons in Hnd as [Ha Hnd]. case_decide as Heq.
    + exists a. rewrite filter_cons_False by (intros Hne; by apply Hne).
      split; [|split; [by left|done]]. do 2 f_equal. symmetry.
      apply filter_all. intros n Hn Hid. apply Ha.
      rewrite Heq, <- Hid. apply list_elem_of_fmap. by exists n.
    + apply elem_of_cons in Hin as [Hin|Hin]; [by subst id|].
      destruct (IH Hnd Hin) as (x & -> & Hx & Hid). exists x.
      rewrite filter_cons_True by done. split; [done|]. split; [by right|done].
Qed.

Lemma pop_all_filter (ids : list string) (nodes : list NodeInfo.t) :
  NoDup (NodeInfo.node_id <$> nodes) ->
  NoDup ids ->
  (forall id, id ∈ ids -> id ∈ NodeInfo.node_id <$> nodes) ->
  pop_all ids nodes = Some (filter (λ n, NodeInfo.node_id n ∉ ids) nodes).
Proof.
  revert nodes. induction ids as [|id ids IH]; intros nodes Hnd Hids Hsub;
    cbn [pop_all].
  - f_equal. symmetry. apply filter_all. intros n _. apply not_elem_of_nil.
  - apply NoDup_cons in Hids as [Hid Hids].
    destruct (known_nodes_pop_filter id nodes Hnd) as (x & -> & _);
      [apply Hsub; by left|].
    cbn. rewrite IH.
    + f_equal. rewrite list_filter_filter. apply list_filter_iff.
      intros n. rewrite not_elem_of_cons. tauto.
    + by apply NoDup_ids_filter.
    + done.
    + intros k Hk. assert (k ≠ id) as Hne by (intros ->; done).
      assert (k ∈ NodeInfo.node_id <$> nodes) as (n & -> & Hn)%list_elem_of_fmap
        by (apply Hsub; by right).
      apply list_elem_of_fmap. exists n. split; [done|].
      by apply list_elem_of_filter.
Qed.

(** X19: Whatever the datagram holds, the listener leaves the neighbour table a
    dictionary without the node itself, and touches nothing else. *)
Theorem discovery_keeps_table_ok
    (st : MeshNode) (msg : Discovery) (addr : string) (now : Q) :
  table_ok st ->
  table_ok (_discovery_listener st msg addr now)
  /\ node_id (_discovery_listener st msg addr now) = node_id st
  /\ message_cache (_discovery_listener st msg addr now) = message_cache st.
Proof.
  intros [Hnd Hself]. unfold _discovery_listener.
  case_bool_decide; [|done].
  destruct (disc_node_id msg) as [sender|]; [|done].
  case_bool_decide as Hne; [|done].
  destruct (disc_port msg) as [port|]; [|done].
  destruct (disc_hostname msg) as [hostname|]; [|done].
  split; [|done]. unfold table_ok. cbn [known_nodes with_known_nodes node_id].
  rewrite known_nodes_set_ids. cbn [NodeInfo.node_id]. case_decide as Hin; [done|].
  split.
  - apply NoDup_app. split; [done|]. split; [|apply NoDup_singleton].
    intros k Hk ->%list_elem_of_singleton. done.
  - rewrite elem_of_app, list_elem_of_singleton. intros [?|?]; [done|].
    by apply Hne.
Qed.

(** X20: A well-formed announcement from another node leaves exactly one entry
    for the sender -- the one just built, with the datagram's address as IP
    and [now] as [last_seen] -- and every entry of the other neighbours as
    it was; a known sender keeps its place in the table and a new one goes
    to the end. *)
Theorem discovery_refreshes_sender
    (st : MeshNode) (sender addr hostname : string) (port : Z) (now : Q) :
  NoDup (NodeInfo.node_id <$> known_nodes st) ->
  sender ≠ node_id st ->
  let st' :=
    _discovery_listener st
      (mkDiscovery (Some "discovery") (Some sender) (Some port) (Some hostname))
      addr now in
  (forall n, n ∈ known_nodes st'
     <-> n = NodeInfo.mk sender addr port now hostname
         \/ (n ∈ known_nodes st /\ NodeInfo.node_id n ≠ sender))
  /\ NodeInfo.node_id <$> known_nodes st'
     = if decide (sender ∈ NodeInfo.node_id <$> known_nodes st)
       then NodeInfo.node_id <$> known_nodes st
       else ((NodeInfo.node_id <$> known_nodes st) ++ [sender])%list.
Proof.
  intros Hnd Hne st'. unfold st', _discovery_listener.
  cbn [disc_type disc_node_id disc_port disc_hostname].
  rewrite bool_decide_eq_true_2 by done. rewrite bool_decide_eq_true_2 by done.
  cbn [known_nodes with_known_nodes]. split.
  - intros n. by rewrite elem_of_known_nodes_set.
  - by rewrite known_nodes_set_ids.
Qed.

Lemma expired_false (current_time : Q) (n : NodeInfo.t) :
  expired current_time n = false
  <-> (current_time - NodeInfo.last_seen n <= NODE_TIMEOUT)%Q.
Proof.
  unfold expired. rewrite <- Qle_bool_iff. by destruct (Qle_bool _ _).
Qed.

(** X21: A turn of the janitor never raises: it removes exactly the neighbours
    last seen more than [NODE_TIMEOUT] seconds before [current_time], keeps
    the others in their order and touches nothing else. *)
Theorem cleanup_old_nodes_drops_expired (st : MeshNode) (current_time : Q) :
  NoDup (NodeInfo.node_id <$> known_nodes st) ->
  exists st',
    _cleanup_old_nodes st current_time = Some st'
    /\ known_nodes st'
       = filter (λ n, expired current_time n = false) (known_nodes st)
    /\ (forall n, n ∈ known_nodes st'
          <-> n ∈ known_nodes st
              /\ (current_time - NodeInfo.last_seen n <= NODE_TIMEOUT)%Q)
    /\ node_id st' = node_id st /\ message_cache st' = message_cache st.
Proof.
  intros Hnd. unfold _cleanup_old_nodes. rewrite pop_all_filter.
  - eexists. split; [reflexivity|]. cbn.
    assert (filter (λ n, NodeInfo.node_id n ∉ NodeInfo.node_id
                      <$> filter (λ n0, expired current_time n0 = true) (known_nodes st))
                   (known_nodes st)
            = filter (λ n, expired current_time n = false) (known_nodes st)) as ->.
    { apply filter_iff_in. intros n Hn. split.
      - intros Hout. destruct (expired current_time n) eqn:E; [|done].
        exfalso. apply Hout. apply list_elem_of_fmap. exists n. split; [done|].
        by apply list_elem_of_filter.
      - intros Hle (n' & Hid & [Hexp Hn']%list_elem_of_filter)%list_elem_of_fmap.
        assert (n' = n) as -> by (by apply (same_id_same_node (known_nodes st))).
        congruence. }
    split; [done|]. split; [|done].
    intros n. rewrite list_elem_of_filter, expired_false. tauto.
  - done.
  - by apply NoDup_ids_filter.
  - intros id (n & -> & [_ Hn]%list_elem_of_filter)%list_elem_of_fmap.
    apply list_elem_of_fmap. by exists n.
Qed.
Section WithEnvironment.

(** [self.crypto.encrypt] (given the IV it draws) and [self.crypto.decrypt];
    [None] stands for a raised exception. *)
Variable encrypt : list byte -> string -> option string.
Variable decrypt : string -> option string.

(** [self.auth_manager.sign_message(payload, node_id)]; [None] stands for
    the [ValueError] raised when no private key is loaded. *)
Variable sign_message : string -> string -> option string.

(** The primitives of [Auth.verify_signature]. *)
Variable json_loads_blob : string -> option Auth.SignedBlob.
Variable dss_verify : string -> string -> string -> bool.

(** Whether the TCP connection and the two [sendall]s of [_send_to_node]
    to a given neighbour go through. *)
Variable connect_ok : NodeInfo.t -> bool.

Definition verify_signature : string -> option (string * string) :=
  Auth.verify_signature json_loads_blob dss_verify.

(** [_send_to_node(node, message)] *)
Definition _send_to_node (node : NodeInfo.t) (message : Message.t)
    : list Effect * bool :=
  if connect_ok node then ([Frame node message], true) else ([], false).

(** [_forward_message(message)]: the first neighbour whose id is not yet
    on the route. *)
Definition _forward_message (st : MeshNode) (message : Message.t)
    : list Effect * bool :=
  let nodes := known_nodes st in
  match nodes with
  | [] => ([], false)
  | _ =>
    let available_nodes :=
      filter (λ n, NodeInfo.node_id n ∉ route message) nodes in
    match available_nodes with
    | [] => ([], false)
    | target_node :: _ => _send_to_node target_node message
    end
  end.

(** [_broadcast_message(message)]: one send per neighbour, success when at
    least one went through. *)
Fixpoint broadcast_loop (nodes : list NodeInfo.t) (message : Message.t)
    : list Effect * Z :=
  match nodes with
  | [] => ([], 0)
  | node :: rest =>
    let '(effs, ok) := _send_to_node node message in
    let '(effs', success_count) := broadcast_loop rest message in
    ((effs ++ effs')%list, if ok then 1 + success_count else success_count)
  end.

Definition _broadcast_message (st : MeshNode) (message : Message.t)
    : list Effect * bool :=
  let '(effs, success_count) := broadcast_loop (known_nodes st) message in
  (effs, 0 <? success_count).

(** The tail shared by both [send_message]s: build the envelope, remember
    its id, then broadcast or forward. *)
Definition dispatch_new (st : MeshNode) (fresh_id : string) (now : Q)
    (dest_id encrypted_payload msg_type : string)
    : MeshNode * list Effect * bool :=
  let message :=
    Message.mk fresh_id (node_id st) dest_id encrypted_payload now MAX_TTL
               msg_type [node_id st] in
  let st := cache_add (msg_id message) st in
  if bool_decide (dest_id = "broadcast")
  then let '(effs, ok) := _broadcast_message st message in (st, effs, ok)
  else let '(effs, ok) := _forward_message st message in
       (st, ForwardCall message :: effs, ok).

(** [MeshNode.send_message(dest_id, payload, msg_type)], given the values
    drawn inside it ([uuid4], [time.time()], the IV).  Every exception is
    caught and turned into [False]. *)
Definition send_message (st : MeshNode) (fresh_id : string) (now : Q)
    (iv : list byte) (dest_id payload msg_type : string)
    : MeshNode * list Effect * bool :=
  match encrypt iv payload with
  | None => (st, [], false)
  | Some encrypted_payload =>
    dispatch_new st fresh_id now dest_id encrypted_payload msg_type
  end.

(** [SecureMeshNode.send_message]; nothing is caught here, so [None] stands
    for an exception reaching the caller. *)
Definition secure_send_message (st : SecureMeshNode) (fresh_id : string)
    (now : Q) (iv : list byte) (dest_id payload msg_type : string)
    : option (SecureMeshNode * list Effect * bool) :=
  encrypted_payload ←
    (if enable_auth st
     then signed_payload ← sign_message payload (node_id (base st));
          encrypt iv signed_payload
     else encrypt iv payload);
  let '(b, effs, ok) :=
    dispatch_new (base st) fresh_id now dest_id encrypted_payload msg_type in
  Some (with_base b st, effs, ok).

(** The delivery decision at the end of [MeshNode._handle_client]. *)
Definition deliver_or_relay (st : MeshNode) (message : Message.t) : list Effect :=
  if bool_decide (dest_id message = node_id st)
     || bool_decide (dest_id message = "broadcast")
  then [Callback message]
  else if 0 <? ttl message
  then let message := ttl_decrement message in
       ForwardCall message :: (_forward_message st message).1
  else [].

(** [MeshNode._handle_client], from the parsed envelope on. *)
Definition handle_client (st : MeshNode) (message : Message.t)
    : MeshNode * list Effect :=
  if decide (msg_id message ∈ message_cache st) then (st, [])
  else
    let st := cache_add (msg_id message) st in
    match decrypt (payload message) with
    | None => (st, [])
    | Some decrypted_payload =>
      let message := set_payload decrypted_payload message in
      let message := route_append (node_id st) message in
      (st, deliver_or_relay st message)
    end.

(** The admission step of the secure handler: a sender that
    [is_trusted(.., min_score=0)] rejects is added with the key found in
    the blob.  [None] stands for an exception of [json.loads]. *)
Definition admit_sender (tm : Trust.TrustManager) (source_id decrypted_payload : string)
    : option Trust.TrustManager :=
  if Trust.is_trusted tm source_id 0 then Some tm
  else
    signed_data ← json_loads_blob decrypted_payload;
    let public_key_b64 := Auth.public_key signed_data in
    if bool_decide (public_key_b64 ≠ "")
    then Some (Trust.add_trusted_node tm source_id public_key_b64 50)
    else Some tm.

(** The delivery decision at the end of [SecureMeshNode._handle_client]. *)
Definition secure_deliver_or_relay (st : SecureMeshNode) (message : Message.t)
    : list Effect :=
  if bool_decide (dest_id message = node_id (base st))
     || bool_decide (dest_id message = "broadcast")
  then [Callback message]
  else if 0 <? ttl message
  then let message := ttl_decrement message in
       if enable_auth st
          && negb (Trust.is_trusted (trust_manager st) (source_id message) 20)
       then []
       else ForwardCall message :: (_forward_message (base st) message).1
  else [].

(** [SecureMeshNode._handle_client], from the parsed envelope on. *)
Definition secure_handle_client (st : SecureMeshNode) (message : Message.t)
    : SecureMeshNode * list Effect :=
  if decide (msg_id message ∈ message_cache (base st)) then (st, [])
  else
    let st := with_base (cache_add (msg_id message) (base st)) st in
    match decrypt (payload message) with
    | None => (st, [])
    | Some decrypted_payload =>
      if enable_auth st then
        match verify_signature decrypted_payload with
        | None =>
          (with_trust (Trust.update_trust_score (trust_manager st)
                         (source_id message) (-20)) st, [])
        | Some (original_message, signer_id) =>
          if bool_decide (signer_id ≠ source_id message) then
            (with_trust (Trust.update_trust_score (trust_manager st)
                           (source_id message) (-30)) st, [])
          else
            let tm := Trust.update_trust_score (trust_manager st)
                        (source_id message) 1 in
            match admit_sender tm (source_id message) decrypted_payload with
            | None => (with_trust tm st, [])
            | Some tm =>
              let st := with_trust tm st in
              let message := set_payload original_message message in
              let message := route_append (node_id (base st)) message in
              (st, secure_deliver_or_relay st message)
            end
        end
      else
        let message := set_payload decrypted_payload message in
        let message := route_append (node_id (base st)) message in
        (st, secure_deliver_or_relay st message)
    end.

(** ** The network

    Nodes of either class, the frames that [_send_to_node] has written and
    that no handler has read yet, and the log of callback invocations.  A
    frame is addressed by the [node_id] of the neighbour entry it was sent
    to. *)

Inductive Node :=
| PlainNode (n : MeshNode)
| SecureNode (n : SecureMeshNode).

Definition node_base (nd : Node) : MeshNode :=
  match nd with
  | PlainNode n => n
  | SecureNode n => base n
  end.

(** [_handle_client], dispatched on the class of the node. *)
Definition node_handle (nd : Node) (m : Message.t) : Node * list Effect :=
  match nd with
  | PlainNode n => let '(n', effs) := handle_client n m in (PlainNode n', effs)
  | SecureNode n => let '(n', effs) := secure_handle_client n m in (SecureNode n', effs)
  end.

(** [send_message], dispatched on the class of the node. *)
Definition node_send (nd : Node) (fresh_id : string) (now : Q) (iv : list byte)
    (dest_id payload msg_type : string) : option (Node * list Effect * bool) :=
  match nd with
  | PlainNode n =>
    let '(n', effs, ok) := send_message n fresh_id now iv dest_id payload msg_type in
    Some (PlainNode n', effs, ok)
  | SecureNode n =>
    '(n', effs, ok) ← secure_send_message n fresh_id now iv dest_id payload msg_type;
    Some (SecureNode n', effs, ok)
  end.

(** The discovery listener and the janitor rewrite the neighbour table. *)
Definition node_set_known (known : list NodeInfo.t) (nd : Node) : Node :=
  match nd with
  | PlainNode n => PlainNode (mkNode (node_id n) known (message_cache n))
  | SecureNode n =>
    SecureNode (with_base (mkNode (node_id (base n)) known (message_cache (base n))) n)
  end.

Record Net := mkNet {
  nodes : gmap string Node;
  inflight : list (NodeInfo.t * Message.t);
  delivered : list (string * Message.t)
}.

Definition frames_of (effs : list Effect) : list (NodeInfo.t * Message.t) :=
  omap (λ e, match e with Frame t m => Some (t, m) | _ => None end) effs.

Definition callbacks_of (self : string) (effs : list Effect)
    : list (string * Message.t) :=
  omap (λ e, match e with Callback m => Some (self, m) | _ => None end) effs.

Inductive Step :=
| Recv (i : nat)
    (* the [i]-th frame in flight is read by the handler of its target *)
| Lose (i : nat)
    (* the [i]-th frame in flight is never handled *)
| Send (id fresh_id : string) (now : Q) (iv : list byte)
       (dest_id payload msg_type : string)
    (* node [id] calls [send_message] *)
| Discover (id : string) (known : list NodeInfo.t).
    (* node [id]'s neighbour table changes *)

Definition net_step (net : Net) (s : Step) : option Net :=
  match s with
  | Recv i =>
    '(target, m) ← inflight net !! i;
    let rest := delete i (inflight net) in
    match nodes net !! NodeInfo.node_id target with
    | None => Some (mkNet (nodes net) rest (delivered net))
    | Some nd =>
      let '(nd', effs) := node_handle nd m in
      Some (mkNet (<[NodeInfo.node_id target := nd']> (nodes net))
                  (rest ++ frames_of effs)
                  (delivered net ++ callbacks_of (NodeInfo.node_id target) effs))
    end
  | Lose i =>
    _ ← inflight net !! i;
    Some (mkNet (nodes net) (delete i (inflight net)) (delivered net))
  | Send id fresh_id now iv dest_id payload msg_type =>
    nd ← nodes net !! id;
    '(nd', effs, _) ← node_send nd fresh_id now iv dest_id payload msg_type;
    Some (mkNet (<[id := nd']> (nodes net))
                (inflight net ++ frames_of effs)
                (delivered net))
  | Discover id known =>
    nd ← nodes net !! id;
    Some (mkNet (<[id := node_set_known known nd]> (nodes net))
                (inflight net) (delivered net))
  end.

Fixpoint run (net : Net) (steps : list Step) : option Net :=
  match steps with
  | [] => Some net
  | s :: steps => net' ← net_step net s; run net' steps
  end.

(** Every node is stored under its own id. *)
Definition well_keyed (net : Net) : Prop :=
  forall k nd, nodes net !! k = Some nd -> node_id (node_base nd) = k.

(** Nothing is in flight and nothing has been delivered. *)
Definition quiet (net : Net) : Prop := inflight net = [] /\ delivered net = [].

(** The envelopes present in a network state. *)
Definition envelopes (net : Net) : list Message.t :=
  (snd <$> inflight net) ++ (snd <$> delivered net).

(** [seen net n id]: node [n] has [id] in its duplicate cache. *)
Definition seen (net : Net) (n id : string) : Prop :=
  exists nd, nodes net !! n = Some nd /\ id ∈ message_cache (node_base nd).

(** The outcome of one receive step at node [self] on envelope [m]. *)
Inductive handled (self : string) (m : Message.t) : Effect -> Prop :=
| handled_deliver p :
    dest_id m = self \/ dest_id m = "broadcast" ->
    handled self m (Callback (route_append self (set_payload p m)))
| handled_forward p :
    dest_id m ≠ self -> dest_id m ≠ "broadcast" -> 0 < ttl m ->
    handled self m
      (ForwardCall (ttl_decrement (route_append self (set_payload p m))))
| handled_frame p target :
    dest_id m ≠ self -> dest_id m ≠ "broadcast" -> 0 < ttl m ->
    handled self m
      (Frame target (ttl_decrement (route_append self (set_payload p m)))).

(** ** What the handlers do to one envelope *)

Lemma _send_to_node_effects node m e :
  e ∈ (_send_to_node node m).1 -> e = Frame node m.
Proof.
  unfold _send_to_node. destruct (connect_ok node); cbn; intros He.
  - by apply list_elem_of_singleton in He.
  - by apply elem_of_nil in He.
Qed.

Lemma _forward_message_effects st m e :
  e ∈ (_forward_message st m).1 ->
  exists target, e = Frame target m /\ NodeInfo.node_id target ∉ route m.
Proof.
  unfold _forward_message. destruct (known_nodes st) as [|n ns] eqn:Hk; [set_solver|].
  destruct (filter _ (n :: ns)) as [|target rest] eqn:Hf; [set_solver|].
  intros He. apply _send_to_node_effects in He as ->. exists target. split; [done|].
  assert (target ∈ filter (λ n0, NodeInfo.node_id n0 ∉ route m) (n :: ns)) as Hin
    by (rewrite Hf; left).
  by apply list_elem_of_filter in Hin as [? _].
Qed.

Lemma broadcast_loop_effects ns m e :
  e ∈ (broadcast_loop ns m).1 -> exists target, e = Frame target m.
Proof.
  induction ns as [|n ns IH]; cbn; [set_solver|].
  destruct (_send_to_node n m) as [effs ok] eqn:Hs.
  destruct (broadcast_loop ns m) as [effs' c]. cbn in *.
  rewrite elem_of_app. intros [He|He]; [|by apply IH].
  exists n. apply _send_to_node_effects. by rewrite Hs.
Qed.

Lemma dispatch_new_spec st fresh_id now dest enc ty st' effs ok :
  dispatch_new st fresh_id now dest enc ty = (st', effs, ok) ->
  st' = cache_add fresh_id st
  /\ forall e, e ∈ effs ->
       effect_message e
       = Message.mk fresh_id (node_id st) dest enc now MAX_TTL ty [node_id st].
Proof.
  unfold dispatch_new. cbn. case_bool_decide.
  - unfold _broadcast_message.
    match goal with |- context [broadcast_loop ?ns ?m] =>
      pose proof (broadcast_loop_effects ns m) as Hb end.
    destruct (broadcast_loop _ _) as [effs0 c]. intros [= <- <- <-].
    split; [done|]. intros e He. by destruct (Hb e He) as [t ->].
  - match goal with |- context [_forward_message ?s ?m] =>
      pose proof (_forward_message_effects s m) as Hf end.
    destruct (_forward_message _ _) as [effs0 ok0]. intros [= <- <- <-].
    split; [done|]. intros e [->|He]%elem_of_cons; [done|].
    by destruct (Hf e He) as (t & -> & _).
Qed.

Lemma deliver_or_relay_handled st m p e :
  e ∈ deliver_or_relay st (route_append (node_id st) (set_payload p m)) ->
  handled (node_id st) m e.
Proof.
  unfold deliver_or_relay. cbn [dest_id ttl route_append set_payload].
  destruct (bool_decide (dest_id m = node_id st)) eqn:E1;
    [apply bool_decide_eq_true in E1 | apply bool_decide_eq_false in E1]; cbn [orb].
  { intros ->%list_elem_of_singleton. constructor. by left. }
  destruct (bool_decide (dest_id m = "broadcast")) eqn:E2;
    [apply bool_decide_eq_true in E2 | apply bool_decide_eq_false in E2].
  { intros ->%list_elem_of_singleton. constructor. by right. }
  destruct (0 <? ttl m) eqn:E3; [apply Z.ltb_lt in E3 | set_solver].
  intros [->|He]%elem_of_cons; [by constructor|].
  apply _forward_message_effects in He as (t & -> & _). by constructor.
Qed.

Lemma secure_deliver_or_relay_handled st m p e :
  e ∈ secure_deliver_or_relay st
        (route_append (node_id (base st)) (set_payload p m)) ->
  handled (node_id (base st)) m e.
Proof.
  unfold secure_deliver_or_relay.
  cbn [dest_id ttl source_id route_append set_payload ttl_decrement].
  destruct (bool_decide (dest_id m = node_id (base st))) eqn:E1;
    [apply bool_decide_eq_true in E1 | apply bool_decide_eq_false in E1]; cbn [orb].
  { intros ->%list_elem_of_singleton. constructor. by left. }
  destruct (bool_decide (dest_id m = "broadcast")) eqn:E2;
    [apply bool_decide_eq_true in E2 | apply bool_decide_eq_false in E2].
  { intros ->%list_elem_of_singleton. constructor. by right. }
  destruct (0 <? ttl m) eqn:E3; [apply Z.ltb_lt in E3 | set_solver].
  destruct (enable_auth st && _); [set_solver|].
  intros [->|He]%elem_of_cons; [by constructor|].
  apply _forward_message_effects in He as (t & -> & _). by constructor.
Qed.

Lemma handle_client_handled st m e :
  e ∈ (handle_client st m).2 ->
  (msg_id m ∉ message_cache st) /\ handled (node_id st) m e.
Proof.
  unfold handle_client. case_decide; [set_solver|].
  destruct (decrypt (payload m)) as [d|]; [|set_solver]. cbn [snd].
  intros He. split; [done|].
  apply deliver_or_relay_handled in He. exact He.
Qed.

Lemma secure_handle_client_handled st m e :
  e ∈ (secure_handle_client st m).2 ->
  (msg_id m ∉ message_cache (base st)) /\ handled (node_id (base st)) m e.
Proof.
  unfold secure_handle_client. case_decide; [set_solver|].
  destruct (decrypt (payload m)) as [d|]; [|set_solver].
  cbn [enable_auth with_base with_trust trust_manager base].
  destruct (enable_auth st) eqn:Hauth.
  - destruct (verify_signature d) as [[orig signer]|]; [|set_solver].
    case_bool_decide; [set_solver|].
    destruct (admit_sender _ _ _) as [tm|]; [|set_solver]. cbn [snd].
    intros He. split; [done|].
    apply secure_deliver_or_relay_handled in He. exact He.
  - cbn [snd]. intros He. split; [done|].
    apply secure_deliver_or_relay_handled in He. exact He.
Qed.

Lemma handle_client_state st m :
  node_id (handle_client st m).1 = node_id st
  /\ (msg_id m ∈ message_cache st /\ handle_client st m = (st, [])
      \/ (msg_id m ∉ message_cache st)
         /\ message_cache (handle_client st m).1 = {[msg_id m]} ∪ message_cache st).
Proof.
  unfold handle_client. case_decide; [by split; [|left]|].
  destruct (decrypt (payload m)); by split; [|right].
Qed.

Lemma secure_handle_client_state st m :
  node_id (base (secure_handle_client st m).1) = node_id (base st)
  /\ (msg_id m ∈ message_cache (base st) /\ secure_handle_client st m = (st, [])
      \/ (msg_id m ∉ message_cache (base st))
         /\ message_cache (base (secure_handle_client st m).1)
            = {[msg_id m]} ∪ message_cache (base st)).
Proof.
  unfold secure_handle_client. case_decide; [by split; [|left]|].
  destruct (decrypt (payload m)) as [d|]; [|by split; [|right]].
  cbn [enable_auth with_base].
  destruct (enable_auth st); [|by split; [|right]].
  destruct (verify_signature d) as [[orig signer]|]; [|by split; [|right]].
  case_bool_decide; [by split; [|right]|].
  destruct (admit_sender _ _ _); by split; [|right].
Qed.

Lemma node_handle_handled nd m e :
  e ∈ (node_handle nd m).2 ->
  (msg_id m ∉ message_cache (node_base nd))
  /\ handled (node_id (node_base nd)) m e.
Proof.
  destruct nd as [n|n]; cbn.
  - pose proof (handle_client_handled n m e).
    by destruct (handle_client n m).
  - pose proof (secure_handle_client_handled n m e).
    by destruct (secure_handle_client n m).
Qed.

Lemma node_handle_state nd m :
  node_id (node_base (node_handle nd m).1) = node_id (node_base nd)
  /\ (msg_id m ∈ message_cache (node_base nd) /\ node_handle nd m = (nd, [])
      \/ (msg_id m ∉ message_cache (node_base nd))
         /\ message_cache (node_base (node_handle nd m).1)
            = {[msg_id m]} ∪ message_cache (node_base nd)).
Proof.
  destruct nd as [n|n]; unfold node_handle; cbn [node_base].
  - destruct (handle_client_state n m) as [Hid [[Hin Hc]|[Hnin Hc]]].
    + rewrite Hc. by split; [|left].
    + destruct (handle_client n m) as [n' effs]. by split; [|right].
  - destruct (secure_handle_client_state n m) as [Hid [[Hin Hc]|[Hnin Hc]]].
    + rewrite Hc. by split; [|left].
    + destruct (secure_handle_client n m) as [n' effs]. by split; [|right].
Qed.

Lemma handled_fields self m e :
  handled self m e ->
  msg_id (effect_message e) = msg_id m
  /\ source_id (effect_message e) = source_id m
  /\ dest_id (effect_message e) = dest_id m
  /\ route (effect_message e) = (route m ++ [self])%list.
Proof. by destruct 1. Qed.

Lemma handled_ttl self m e :
  handled self m e ->
  match e with
  | Callback m' => ttl m' = ttl m
  | ForwardCall m' | Frame _ m' => 0 < ttl m /\ ttl m' = ttl m - 1
  end.
Proof. by destruct 1. Qed.

Lemma handled_ttl_le self m e :
  handled self m e -> ttl m - 1 <= ttl (effect_message e) <= ttl m.
Proof. destruct 1; cbn; lia. Qed.

Lemma send_message_spec st fresh_id now iv dest payload ty st' effs ok :
  send_message st fresh_id now iv dest payload ty = (st', effs, ok) ->
  (st' = st /\ effs = [])
  \/ (st' = cache_add fresh_id st
      /\ exists enc, encrypt iv payload = Some enc /\ forall e, e ∈ effs ->
           effect_message e
           = Message.mk fresh_id (node_id st) dest enc now MAX_TTL ty [node_id st]).
Proof.
  unfold send_message. destruct (encrypt iv payload) as [enc|].
  - intros [-> He]%dispatch_new_spec. right. split; [done|]. by exists enc.
  - intros [= <- <- <-]. by left.
Qed.

Lemma secure_send_message_spec st fresh_id now iv dest payload ty st' effs ok :
  secure_send_message st fresh_id now iv dest payload ty = Some (st', effs, ok) ->
  st' = with_base (cache_add fresh_id (base st)) st
  /\ exists enc, forall e, e ∈ effs ->
       effect_message e
       = Message.mk fresh_id (node_id (base st)) dest enc now MAX_TTL ty
                    [node_id (base st)].
Proof.
  unfold secure_send_message.
  destruct (if enable_auth st then _ else _) as [enc|]; [|done]. cbn.
  destruct (dispatch_new _ _ _ _ _ _) as [[b effs0] ok0] eqn:Hd.
  apply dispatch_new_spec in Hd as [-> He]. intros [= <- <- <-].
  split; [done|]. by exists enc.
Qed.

Lemma node_send_spec nd fresh_id now iv dest payload ty nd' effs ok :
  node_send nd fresh_id now iv dest payload ty = Some (nd', effs, ok) ->
  node_id (node_base nd') = node_id (node_base nd)
  /\ (effs = [] /\ message_cache (node_base nd') = message_cache (node_base nd)
      \/ message_cache (node_base nd') = {[fresh_id]} ∪ message_cache (node_base nd)
         /\ exists enc, forall e, e ∈ effs ->
              effect_message e
              = Message.mk fresh_id (node_id (node_base nd)) dest enc now MAX_TTL ty
                           [node_id (node_base nd)]).
Proof.
  destruct nd as [n|n]; cbn.
  - destruct (send_message _ _ _ _ _ _ _) as [[n' effs0] ok0] eqn:Hs.
    intros [= <- <- <-]. cbn.
    apply send_message_spec in Hs as [[-> ->]|[-> (enc & _ & He)]].
    + split; [done|]. by left.
    + split; [done|]. right. split; [done|]. by exists enc.
  - destruct (secure_send_message _ _ _ _ _ _ _) as [[[n' effs0] ok0]|] eqn:Hs; [|done].
    cbn. intros [= <- <- <-]. cbn.
    apply secure_send_message_spec in Hs as [-> [enc He]].
    split; [done|]. right. split; [done|]. by exists enc.
Qed.

(** ** Invariants of the network *)

(** The route of an envelope starts at its source, repeats no id, and
    every node on it has the envelope's id in its duplicate cache. *)
Definition route_ok (net : Net) (m : Message.t) : Prop :=
  head (route m) = Some (source_id m)
  /\ NoDup (route m)
  /\ forall n, n ∈ route m -> seen net n (msg_id m).

Definition ttl_ok (m : Message.t) : Prop := 0 <= ttl m <= MAX_TTL.

Lemma elem_of_frames_of target m effs :
  (target, m) ∈ frames_of effs <-> Frame target m ∈ effs.
Proof.
  unfold frames_of. rewrite list_elem_of_omap. split.
  - intros (e & He & Hf). destruct e; by simplify_eq.
  - intros He. by exists (Frame target m).
Qed.

Lemma elem_of_callbacks_of self k m effs :
  (k, m) ∈ callbacks_of self effs <-> k = self /\ Callback m ∈ effs.
Proof.
  unfold callbacks_of. rewrite list_elem_of_omap. split.
  - intros (e & He & Hf). destruct e; by simplify_eq.
  - intros [-> He]. by exists (Callback m).
Qed.

Lemma elem_of_envelopes net m :
  m ∈ envelopes net
  <-> (exists target, (target, m) ∈ inflight net)
      \/ (exists k, (k, m) ∈ delivered net).
Proof.
  unfold envelopes. rewrite elem_of_app, !list_elem_of_fmap. split.
  - intros [([t m'] & -> & H)|([k m'] & -> & H)]; [left|right]; by eexists.
  - intros [[t H]|[k H]]; [left; by exists (t, m) | right; by exists (k, m)].
Qed.

(** Where the envelopes of the next state come from. *)
Inductive origin (net : Net) : Step -> Message.t -> Prop :=
| origin_old s m : m ∈ envelopes net -> origin net s m
| origin_recv i target m nd e :
    inflight net !! i = Some (target, m) ->
    nodes net !! NodeInfo.node_id target = Some nd ->
    e ∈ (node_handle nd m).2 ->
    origin net (Recv i) (effect_message e)
| origin_send id fresh_id now iv dest payload ty nd nd' effs ok enc :
    nodes net !! id = Some nd ->
    node_send nd fresh_id now iv dest payload ty = Some (nd', effs, ok) ->
    message_cache (node_base nd') = {[fresh_id]} ∪ message_cache (node_base nd) ->
    origin net (Send id fresh_id now iv dest payload ty)
      (Message.mk fresh_id (node_id (node_base nd)) dest enc now MAX_TTL ty
                  [node_id (node_base nd)]).

Lemma net_step_origin net s net' m :
  net_step net s = Some net' -> m ∈ envelopes net' -> origin net s m.
Proof.
  destruct s as [i|i|id fresh_id now iv dest payload ty|id known]; cbn.
  - destruct (inflight net !! i) as [[target m0]|] eqn:Hi; [|done]. cbn.
    destruct (nodes net !! NodeInfo.node_id target) as [nd|] eqn:Hn.
    + destruct (node_handle nd m0) as [nd' effs] eqn:Hh. intros [= <-].
      rewrite elem_of_envelopes. cbn.
      intros [[t [H|H]%elem_of_app]|[k [H|H]%elem_of_app]].
      * apply origin_old, elem_of_envelopes. left. exists t.
        eapply elem_of_sublist; [done|apply sublist_delete].
      * apply elem_of_frames_of in H.
        apply (origin_recv net i target m0 nd (Frame t m)); [done..|by rewrite Hh].
      * apply origin_old, elem_of_envelopes. right. by exists k.
      * apply elem_of_callbacks_of in H as [-> H].
        apply (origin_recv net i target m0 nd (Callback m)); [done..|by rewrite Hh].
    + intros [= <-]. rewrite elem_of_envelopes. cbn. intros [[t H]|[k H]].
      * apply origin_old, elem_of_envelopes. left. exists t.
        eapply elem_of_sublist; [done|apply sublist_delete].
      * apply origin_old, elem_of_envelopes. right. by exists k.
  - destruct (inflight net !! i) as [fr|] eqn:Hi; [|done]. cbn. intros [= <-].
    rewrite elem_of_envelopes. cbn. intros [[t H]|[k H]].
    + apply origin_old, elem_of_envelopes. left. exists t.
      eapply elem_of_sublist; [done|apply sublist_delete].
    + apply origin_old, elem_of_envelopes. right. by exists k.
  - destruct (nodes net !! id) as [nd|] eqn:Hn; [|done]. cbn.
    destruct (node_send nd fresh_id now iv dest payload ty) as [[[nd' effs] ok]|] eqn:Hs;
      [|done]. cbn. intros [= <-].
    rewrite elem_of_envelopes. cbn. intros [[t [H|H]%elem_of_app]|[k H]].
    + apply origin_old, elem_of_envelopes. left. by exists t.
    + apply elem_of_frames_of in H.
      pose proof Hs as Hs'.
      apply node_send_spec in Hs' as [_ [[-> _]|[Hc [enc He]]]].
      { by apply elem_of_nil in H. }
      specialize (He _ H). cbn in He. subst m.
      by eapply origin_send.
    + apply origin_old, elem_of_envelopes. right. by exists k.
  - destruct (nodes net !! id) as [nd|] eqn:Hn; [|done]. cbn. intros [= <-].
    intros H. apply origin_old. by rewrite elem_of_envelopes in *.
Qed.

Lemma net_step_nodes net s net' k :
  net_step net s = Some net' ->
  match nodes net !! k, nodes net' !! k with
  | Some nd, Some nd' =>
    node_id (node_base nd') = node_id (node_base nd)
    /\ message_cache (node_base nd) ⊆ message_cache (node_base nd')
  | None, None => True
  | _, _ => False
  end.
Proof.
  assert (forall id nd nd',
    nodes net !! id = Some nd ->
    node_id (node_base nd') = node_id (node_base nd) ->
    message_cache (node_base nd) ⊆ message_cache (node_base nd') ->
    match nodes net !! k, <[id := nd']> (nodes net) !! k with
    | Some nd, Some nd' =>
      node_id (node_base nd') = node_id (node_base nd)
      /\ message_cache (node_base nd) ⊆ message_cache (node_base nd')
    | None, None => True
    | _, _ => False
    end) as Hins.
  { intros id nd nd' Hn Hid Hc. destruct (decide (id = k)) as [->|Hne].
    - by rewrite lookup_insert_eq, Hn.
    - rewrite lookup_insert_ne by done. by destruct (nodes net !! k). }
  assert (match nodes net !! k, nodes net !! k with
    | Some nd, Some nd' =>
      node_id (node_base nd') = node_id (node_base nd)
      /\ message_cache (node_base nd) ⊆ message_cache (node_base nd')
    | None, None => True
    | _, _ => False
    end) as Hsame by (by destruct (nodes net !! k)).
  destruct s as [i|i|id fresh_id now iv dest payload ty|id known]; cbn.
  - destruct (inflight net !! i) as [[target m0]|]; [|done]. cbn.
    destruct (nodes net !! NodeInfo.node_id target) as [nd|] eqn:Hn.
    + destruct (node_handle_state nd m0) as [Hid Hc].
      destruct (node_handle nd m0) as [nd' effs]. intros [= <-]. cbn in *.
      apply (Hins _ nd nd'); [done..|].
      destruct Hc as [[_ Heq]|[_ Hc']].
      * by injection Heq as -> _.
      * rewrite Hc'. apply union_subseteq_r.
    + by intros [= <-].
  - destruct (inflight net !! i); [|done]. by intros [= <-].
  - destruct (nodes net !! id) as [nd|] eqn:Hn; [|done]. cbn.
    destruct (node_send nd fresh_id now iv dest payload ty) as [[[nd' effs] ok]|] eqn:Hs;
      [|done]. cbn. intros [= <-]. cbn.
    apply node_send_spec in Hs as [Hid Hc].
    apply (Hins _ nd nd'); [done..|].
    destruct Hc as [[_ Hc']|[Hc' _]]; rewrite Hc'; [done|apply union_subseteq_r].
  - destruct (nodes net !! id) as [nd|] eqn:Hn; [|done]. cbn. intros [= <-]. cbn.
    apply (Hins _ nd (node_set_known known nd)); [done|by destruct nd..].
Qed.

Lemma net_step_well_keyed net s net' :
  well_keyed net -> net_step net s = Some net' -> well_keyed net'.
Proof.
  intros Hwk Hs k nd' Hk. pose proof (net_step_nodes net s net' k Hs) as Hn.
  rewrite Hk in Hn. destruct (nodes net !! k) as [nd|] eqn:Hold; [|done].
  destruct Hn as [-> _]. by apply Hwk.
Qed.

Lemma net_step_seen net s net' n id :
  net_step net s = Some net' -> seen net n id -> seen net' n id.
Proof.
  intros Hs (nd & Hn & Hin). pose proof (net_step_nodes net s net' n Hs) as Hm.
  rewrite Hn in Hm. destruct (nodes net' !! n) as [nd'|] eqn:Hn'; [|done].
  exists nd'. split; [done|]. destruct Hm as [_ Hsub]. set_solver.
Qed.

Lemma net_step_recv_seen net i net' target m nd e :
  net_step net (Recv i) = Some net' ->
  inflight net !! i = Some (target, m) ->
  nodes net !! NodeInfo.node_id target = Some nd ->
  e ∈ (node_handle nd m).2 ->
  seen net' (NodeInfo.node_id target) (msg_id m).
Proof.
  cbn. intros Hs Hi Hn He. rewrite Hi in Hs. cbn in Hs. rewrite Hn in Hs.
  destruct (node_handle_state nd m) as [_ Hc].
  destruct (node_handle nd m) as [nd' effs] eqn:Hh. injection Hs as <-.
  exists nd'. cbn. rewrite lookup_insert_eq. split; [done|].
  destruct Hc as [[_ Heq]|[_ Hc']].
  - injection Heq as _ Heffs. rewrite Heffs in He. by apply elem_of_nil in He.
  - cbn in Hc'. rewrite Hc'. by apply elem_of_union_l, elem_of_singleton.
Qed.

Lemma net_step_send_seen net id fresh_id now iv dest payload ty net' nd nd' effs ok :
  net_step net (Send id fresh_id now iv dest payload ty) = Some net' ->
  nodes net !! id = Some nd ->
  node_send nd fresh_id now iv dest payload ty = Some (nd', effs, ok) ->
  message_cache (node_base nd') = {[fresh_id]} ∪ message_cache (node_base nd) ->
  seen net' id fresh_id.
Proof.
  cbn. intros Hs Hn Hsend Hc. rewrite Hn in Hs. cbn in Hs. rewrite Hsend in Hs.
  cbn in Hs. injection Hs as <-. exists nd'. cbn. rewrite lookup_insert_eq.
  split; [done|]. rewrite Hc. by apply elem_of_union_l, elem_of_singleton.
Qed.

Lemma net_step_route_ok net s net' :
  well_keyed net ->
  (forall m, m ∈ envelopes net -> route_ok net m) ->
  net_step net s = Some net' ->
  forall m, m ∈ envelopes net' -> route_ok net' m.
Proof.
  intros Hwk Hinv Hs m Hm.
  destruct (net_step_origin net s net' m Hs Hm)
    as [s m Hold|i target m nd e Hi Hn He
        |id fresh_id now iv dest payload ty nd nd' effs ok enc Hn Hsend Hc].
  - destruct (Hinv m Hold) as (Hhd & Hnd & Hseen).
    split; [done|]. split; [done|].
    intros n Hin. by eapply net_step_seen, Hseen.
  - assert (m ∈ envelopes net) as Hold.
    { apply elem_of_envelopes. left. exists target.
      by eapply list_elem_of_lookup_2. }
    destruct (Hinv m Hold) as (Hhd & Hnd & Hseen).
    pose proof (net_step_recv_seen _ _ _ _ _ _ _ Hs Hi Hn He) as Hnew.
    apply node_handle_handled in He as [Hfresh Hh].
    rewrite (Hwk _ _ Hn) in Hh.
    destruct (handled_fields _ _ _ Hh) as (Hid & Hsrc & _ & Hroute).
    unfold route_ok. rewrite Hid, Hsrc, Hroute.
    split; [|split].
    + destruct (route m); [done|]. exact Hhd.
    + apply NoDup_app. split; [done|]. split; [|apply NoDup_singleton].
      intros n Hin ->%list_elem_of_singleton.
      destruct (Hseen _ Hin) as (nd0 & Hn0 & Hc0). by simplify_eq.
    + intros n [Hin | ->%list_elem_of_singleton]%elem_of_app; [|done].
      by eapply net_step_seen, Hseen.
  - unfold route_ok. cbn [route source_id msg_id].
    split; [done|]. split; [apply NoDup_singleton|].
    intros n ->%list_elem_of_singleton. rewrite (Hwk _ _ Hn).
    by eapply net_step_send_seen.
Qed.

Lemma net_step_ttl_ok net s net' :
  (forall m, m ∈ envelopes net -> ttl_ok m) ->
  net_step net s = Some net' ->
  forall m, m ∈ envelopes net' -> ttl_ok m.
Proof.
  intros Hinv Hs m Hm.
  destruct (net_step_origin net s net' m Hs Hm)
    as [s m Hold|i target m nd e Hi Hn He
        |id fresh_id now iv dest payload ty nd nd' effs ok enc Hn Hsend Hc].
  - by apply Hinv.
  - assert (ttl_ok m) as Hok.
    { apply Hinv, elem_of_envelopes. left. exists target.
      by eapply list_elem_of_lookup_2. }
    apply node_handle_handled in He as [_ Hh].
    pose proof (handled_ttl _ _ _ Hh) as Ht.
    unfold ttl_ok in *. destruct e; cbn in *; lia.
  - unfold ttl_ok, MAX_TTL. cbn. lia.
Qed.

Lemma run_invariants net0 steps net :
  run net0 steps = Some net ->
  (forall m, m ∈ envelopes net0 -> ttl_ok m) ->
  (forall m, m ∈ envelopes net -> ttl_ok m)
  /\ (well_keyed net0 ->
      (forall m, m ∈ envelopes net0 -> route_ok net0 m) ->
      well_keyed net /\ forall m, m ∈ envelopes net -> route_ok net m).
Proof.
  revert net0. induction steps as [|s steps IH]; intros net0; cbn.
  - intros [= <-]. by split.
  - destruct (net_step net0 s) as [net1|] eqn:Hs; [|done]. cbn.
    intros Hrun Httl.
    destruct (IH net1 Hrun (net_step_ttl_ok _ _ _ Httl Hs)) as [Ht Hr].
    split; [done|]. intros Hwk Hroute. apply Hr.
    + by eapply net_step_well_keyed.
    + by eapply net_step_route_ok.
Qed.

Lemma quiet_envelopes net m : quiet net -> m ∈ envelopes net -> False.
Proof.
  intros [Hi Hd]. unfold envelopes. rewrite Hi, Hd. cbn. apply not_elem_of_nil.
Qed.

(** One receive step: [m'] is what some node hands to its callbacks, to
    the forwarder or to the wire when its handler reads [m]. *)
Definition hop (m m' : Message.t) : Prop :=
  exists nd e, e ∈ (node_handle nd m).2 /\ m' = effect_message e.

Lemma hop_ttl m m' : hop m m' -> ttl m - 1 <= ttl m' <= ttl m /\ (0 <= ttl m -> 0 <= ttl m').
Proof.
  intros (nd & e & He & ->). apply node_handle_handled in He as [_ Hh].
  pose proof (handled_ttl _ _ _ Hh). destruct e; cbn in *; lia.
Qed.

Lemma hops_ttl m m' : rtc hop m m' -> ttl m' <= ttl m /\ (0 <= ttl m -> 0 <= ttl m').
Proof.
  induction 1 as [m|m m1 m2 H1 _ IH]; [lia|].
  apply hop_ttl in H1. lia.
Qed.

Lemma recv_grows_route net target m nd e :
  well_keyed net ->
  route_ok net m ->
  nodes net !! NodeInfo.node_id target = Some nd ->
  e ∈ (node_handle nd m).2 ->
  route (effect_message e) = (route m ++ [node_id (node_base nd)])%list
  /\ head (route (effect_message e)) = Some (source_id (effect_message e))
  /\ NoDup (route (effect_message e)).
Proof.
  intros Hwk (Hhd & Hnd & Hseen) Hn He.
  apply node_handle_handled in He as [Hfresh Hh].
  destruct (handled_fields _ _ _ Hh) as (Hid & Hsrc & _ & Hroute).
  rewrite Hsrc, Hroute. split; [done|]. split.
  - destruct (route m); [done|]. exact Hhd.
  - apply NoDup_app. split; [done|]. split; [|apply NoDup_singleton].
    intros n Hin ->%list_elem_of_singleton.
    destruct (Hseen _ Hin) as (nd0 & Hn0 & Hc0).
    rewrite (Hwk _ _ Hn) in Hn0. by simplify_eq.
Qed.

Lemma verified_admits tm source d orig signer :
  verify_signature d = Some (orig, signer) ->
  exists tm', admit_sender tm source d = Some tm'.
Proof.
  unfold verify_signature, Auth.verify_signature, admit_sender.
  destruct (json_loads_blob d) as [sb|]; [|done]. intros _. cbn.
  destruct (Trust.is_trusted tm source 0); [by eexists|].
  case_bool_decide; by eexists.
Qed.

(** ** Properties of the message path *)

(** C1 (as the code has it): an envelope addressed to [broadcast] is handed
    to the delivery callbacks and to nothing else.  Whatever the handler
    does with it is a [Callback] on the envelope with the local id appended
    to the route and the TTL untouched; a node that has not seen it and can
    decrypt it (and, with authentication on, verifies it against its
    source) does invoke the callbacks; and reading a broadcast frame never
    puts a new frame in flight. *)
Theorem broadcast_delivered_not_relayed (nd : Node) (m : Message.t) :
  dest_id m = "broadcast" ->
  (forall e, e ∈ (node_handle nd m).2 ->
     exists p, e = Callback (route_append (node_id (node_base nd)) (set_payload p m))
               /\ ttl (effect_message e) = ttl m)
  /\ (forall d, (msg_id m ∉ message_cache (node_base nd)) ->
        decrypt (payload m) = Some d ->
        match nd with
        | PlainNode st =>
          (node_handle nd m).2
          = [Callback (route_append (node_id st) (set_payload d m))]
        | SecureNode st =>
          if enable_auth st then
            forall orig, verify_signature d = Some (orig, source_id m) ->
              (node_handle nd m).2
              = [Callback (route_append (node_id (base st)) (set_payload orig m))]
          else
            (node_handle nd m).2
            = [Callback (route_append (node_id (base st)) (set_payload d m))]
        end)
  /\ (forall net i target net',
        inflight net !! i = Some (target, m) ->
        nodes net !! NodeInfo.node_id target = Some nd ->
        net_step net (Recv i) = Some net' ->
        inflight net' = delete i (inflight net)).
Proof.
  intros Hdest.
  assert (forall e, e ∈ (node_handle nd m).2 ->
     exists p, e = Callback (route_append (node_id (node_base nd)) (set_payload p m))
               /\ ttl (effect_message e) = ttl m) as Hcb.
  { intros e [_ Hh]%node_handle_handled.
    destruct Hh as [p _|p _ Hne _|p t _ Hne _]; [by exists p|done..]. }
  split; [exact Hcb|]. split.
  - intros d Hfresh Hdec. destruct nd as [st|st]; cbn in *.
    + unfold handle_client. rewrite decide_False by done. rewrite Hdec. cbn.
      unfold deliver_or_relay. cbn. rewrite Hdest.
      by rewrite (bool_decide_eq_true_2 ("broadcast" = "broadcast")), orb_true_r.
    + unfold secure_handle_client. rewrite decide_False by done. rewrite Hdec.
      cbn [enable_auth with_base].
      destruct (enable_auth st) eqn:Hauth.
      * intros orig Hver. rewrite Hver.
        rewrite bool_decide_eq_false_2 by (intros Hne; by apply Hne).
        destruct (verified_admits
                    (Trust.update_trust_score (trust_manager st) (source_id m) 1)
                    (source_id m) d orig (source_id m) Hver) as [tm' Hadm].
        cbn [trust_manager with_trust with_base base]. rewrite Hadm. cbn.
        unfold secure_deliver_or_relay. cbn. rewrite Hdest.
        by rewrite (bool_decide_eq_true_2 ("broadcast" = "broadcast")), orb_true_r.
      * cbn. unfold secure_deliver_or_relay. cbn. rewrite Hdest.
        by rewrite (bool_decide_eq_true_2 ("broadcast" = "broadcast")), orb_true_r.
  - intros net i target net' Hi Hn. cbn. rewrite Hi. cbn. rewrite Hn.
    destruct (node_handle nd m) as [nd' effs] eqn:Hh. intros [= <-]. cbn.
    assert (frames_of effs = []) as ->; [|by rewrite app_nil_r].
    apply elem_of_nil_inv. intros [t m'] Hin%elem_of_frames_of.
    destruct (Hcb (Frame t m') Hin) as (p & Hp & _). done.
Qed.

(** C3: along every run that starts with nothing in flight, each envelope on
    the wire or handed to callbacks has [0 <= ttl <= MAX_TTL]; each receive
    step leaves the TTL alone when it delivers and lowers it by exactly one,
    from a positive value, when it forwards, so nothing is delivered or
    forwarded below zero; and along any chain of receive steps the TTL never
    increases. *)
Theorem ttl_monotone_nonnegative (net0 : Net) (steps : list Step) (net : Net) :
  quiet net0 ->
  run net0 steps = Some net ->
  (forall m, m ∈ envelopes net -> 0 <= ttl m <= MAX_TTL)
  /\ (forall target m nd e,
        (target, m) ∈ inflight net ->
        e ∈ (node_handle nd m).2 ->
        0 <= ttl (effect_message e) <= ttl m
        /\ match e with
           | Callback m' => ttl m' = ttl m
           | ForwardCall m' | Frame _ m' => 0 < ttl m /\ ttl m' = ttl m - 1
           end)
  /\ (forall m m', rtc hop m m' ->
        ttl m' <= ttl m /\ (0 <= ttl m -> 0 <= ttl m')).
Proof.
  intros Hq Hrun.
  destruct (run_invariants net0 steps net Hrun) as [Httl _].
  { intros m Hm. by destruct (quiet_envelopes net0 m). }
  split; [exact Httl|]. split; [|exact hops_ttl].
  intros target m nd e Hin He.
  assert (ttl_ok m) as Hok.
  { apply Httl, elem_of_envelopes. left. by exists target. }
  apply node_handle_handled in He as [_ Hh].
  pose proof (handled_ttl _ _ _ Hh) as Ht.
  unfold ttl_ok in Hok. split; [|exact Ht].
  destruct e; cbn in *; lia.
Qed.

(** C4: along every run of a well-keyed network that starts with nothing in
    flight, every envelope on the wire or handed to callbacks has a route
    that starts with its source and repeats no id; a receive step extends
    the route by exactly the id of the receiving node; and [send_message]
    starts the route as the one-element list of the sender, who is the
    source. *)
Theorem route_source_first_distinct (net0 : Net) (steps : list Step) (net : Net) :
  well_keyed net0 ->
  quiet net0 ->
  run net0 steps = Some net ->
  (forall m, m ∈ envelopes net ->
     head (route m) = Some (source_id m) /\ NoDup (route m))
  /\ (forall target m nd e,
        (target, m) ∈ inflight net ->
        nodes net !! NodeInfo.node_id target = Some nd ->
        e ∈ (node_handle nd m).2 ->
        route (effect_message e) = (route m ++ [node_id (node_base nd)])%list
        /\ head (route (effect_message e)) = Some (source_id (effect_message e))
        /\ NoDup (route (effect_message e)))
  /\ (forall nd fresh_id now iv dest payload ty nd' effs ok e,
        node_send nd fresh_id now iv dest payload ty = Some (nd', effs, ok) ->
        e ∈ effs ->
        route (effect_message e) = [node_id (node_base nd)]
        /\ source_id (effect_message e) = node_id (node_base nd)
        /\ ttl (effect_message e) = MAX_TTL).
Proof.
  intros Hwk Hq Hrun.
  destruct (run_invariants net0 steps net Hrun) as [_ Hr].
  { intros m Hm. by destruct (quiet_envelopes net0 m). }
  destruct Hr as [Hwk' Hroute]; [done| |].
  { intros m Hm. by destruct (quiet_envelopes net0 m). }
  split; [|split].
  - intros m Hm. destruct (Hroute m Hm) as (? & ? & _). by split.
  - intros target m nd e Hin Hn He.
    apply (recv_grows_route net target m nd e); [done| |done..].
    apply Hroute, elem_of_envelopes. left. by exists target.
  - intros nd fresh_id now iv dest payload ty nd' effs ok e Hs He.
    apply node_send_spec in Hs as [_ [[-> _]|[_ [enc Hm]]]].
    + by apply elem_of_nil in He.
    + by rewrite (Hm e He).
Qed.

(** C5: when a secure node with authentication on handles an envelope it
    has not seen, that decrypts to a blob whose signature verifies and whose
    signer is the envelope's source, and the source is not yet in
    [trusted_nodes], then afterwards the source is in [trusted_nodes] with
    the public key carried in the blob and its trust score is exactly 50. *)
Theorem first_verified_message_admits_sender
    (st : SecureMeshNode) (m : Message.t) (d : string) (sb : Auth.SignedBlob) :
  (forall msg sig, dss_verify "" msg sig = false) ->
  enable_auth st = true ->
  (msg_id m ∉ message_cache (base st)) ->
  decrypt (payload m) = Some d ->
  json_loads_blob d = Some sb ->
  dss_verify (Auth.public_key sb) (Auth.message sb) (Auth.signature sb) = true ->
  Auth.signer_id sb = source_id m ->
  (source_id m ∉ dom (Trust.trusted_nodes (trust_manager st))) ->
  let st' := (secure_handle_client st m).1 in
  Trust.trusted_nodes (trust_manager st') !! source_id m = Some (Auth.public_key sb)
  /\ Trust.score_of (trust_manager st') (source_id m) = Some 50.
Proof.
  intros Hempty Hauth Hfresh Hdec Hjson Hsig Hsigner Hnew.
  assert (Auth.public_key sb ≠ "") as Hpk.
  { intros Heq. rewrite Heq, Hempty in Hsig. done. }
  cbn zeta. unfold secure_handle_client. rewrite decide_False by done.
  rewrite Hdec. cbn [enable_auth with_base]. rewrite Hauth.
  unfold verify_signature, Auth.verify_signature. rewrite Hjson, Hsig, Hsigner.
  rewrite bool_decide_eq_false_2 by (intros Hne; by apply Hne).
  cbn [trust_manager with_trust with_base].
  unfold admit_sender.
  rewrite Trust.is_trusted_not_admitted by done.
  rewrite Hjson. cbn [mbind option_bind].
  rewrite bool_decide_eq_true_2 by done. cbn.
  unfold Trust.score_of. cbn. by rewrite !lookup_insert_eq.
Qed.

(** C9: updating the score of an id that has none starts from 50, so the
    result is [clamp(50 + delta)]; in particular a secure node that receives
    an envelope whose signature does not verify, from a source it holds no
    score for, leaves that source with score 30 and delivers nothing. *)
Theorem absent_score_starts_at_50
    (st : SecureMeshNode) (m : Message.t) (d : string) (delta : Z) :
  Trust.score_of (trust_manager st) (source_id m) = None ->
  enable_auth st = true ->
  (msg_id m ∉ message_cache (base st)) ->
  decrypt (payload m) = Some d ->
  verify_signature d = None ->
  Trust.score_of (Trust.update_trust_score (trust_manager st) (source_id m) delta)
                 (source_id m)
  = Some (Z.max 0 (Z.min 100 (50 + delta)))
  /\ Trust.score_of (trust_manager (secure_handle_client st m).1) (source_id m)
     = Some 30
  /\ (secure_handle_client st m).2 = [].
Proof.
  intros Hnone Hauth Hfresh Hdec Hver. split.
  - by rewrite Trust.update_trust_score_lookup, Hnone.
  - unfold secure_handle_client. rewrite decide_False by done.
    rewrite Hdec. cbn [enable_auth with_base]. rewrite Hauth, Hver.
    cbn [fst snd trust_manager with_trust with_base base]. split; [|done].
    by rewrite Trust.update_trust_score_lookup, Hnone.
Qed.

(** C10: [is_trusted(id, min_score)] holds exactly when [id] is a key of
    [trusted_nodes] and its score (0 when missing) is at least [min_score];
    [update_trust_score] never touches [trusted_nodes], so an id outside
    [trusted_nodes] stays untrusted under any sequence of score updates
    whatever score it reaches; and a secure node with authentication on
    relays only for a source that is in [trusted_nodes] with score at
    least 20. *)
Theorem trust_needs_admission
    (tm : Trust.TrustManager) (id : string) (min_score : Z) (deltas : list Z)
    (st : SecureMeshNode) (m : Message.t) :
  (Trust.is_trusted tm id min_score = true
   <-> id ∈ dom (Trust.trusted_nodes tm)
       /\ min_score <= default 0 (Trust.score_of tm id))
  /\ Trust.trusted_nodes
       (foldl (λ t delta, Trust.update_trust_score t id delta) tm deltas)
     = Trust.trusted_nodes tm
  /\ ((id ∉ dom (Trust.trusted_nodes tm)) ->
      Trust.is_trusted
        (foldl (λ t delta, Trust.update_trust_score t id delta) tm deltas)
        id min_score = false)
  /\ (enable_auth st = true ->
      forall e, e ∈ (secure_handle_client st m).2 ->
        match e with
        | Callback _ => True
        | ForwardCall m' | Frame _ m' =>
          source_id m ∈ dom (Trust.trusted_nodes (trust_manager (secure_handle_client st m).1))
          /\ 20 <= default 0 (Trust.score_of (trust_manager (secure_handle_client st m).1)
                                             (source_id m))
        end).
Proof.
  assert (forall ds t,
    Trust.trusted_nodes (foldl (λ t delta, Trust.update_trust_score t id delta) t ds)
    = Trust.trusted_nodes t) as Hfold.
  { induction ds as [|delta ds IH]; intros t; cbn; [done|]. by rewrite IH. }
  split; [apply Trust.is_trusted_spec|]. split; [apply Hfold|]. split.
  - intros Hnot. apply Trust.is_trusted_not_admitted. by rewrite Hfold.
  - intros Hauth e. unfold secure_handle_client. case_decide.
    { intros []%elem_of_nil. }
    destruct (decrypt (payload m)) as [d|]; [|intros []%elem_of_nil].
    cbn [enable_auth with_base]. rewrite Hauth.
    destruct (verify_signature d) as [[orig signer]|]; [|intros []%elem_of_nil].
    case_bool_decide; [intros []%elem_of_nil|].
    destruct (admit_sender _ _ _) as [tm'|]; [|intros []%elem_of_nil].
    cbn [fst snd]. unfold secure_deliver_or_relay.
    cbn [dest_id ttl source_id route_append set_payload ttl_decrement
         enable_auth trust_manager with_trust with_base base].
    destruct (_ || _); [by intros ->%list_elem_of_singleton|].
    destruct (0 <? ttl m); [|intros []%elem_of_nil].
    rewrite Hauth. cbn [andb].
    destruct (Trust.is_trusted tm' (source_id m) 20) eqn:Htr; cbn [negb];
      [|intros []%elem_of_nil].
    apply Trust.is_trusted_spec in Htr.
    intros [->|He]%elem_of_cons; [done|].
    by apply _forward_message_effects in He as (t & -> & _).
Qed.

(** ** More about sending and receiving *)

Lemma node_handle_seen nd m :
  msg_id m ∈ message_cache (node_base nd) -> node_handle nd m = (nd, []).
Proof.
  intros Hin. destruct nd as [n|n]; cbn in *.
  - unfold handle_client. by rewrite decide_True.
  - unfold secure_handle_client. by rewrite decide_True.
Qed.

(** X7: Duplicate suppression: once a node has handled an envelope, whatever
    became of it, every later envelope with the same [msg_id] -- whatever
    else it contains -- is dropped without a trace in the node or outside. *)
Theorem second_receipt_is_dropped (nd : Node) (m m' : Message.t) :
  msg_id m' = msg_id m ->
  node_handle (node_handle nd m).1 m' = ((node_handle nd m).1, []).
Proof.
  intros Hid. apply node_handle_seen. rewrite Hid.
  destruct (node_handle_state nd m) as [_ [[Hin ->]|[_ ->]]]; [done|].
  by apply elem_of_union_l, elem_of_singleton.
Qed.

(** X8: The originator never handles its own envelope: after a [send_message]
    that got as far as building the envelope, the sender drops every
    envelope that comes in under the id it has just used. *)
Theorem own_message_is_dropped
    (nd : Node) (fresh_id : string) (now : Q) (iv : list byte)
    (dest payload ty : string) (nd' : Node) (effs : list Effect) (ok : bool)
    (e : Effect) (m : Message.t) :
  node_send nd fresh_id now iv dest payload ty = Some (nd', effs, ok) ->
  e ∈ effs ->
  msg_id m = fresh_id ->
  node_handle nd' m = (nd', []).
Proof.
  intros Hs He Hid. apply node_handle_seen.
  apply node_send_spec in Hs as [_ [[-> _]|[-> _]]].
  - by apply elem_of_nil in He.
  - rewrite Hid. by apply elem_of_union_l, elem_of_singleton.
Qed.

(** Whatever a handler hands to callbacks, to the forwarder or to the wire
    carries the id of the envelope that came in, and at that moment the id
    is in the node's duplicate cache, where it was not before. *)
Theorem effect_implies_cached (nd : Node) (m : Message.t) (e : Effect) :
  e ∈ (node_handle nd m).2 ->
  msg_id (effect_message e) = msg_id m
  /\ msg_id m ∈ message_cache (node_base (node_handle nd m).1)
  /\ (msg_id m ∉ message_cache (node_base nd)).
Proof.
  intros He. pose proof He as [Hfresh Hh]%node_handle_handled.
  destruct (handled_fields _ _ _ Hh) as (Hid & _).
  split; [done|]. split; [|done].
  destruct (node_handle_state nd m) as [_ [[Hin _]|[_ ->]]]; [done|].
  by apply elem_of_union_l, elem_of_singleton.
Qed.

Lemma deliver_or_relay_payload st m1 e :
  e ∈ deliver_or_relay st m1 -> payload (effect_message e) = payload m1.
Proof.
  unfold deliver_or_relay. destruct (_ || _).
  { by intros ->%list_elem_of_singleton. }
  destruct (0 <? ttl m1); [|by intros ?%elem_of_nil].
  intros [->|He]%elem_of_cons; [done|].
  by apply _forward_message_effects in He as (t & -> & _).
Qed.

Lemma secure_deliver_or_relay_payload st m1 e :
  e ∈ secure_deliver_or_relay st m1 -> payload (effect_message e) = payload m1.
Proof.
  unfold secure_deliver_or_relay. destruct (_ || _).
  { by intros ->%list_elem_of_singleton. }
  destruct (0 <? ttl m1); [|by intros ?%elem_of_nil].
  destruct (enable_auth st && _); [by intros ?%elem_of_nil|].
  intros [->|He]%elem_of_cons; [done|].
  by apply _forward_message_effects in He as (t & -> & _).
Qed.

Lemma handle_client_cleartext (st : MeshNode) (m : Message.t) (e : Effect) :
  e ∈ (handle_client st m).2 ->
  exists d, decrypt (payload m) = Some d /\ payload (effect_message e) = d.
Proof.
  destruct (handle_client st m) as [st' effs] eqn:Hh. cbn. intros He.
  unfold handle_client in Hh.
  case_decide; [injection Hh as <- <-; by apply elem_of_nil in He|].
  destruct (decrypt (payload m)) as [d|];
    [|injection Hh as <- <-; by apply elem_of_nil in He].
  injection Hh as <- <-. exists d. split; [done|].
  by apply deliver_or_relay_payload in He.
Qed.

Lemma secure_handle_client_cleartext
    (st : SecureMeshNode) (m : Message.t) (e : Effect) :
  e ∈ (secure_handle_client st m).2 ->
  exists d,
    decrypt (payload m) = Some d
    /\ if enable_auth st
       then verify_signature d = Some (payload (effect_message e), source_id m)
       else payload (effect_message e) = d.
Proof.
  destruct (secure_handle_client st m) as [st' effs] eqn:Hh. cbn. intros He.
  unfold secure_handle_client in Hh.
  case_decide; [injection Hh as <- <-; by apply elem_of_nil in He|].
  destruct (decrypt (payload m)) as [d|];
    [|injection Hh as <- <-; by apply elem_of_nil in He].
  exists d. split; [done|]. cbn [enable_auth with_base] in Hh.
  destruct (enable_auth st).
  - destruct (verify_signature d) as [[orig signer]|];
      [|injection Hh as <- <-; by apply elem_of_nil in He].
    case_bool_decide as Hsig; [injection Hh as <- <-; by apply elem_of_nil in He|].
    subst signer.
    destruct (admit_sender _ _ _) as [tm|];
      [|injection Hh as <- <-; by apply elem_of_nil in He].
    injection Hh as <- <-.
    apply secure_deliver_or_relay_payload in He. cbn in He. by rewrite He.
  - injection Hh as <- <-.
    by apply secure_deliver_or_relay_payload in He.
Qed.

(** X9: What leaves a handler is never the payload that came in but what the
    node made of it: the decryption of the payload for a plain node or with
    authentication off, and with authentication on the message of a blob
    whose signature verified and whose signer is the envelope's source.
    This holds for relayed frames as for delivered envelopes. *)
Theorem effects_carry_cleartext (nd : Node) (m : Message.t) (e : Effect) :
  e ∈ (node_handle nd m).2 ->
  exists d,
    decrypt (payload m) = Some d
    /\ match nd with
       | PlainNode _ => payload (effect_message e) = d
       | SecureNode st =>
         if enable_auth st
         then verify_signature d = Some (payload (effect_message e), source_id m)
         else payload (effect_message e) = d
       end.
Proof.
  destruct nd as [st|st]; cbn.
  - intros He. apply (handle_client_cleartext st).
    by destruct (handle_client st m).
  - intros He. apply (secure_handle_client_cleartext st).
    by destruct (secure_handle_client st m).
Qed.

(** X10: A relayed frame gets past the next node only if the cleartext it
    carries decrypts a second time: the payload on the second link is what
    the first relay obtained by decrypting, and the second node hands
    nothing on unless [decrypt] accepts that as a ciphertext. *)
Theorem second_hop_needs_double_decryption
    (st st2 : MeshNode) (m : Message.t) (target : NodeInfo.t) (m' : Message.t)
    (e2 : Effect) :
  Frame target m' ∈ (handle_client st m).2 ->
  e2 ∈ (handle_client st2 m').2 ->
  exists d d2,
    decrypt (payload m) = Some d /\ payload m' = d /\ decrypt d = Some d2
    /\ payload (effect_message e2) = d2.
Proof.
  intros H1 H2.
  destruct (handle_client_cleartext st m _ H1) as (d & Hd & Hp).
  destruct (handle_client_cleartext st2 m' _ H2) as (d2 & Hd2 & Hp2).
  cbn in Hp. subst d. by exists (payload m'), d2.
Qed.

(** X11: [_forward_message] tries exactly one neighbour, the first in the table
    whose id is not on the route: it writes one frame to it and returns
    [True] if the connection succeeds, and otherwise writes nothing and
    returns [False] without trying any other neighbour. *)
Theorem _forward_message_first_available
    (st : MeshNode) (m : Message.t) (before after : list NodeInfo.t)
    (target : NodeInfo.t) :
  known_nodes st = (before ++ target :: after)%list ->
  (forall n, n ∈ before -> NodeInfo.node_id n ∈ route m) ->
  (NodeInfo.node_id target ∉ route m) ->
  _forward_message st m
  = if connect_ok target then ([Frame target m], true) else ([], false).
Proof.
  intros Hk Hb Ht. unfold _forward_message. rewrite Hk.
  assert (filter (λ n, NodeInfo.node_id n ∉ route m) (before ++ target :: after)%list
          = target :: filter (λ n, NodeInfo.node_id n ∉ route m) after) as ->.
  { rewrite filter_app, filter_cons_True by done.
    assert (filter (λ n, NodeInfo.node_id n ∉ route m) before = []) as ->; [|done].
    apply elem_of_nil_inv. intros n [Hn Hin]%list_elem_of_filter.
    by apply Hn, Hb. }
  by destruct before.
Qed.

(** With no neighbour, or with every neighbour already on the route,
    [_forward_message] writes nothing and returns [False]. *)
Theorem _forward_message_nowhere (st : MeshNode) (m : Message.t) :
  (forall n, n ∈ known_nodes st -> NodeInfo.node_id n ∈ route m) ->
  _forward_message st m = ([], false).
Proof.
  intros Hall. unfold _forward_message.
  destruct (known_nodes st) as [|n ns] eqn:Hk; [done|].
  assert (filter (λ n, NodeInfo.node_id n ∉ route m) (n :: ns) = []) as ->; [|done].
  apply elem_of_nil_inv. intros n' [Hn Hin]%list_elem_of_filter.
  by apply Hn, Hall.
Qed.

Lemma broadcast_loop_spec ns m :
  broadcast_loop ns m
  = ((λ n, Frame n m) <$> filter (λ n, connect_ok n = true) ns,
     Z.of_nat (length (filter (λ n, connect_ok n = true) ns))).
Proof.
  induction ns as [|n ns IH]; [done|]. cbn [broadcast_loop]. rewrite IH.
  unfold _send_to_node. destruct (connect_ok n) eqn:Hc.
  - rewrite filter_cons_True by done. cbn. f_equal. lia.
  - rewrite filter_cons_False by (by rewrite Hc). done.
Qed.

Lemma existsb_connect_ok ns :
  existsb connect_ok ns = true <-> filter (λ n, connect_ok n = true) ns ≠ [].
Proof.
  induction ns as [|n ns IH]; [done|]. cbn [existsb].
  destruct (connect_ok n) eqn:Hc.
  - by rewrite filter_cons_True.
  - rewrite filter_cons_False by (by rewrite Hc). exact IH.
Qed.

(** X12: [_broadcast_message] writes one frame to every neighbour whose
    connection succeeds, in table order and whether or not the neighbour is
    on the route, and returns [True] exactly when some connection
    succeeded. *)
Theorem _broadcast_message_all_neighbours (st : MeshNode) (m : Message.t) :
  _broadcast_message st m
  = ((λ n, Frame n m) <$> filter (λ n, connect_ok n = true) (known_nodes st),
     existsb connect_ok (known_nodes st)).
Proof.
  unfold _broadcast_message. rewrite broadcast_loop_spec. f_equal.
  pose proof (existsb_connect_ok (known_nodes st)) as Hex.
  destruct (filter (λ n, connect_ok n = true) (known_nodes st)) as [|n ns].
  - cbn. destruct (existsb connect_ok (known_nodes st)); [|done].
    by destruct (proj1 Hex eq_refl).
  - assert ((0 <? Z.of_nat (length (n :: ns))) = true) as ->
      by (apply Z.ltb_lt; cbn; lia).
    symmetry. by apply Hex.
Qed.

Lemma frames_of_fmap_frame (ns : list NodeInfo.t) (m : Message.t) :
  frames_of ((λ n, Frame n m) <$> ns) = (λ n, (n, m)) <$> ns.
Proof. induction ns as [|n ns IH]; [done|]. cbn. by rewrite <- IH. Qed.

(** X13: The value [send_message] returns tells the truth about the wire: it is
    [True] exactly when at least one frame was written, and every frame
    written carries the same fresh envelope, with the sender as source and
    only entry of the route and [ttl = MAX_TTL]. *)
Theorem send_message_reports_frames
    (st : MeshNode) (fresh_id : string) (now : Q) (iv : list byte)
    (dest payload ty : string) :
  let '(st', effs, ok) := send_message st fresh_id now iv dest payload ty in
  (ok = true <-> frames_of effs ≠ [])
  /\ (forall target m, (target, m) ∈ frames_of effs ->
        exists enc, encrypt iv payload = Some enc
          /\ m = Message.mk fresh_id (node_id st) dest enc now MAX_TTL ty [node_id st]).
Proof.
  destruct (send_message st fresh_id now iv dest payload ty) as [[st' effs] ok] eqn:Hs.
  split.
  - unfold send_message in Hs. destruct (encrypt iv payload) as [enc|].
    2:{ injection Hs as <- <- <-. done. }
    unfold dispatch_new in Hs. cbn in Hs. case_bool_decide.
    + unfold _broadcast_message in Hs. rewrite broadcast_loop_spec in Hs.
      injection Hs as <- <- <-. rewrite frames_of_fmap_frame.
      cbn [known_nodes cache_add].
      destruct (filter _ _) as [|n ns]; [done|]. cbn [length fmap list_fmap].
      split; [done|]. intros _. apply Z.ltb_lt. lia.
    + destruct (_forward_message _ _) as [effs0 ok0] eqn:Hf. injection Hs as <- <- <-.
      unfold _forward_message in Hf. cbn in Hf.
      destruct (known_nodes st) as [|n ns]; [by injection Hf as <- <-|].
      destruct (filter _ (n :: ns)) as [|t ts]; [by injection Hf as <- <-|].
      unfold _send_to_node in Hf.
      destruct (connect_ok t); by injection Hf as <- <-.
  - intros target m Hin%elem_of_frames_of.
    apply send_message_spec in Hs as [[_ ->]|[_ (enc & Henc & He)]].
    + by apply elem_of_nil in Hin.
    + exists enc. split; [done|]. apply (He _ Hin).
Qed.

(** ** More about the secure node *)

(** X14: With authentication switched off a [SecureMeshNode] handles an envelope
    exactly as a [MeshNode] does, and leaves its trust ledger alone. *)
Theorem secure_without_auth_is_plain (st : SecureMeshNode) (m : Message.t) :
  enable_auth st = false ->
  secure_handle_client st m
  = (with_base (handle_client (base st) m).1 st, (handle_client (base st) m).2).
Proof.
  intros Hauth. unfold secure_handle_client, handle_client.
  destruct st as [b auth tm]. cbn in *. subst auth.
  case_decide; [done|].
  destruct (decrypt (payload m)) as [d|]; [|done]. cbn.
  unfold secure_deliver_or_relay, deliver_or_relay. cbn.
  by destruct (_ || _), (0 <? ttl m).
Qed.

(** X15: With authentication on, a blob that verifies but names a signer other
    than the envelope's source costs the source 30 points (from 50 when it
    had no score), is neither delivered nor relayed, and admits nobody. *)
Theorem signer_mismatch_penalised
    (st : SecureMeshNode) (m : Message.t) (d orig signer : string) :
  enable_auth st = true ->
  (msg_id m ∉ message_cache (base st)) ->
  decrypt (payload m) = Some d ->
  verify_signature d = Some (orig, signer) ->
  signer ≠ source_id m ->
  (secure_handle_client st m).2 = []
  /\ Trust.score_of (trust_manager (secure_handle_client st m).1) (source_id m)
     = Some (Z.max 0 (Z.min 100
               (default 50 (Trust.score_of (trust_manager st) (source_id m)) - 30)))
  /\ Trust.trusted_nodes (trust_manager (secure_handle_client st m).1)
     = Trust.trusted_nodes (trust_manager st).
Proof.
  intros Hauth Hfresh Hdec Hver Hne.
  unfold secure_handle_client. rewrite decide_False by done.
  rewrite Hdec. cbn [enable_auth with_base]. rewrite Hauth, Hver.
  rewrite bool_decide_eq_true_2 by done.
  cbn [fst snd trust_manager with_trust with_base base].
  split; [done|]. split; [|done].
  by rewrite Trust.update_trust_score_lookup.
Qed.

(** X16: With authentication on, a verified envelope from a source that
    already is in [trusted_nodes] raises its score by one (clamped at 100)
    and leaves [trusted_nodes] as it was: the key stored for the source is
    kept even when the blob carries another one. *)
Theorem trusted_sender_gains_one
    (st : SecureMeshNode) (m : Message.t) (d orig : string) :
  enable_auth st = true ->
  (msg_id m ∉ message_cache (base st)) ->
  decrypt (payload m) = Some d ->
  verify_signature d = Some (orig, source_id m) ->
  source_id m ∈ dom (Trust.trusted_nodes (trust_manager st)) ->
  Trust.trusted_nodes (trust_manager (secure_handle_client st m).1)
  = Trust.trusted_nodes (trust_manager st)
  /\ Trust.score_of (trust_manager (secure_handle_client st m).1) (source_id m)
     = Some (Z.max 0 (Z.min 100
               (default 50 (Trust.score_of (trust_manager st) (source_id m)) + 1))).
Proof.
  intros Hauth Hfresh Hdec Hver Hin.
  unfold secure_handle_client. rewrite decide_False by done.
  rewrite Hdec. cbn [enable_auth with_base]. rewrite Hauth, Hver.
  rewrite bool_decide_eq_false_2 by (intros Hne; by apply Hne).
  cbn [trust_manager with_trust with_base base].
  set (tm := Trust.update_trust_score (trust_manager st) (source_id m) 1).
  assert (Trust.is_trusted tm (source_id m) 0 = true) as Htr.
  { apply Trust.is_trusted_spec. split; [done|].
    unfold tm. rewrite Trust.update_trust_score_lookup. cbn.
    apply Trust.clamp_range. }
  unfold admit_sender. rewrite Htr. cbn [fst trust_manager with_trust].
  split; [done|]. unfold tm. by rewrite Trust.update_trust_score_lookup.
Qed.

(** X17: Handling an envelope keeps every score of the ledger in [[0, 100]]. *)
Theorem handler_keeps_scores_in_range (st : SecureMeshNode) (m : Message.t) :
  Trust.scores_in_range (trust_manager st) ->
  Trust.scores_in_range (trust_manager (secure_handle_client st m).1).
Proof.
  intros Hr. unfold secure_handle_client. case_decide; [done|].
  destruct (decrypt (payload m)) as [d|]; [|done].
  cbn [enable_auth with_base]. destruct (enable_auth st); [|done].
  destruct (verify_signature d) as [[orig signer]|].
  2:{ by apply Trust.update_trust_score_in_range. }
  case_bool_decide.
  { by apply Trust.update_trust_score_in_range. }
  cbn [trust_manager with_trust with_base base].
  pose proof (Trust.update_trust_score_in_range _ (source_id m) 1 Hr) as Hr1.
  unfold admit_sender. destruct (Trust.is_trusted _ _ 0); [done|].
  destruct (json_loads_blob d) as [sb|]; [|done]. cbn.
  case_bool_decide; [|done]. cbn.
  by apply Trust.add_trusted_node_in_range.
Qed.

(** ** Pruning from the node ([cleanup_untrusted_nodes]) *)

(** [SecureMeshNode.cleanup_untrusted_nodes()]; the second component is the
    id of the [KeyError] that [remove_untrusted_nodes] lets through. *)
Definition cleanup_untrusted_nodes (st : SecureMeshNode)
    : SecureMeshNode * option string :=
  if enable_auth st then
    let '(tm, err) := Trust.remove_untrusted_nodes (trust_manager st) 10 in
    (with_trust tm st, err)
  else (st, None).

(** A run of the handler over the envelopes of [ms], in order. *)
Definition secure_handle_all (st : SecureMeshNode) (ms : list Message.t)
    : SecureMeshNode :=
  foldl (λ st m, (secure_handle_client st m).1) st ms.

Lemma secure_handle_rejected (st : SecureMeshNode) (m : Message.t) (d : string) :
  enable_auth st = true ->
  (msg_id m ∉ message_cache (base st)) ->
  decrypt (payload m) = Some d ->
  verify_signature d = None ->
  secure_handle_client st m
  = (with_trust (Trust.update_trust_score (trust_manager st) (source_id m) (-20))
       (with_base (cache_add (msg_id m) (base st)) st), []).
Proof.
  intros Hauth Hfresh Hdec Hver. unfold secure_handle_client.
  rewrite decide_False by done. rewrite Hdec.
  cbn [enable_auth with_base]. by rewrite Hauth, Hver.
Qed.

Lemma penalties_floor (ms : list Message.t) (s : Z) :
  0 <= s <= 100 ->
  foldl (λ s _, Trust.clamp (s - 20)) s ms
  = Z.max 0 (s - 20 * Z.of_nat (length ms)).
Proof.
  revert s. induction ms as [|m ms IH]; intros s Hs; cbn [foldl length].
  - lia.
  - rewrite IH by apply Trust.clamp_range. unfold Trust.clamp. lia.
Qed.

Lemma secure_handle_all_rejected (src : string) (ms : list Message.t) :
  forall st : SecureMeshNode,
  enable_auth st = true ->
  NoDup (msg_id <$> ms) ->
  (forall m, m ∈ ms ->
     source_id m = src
     /\ (msg_id m ∉ message_cache (base st))
     /\ exists d, decrypt (payload m) = Some d /\ verify_signature d = None) ->
  enable_auth (secure_handle_all st ms) = true
  /\ Trust.trusted_nodes (trust_manager (secure_handle_all st ms))
     = Trust.trusted_nodes (trust_manager st)
  /\ (ms ≠ [] -> is_Some (Trust.score_of (trust_manager (secure_handle_all st ms)) src))
  /\ default 50 (Trust.score_of (trust_manager (secure_handle_all st ms)) src)
     = foldl (λ s _, Trust.clamp (s - 20))
             (default 50 (Trust.score_of (trust_manager st) src)) ms.
Proof.
  induction ms as [|m ms IH]; intros st Hauth Hnd Hall; cbn [secure_handle_all foldl].
  { done. }
  cbn [fmap list_fmap] in Hnd. apply NoDup_cons in Hnd as [Hm Hnd].
  destruct (Hall m) as (Hsrc & Hfresh & d & Hdec & Hver); [by left|].
  rewrite (secure_handle_rejected st m d) by done. cbn [fst].
  set (st1 := with_trust _ _).
  destruct (IH st1) as (Ha & Ht & Hs & Hd); [by destruct st|done| |].
  { intros m' Hm'. destruct (Hall m') as (Hsrc' & Hfresh' & Hd'); [by right|].
    split; [done|]. split; [|done].
    unfold st1. destruct st as [b a t]. cbn.
    intros [Hid%elem_of_singleton | ?]%elem_of_union; [|done].
    apply Hm. rewrite <- Hid. apply list_elem_of_fmap. by exists m'. }
  fold (secure_handle_all st1 ms).
  assert (Trust.score_of (trust_manager st1) src
          = Some (Trust.clamp (default 50 (Trust.score_of (trust_manager st) src) - 20)))
    as Hs1.
  { unfold st1. destruct st as [b a t]. cbn. rewrite Hsrc.
    by rewrite Trust.update_trust_score_lookup. }
  split; [done|]. split.
  { rewrite Ht. unfold st1. by destruct st. }
  split.
  { intros _. destruct ms as [|m2 ms]; [|by apply Hs].
    unfold secure_handle_all. cbn [foldl]. by rewrite Hs1. }
  by rewrite Hd, Hs1.
Qed.

(** X18: A sender that was never admitted and whose envelopes fail verification
    three times or more (20 points each, from 50) ends with a score below
    10 and no entry in [trusted_nodes]; [cleanup_untrusted_nodes] then
    raises a [KeyError] instead of pruning. *)
Theorem rejected_sender_breaks_cleanup
    (st : SecureMeshNode) (src : string) (ms : list Message.t) :
  enable_auth st = true ->
  (src ∉ dom (Trust.trusted_nodes (trust_manager st))) ->
  Trust.score_of (trust_manager st) src = None ->
  NoDup (msg_id <$> ms) ->
  (forall m, m ∈ ms ->
     source_id m = src
     /\ (msg_id m ∉ message_cache (base st))
     /\ exists d, decrypt (payload m) = Some d /\ verify_signature d = None) ->
  (3 <= length ms)%nat ->
  exists st' bad,
    cleanup_untrusted_nodes (secure_handle_all st ms) = (st', Some bad)
    /\ (bad ∉ dom (Trust.trusted_nodes (trust_manager (secure_handle_all st ms)))).
Proof.
  intros Hauth Hnot Hnone Hnd Hall Hlen.
  destruct (secure_handle_all_rejected src ms st Hauth Hnd Hall)
    as (Ha & Ht & Hs & Hd).
  unfold cleanup_untrusted_nodes. rewrite Ha.
  set (tm := trust_manager (secure_handle_all st ms)) in *.
  assert (ms ≠ []) as Hne by (intros ->; cbn in Hlen; lia).
  apply Hs in Hne as [s Hs'].
  rewrite Hs', Hnone in Hd. cbn in Hd.
  rewrite penalties_floor in Hd by lia.
  destruct (Trust.remove_loop_key_error (Trust.to_remove tm 10) tm src)
    as (tm' & bad & Hr & _ & Hbad).
  - apply Trust.NoDup_to_remove.
  - apply Trust.elem_of_to_remove. exists s. split; [done|]. lia.
  - by rewrite Ht.
  - unfold Trust.remove_untrusted_nodes. rewrite Hr.
    by exists (with_trust tm' (secure_handle_all st ms)), bad.
Qed.

(** ** The relay-only node ([relay_mode.RelayNode]) *)

(** The two counters of [RelayNode.stats]. *)
Record RelayStats := mkStats {
  messages_relayed : Z;
  messages_received : Z
}.

(** [RelayNode._on_message(message)], with [self.node.node_id] as
    [self_id]. *)
Definition _on_message (self_id : string) (stats : RelayStats) (message : Message.t)
    : RelayStats :=
  let stats := mkStats (messages_relayed stats) (messages_received stats + 1) in
  if bool_decide (dest_id message ≠ self_id)
     && bool_decide (dest_id message ≠ "broadcast")
  then mkStats (messages_relayed stats + 1) (messages_received stats)
  else stats.

(** [_trigger_callbacks] with [_on_message] as the registered callback,
    over what a handler call hands to the callbacks. *)
Definition trigger_on_message (self_id : string) (stats : RelayStats)
    (effs : list Effect) : RelayStats :=
  foldl (λ stats e,
           match e with
           | Callback message => _on_message self_id stats message
           | _ => stats
           end) stats effs.

(** The relay node reading one envelope: [MeshNode._handle_client] of the
    wrapped node, whose callback is [_on_message]. *)
Definition relay_handle (st : MeshNode) (stats : RelayStats) (m : Message.t)
    : MeshNode * RelayStats * list Effect :=
  let '(st', effs) := handle_client st m in
  (st', trigger_on_message (node_id st) stats effs, effs).

(** The relay node reading the envelopes of [ms] in order. *)
Definition relay_run (st : MeshNode) (stats : RelayStats) (ms : list Message.t)
    : MeshNode * RelayStats :=
  foldl (λ acc m, (relay_handle acc.1 acc.2 m).1) (st, stats) ms.

Lemma handle_client_node_id (st : MeshNode) (m : Message.t) :
  node_id (handle_client st m).1 = node_id st.
Proof.
  unfold handle_client. case_decide; [done|].
  by destruct (decrypt (payload m)).
Qed.

Lemma relay_handle_stats (st : MeshNode) (stats : RelayStats) (m : Message.t) :
  let '(st', stats', effs) := relay_handle st stats m in
  node_id st' = node_id st
  /\ messages_relayed stats' = messages_relayed stats
  /\ (forall target m', Frame target m' ∈ effs -> stats' = stats)
  /\ (forall m', Callback m' ∈ effs ->
        messages_received stats' = messages_received stats + 1).
Proof.
  unfold relay_handle. pose proof (handle_client_node_id st m) as Hid.
  destruct (handle_client st m) as [st' effs] eqn:Hh. cbn in Hid.
  split; [done|]. unfold handle_client in Hh.
  case_decide.
  { injection Hh as <- <-. cbn. repeat split; by intros ? ?%elem_of_nil. }
  destruct (decrypt (payload m)) as [d|].
  2:{ injection Hh as <- <-. cbn. repeat split; by intros ? ?%elem_of_nil. }
  injection Hh as <- <-. unfold deliver_or_relay.
  change (dest_id (route_append (node_id st) (set_payload d m))) with (dest_id m).
  change (node_id (cache_add (msg_id m) st)) with (node_id st).
  destruct (bool_decide (dest_id m = node_id st)
            || bool_decide (dest_id m = "broadcast")) eqn:Hdest.
  - cbn [trigger_on_message foldl]. unfold _on_message.
    change (dest_id (route_append (node_id st) (set_payload d m))) with (dest_id m).
    cbn [messages_relayed messages_received].
    assert (bool_decide (dest_id m ≠ node_id st)
            && bool_decide (dest_id m ≠ "broadcast") = false) as ->.
    { apply orb_true_iff in Hdest as [?%bool_decide_eq_true|?%bool_decide_eq_true].
      - by rewrite bool_decide_eq_false_2 by (intros Hne; by apply Hne).
      - rewrite (bool_decide_eq_false_2 (_ ≠ "broadcast")) by (intros Hne; by apply Hne).
        apply andb_false_r. }
    cbn. split; [done|]. split; [|done].
    intros target m' Hin%list_elem_of_singleton. done.
  - destruct (0 <? ttl _).
    2:{ cbn. repeat split; by intros ? ?%elem_of_nil. }
    cbn [trigger_on_message foldl].
    match goal with |- context [_forward_message ?s ?x] =>
      pose proof (_forward_message_effects s x) as Hf;
      destruct (_forward_message s x) as [fs ok] end.
    cbn [fst] in *.
    assert (forall stats0,
      foldl (λ stats e, match e with
                        | Callback message => _on_message (node_id st) stats message
                        | _ => stats
                        end) stats0 fs = stats0) as Hfold.
    { induction fs as [|e fs IH]; intros stats0; [done|]. cbn [foldl].
      destruct (Hf e) as (t & -> & _); [by left|].
      apply IH. intros e' He'. apply Hf. by right. }
    rewrite Hfold. split; [done|]. split; [done|].
    intros m' [?|Hin]%elem_of_cons; [done|].
    by destruct (Hf _ Hin) as (t & ? & _).
Qed.

(** X22: The counter [messages_relayed] of a relay-only node never moves: the
    callback that would count a relay is only ever called with envelopes
    addressed to the node itself or to [broadcast].  An envelope that the
    node does relay changes neither counter. *)
Theorem relay_counter_never_moves
    (st : MeshNode) (stats : RelayStats) (ms : list Message.t) :
  messages_relayed (relay_run st stats ms).2 = messages_relayed stats
  /\ forall m target m',
       Frame target m' ∈ (relay_handle st stats m).2 ->
       (relay_handle st stats m).1.2 = stats.
Proof.
  split.
  - unfold relay_run. revert st stats.
    induction ms as [|m ms IH]; intros st stats; [done|]. cbn [foldl fst snd].
    pose proof (relay_handle_stats st stats m) as Hs.
    destruct (relay_handle st stats m) as [[st' stats'] effs].
    destruct Hs as (_ & <- & _). apply IH.
  - intros m target m' Hin.
    pose proof (relay_handle_stats st stats m) as Hs.
    destruct (relay_handle st stats m) as [[st' stats'] effs].
    destruct Hs as (_ & _ & Hf & _). by eapply Hf.
Qed.

End WithEnvironment.

(** ** Executable scenarios

    The scenarios run the model on a concrete three-node chain A - R - B in
    which A and B know only R.  They need some instance of the environment:
    the stand-in cipher of [Crypto], a line-based stand-in for the JSON blob
    and a stand-in signature that is valid when it spells out key and
    message; every connection succeeds. *)

Fixpoint split_bar (s : string) : option (string * string) :=
  match s with
  | EmptyString => None
  | String c r =>
    if Ascii.eqb c "|" then Some (EmptyString, r)
    else '(a, b) ← split_bar r; Some (String c a, b)
  end.

Definition standin_dumps (sb : Auth.SignedBlob) : string :=
  Auth.signer_id sb ++ "|" ++ Auth.public_key sb ++ "|"
  ++ Auth.signature sb ++ "|" ++ Auth.message sb.

Definition standin_loads (s : string) : option Auth.SignedBlob :=
  '(signer, r1) ← split_bar s;
  '(pk, r2) ← split_bar r1;
  '(sig, msg) ← split_bar r2;
  Some (Auth.mkBlob msg sig pk signer).

Definition standin_signature (pk msg : string) : string :=
  "signed:" ++ pk ++ ":" ++ msg.

Definition standin_dss_verify (pk msg sig : string) : bool :=
  negb (String.eqb pk "") && String.eqb sig (standin_signature pk msg).

Definition standin_sign (payload node_id : string) : option string :=
  let pk := "pk-" ++ node_id in
  Some (standin_dumps (Auth.mkBlob payload (standin_signature pk payload) pk node_id)).

Definition always_up (_ : NodeInfo.t) : bool := true.

Definition standin_run : Net -> list Step -> option Net :=
  run Crypto.standin_encrypt Crypto.standin_decrypt standin_sign
      standin_loads standin_dss_verify always_up.

Definition standin_handle : Node -> Message.t -> Node * list Effect :=
  node_handle Crypto.standin_decrypt standin_loads standin_dss_verify always_up.

Definition standin_secure_handle
    : SecureMeshNode -> Message.t -> SecureMeshNode * list Effect :=
  secure_handle_client Crypto.standin_decrypt standin_loads standin_dss_verify
                       always_up.

Definition info (id : string) : NodeInfo.t :=
  NodeInfo.mk id ("10.0.0." ++ id) 5001 0%Q ("host-" ++ id).

Definition plain (id : string) (neighbours : list string) : Node :=
  PlainNode (mkNode id (info <$> neighbours) ∅).

Definition secure (id : string) (neighbours : list string) : Node :=
  SecureNode (mkSecure (mkNode id (info <$> neighbours) ∅) true Trust.empty).

Definition zero_iv : list byte := replicate 16 x00.

(** A - R - B with plain nodes, and the same chain with secure nodes. *)
Definition chain : Net :=
  mkNet (<["A" := plain "A" ["R"]]> (<["R" := plain "R" ["A"; "B"]]>
          (<["B" := plain "B" ["R"]]> ∅))) [] [].

Definition secure_chain : Net :=
  mkNet (<["A" := secure "A" ["R"]]> (<["R" := secure "R" ["A"; "B"]]>
          (<["B" := secure "B" ["R"]]> ∅))) [] [].

(** A broadcasts [ping]; the only frame is read by R. *)
Definition broadcast_steps : list Step :=
  [Send "A" "msg-1" 0%Q zero_iv "broadcast" "ping" "text"; Recv 0].

(** A sends [ping] to B and the frame is read by R, which forwards it. *)
Definition unicast_steps : list Step :=
  [Send "A" "msg-2" 0%Q zero_iv "B" "ping" "text"; Recv 0].

Definition relayed : Net := default chain (standin_run chain unicast_steps).

Lemma chain_well_keyed : well_keyed chain.
Proof.
  intros k nd. unfold chain. cbn.
  rewrite !lookup_insert. repeat case_decide; intros ?; by simplify_map_eq.
Qed.

(** The frame R forwards: one hop used up, R appended to the route, and the
    payload as R left it after [message.payload = decrypted_payload]. *)
Example unicast_relayed_frame :
  standin_run chain unicast_steps = Some relayed
  /\ inflight relayed
     = [(info "B", Message.mk "msg-2" "A" "B" "ping" 0%Q 19 "text" ["A"; "R"])]
  /\ delivered relayed = [].
Proof. vm_compute. repeat split. Qed.

(** C1, counterexample: in the chain A - R - B, A's broadcast goes out as one
    frame to R with [ttl = MAX_TTL] and route [[A]]; once R has read it, R's
    callbacks hold it with [ttl = MAX_TTL] and route [[A; R]], nothing is in
    flight any more, and B's callbacks have received nothing -- with plain
    nodes and with secure nodes alike. *)
Lemma broadcast_chain_stops_at_relay :
  (inflight <$> standin_run chain (take 1 broadcast_steps))
  = Some [(info "R",
           Message.mk "msg-1" "A" "broadcast"
             (default "" (Crypto.standin_encrypt zero_iv "ping")) 0%Q 20 "text" ["A"])]
  /\ (inflight <$> standin_run chain broadcast_steps) = Some []
  /\ (delivered <$> standin_run chain broadcast_steps)
     = Some [("R", Message.mk "msg-1" "A" "broadcast" "ping" 0%Q 20 "text" ["A"; "R"])]
  /\ (inflight <$> standin_run secure_chain broadcast_steps) = Some []
  /\ (delivered <$> standin_run secure_chain broadcast_steps)
     = Some [("R", Message.mk "msg-1" "A" "broadcast" "ping" 0%Q 20 "text" ["A"; "R"])].
Proof. vm_compute. repeat split. Qed.

(** The frame of A's broadcast as R receives it. *)
Definition broadcast_frame : Message.t :=
  Message.mk "msg-1" "A" "broadcast"
    (default "" (Crypto.standin_encrypt zero_iv "ping")) 0%Q 20 "text" ["A"].

(** A signed [hello] from A to R, and a frame whose content is no blob. *)
Definition signed_blob : Auth.SignedBlob :=
  Auth.mkBlob "hello" (standin_signature "pk-A" "hello") "pk-A" "A".

Definition signed_frame : Message.t :=
  Message.mk "msg-3" "A" "R"
    (default "" (Crypto.standin_encrypt zero_iv (standin_dumps signed_blob)))
    0%Q 20 "text" ["A"].

Definition garbled_frame : Message.t :=
  Message.mk "msg-4" "A" "R"
    (default "" (Crypto.standin_encrypt zero_iv "garbage")) 0%Q 20 "text" ["A"].

Definition secure_R : SecureMeshNode :=
  mkSecure (mkNode "R" (info <$> ["A"; "B"]) ∅) true Trust.empty.

(** R's handler on A's broadcast frame: one callback, nothing else. *)
Lemma broadcast_delivered_not_relayed_witness :
  (standin_handle (plain "R" ["A"; "B"]) broadcast_frame).2
  = [Callback (route_append "R" (set_payload "ping" broadcast_frame))].
Proof.
  destruct (broadcast_delivered_not_relayed
              Crypto.standin_encrypt Crypto.standin_decrypt standin_sign
              standin_loads standin_dss_verify always_up
              (plain "R" ["A"; "B"]) broadcast_frame eq_refl) as (_ & H & _).
  apply (H "ping").
  - apply not_elem_of_empty.
  - vm_compute. reflexivity.
Defined.

(** The frame R relays towards B has [ttl = 19], within [[0, MAX_TTL]]. *)
Lemma ttl_monotone_nonnegative_witness :
  Forall (λ m, 0 <= ttl m <= MAX_TTL) (envelopes relayed).
Proof.
  apply Forall_forall.
  apply (ttl_monotone_nonnegative
           Crypto.standin_encrypt Crypto.standin_decrypt standin_sign
           standin_loads standin_dss_verify always_up
           chain unicast_steps relayed).
  - split; reflexivity.
  - vm_compute. reflexivity.
Defined.

(** The frame R relays towards B has route [[A; R]]. *)
Lemma route_source_first_distinct_witness :
  Forall (λ m, head (route m) = Some (source_id m) /\ NoDup (route m))
         (envelopes relayed).
Proof.
  apply Forall_forall.
  apply (route_source_first_distinct
           Crypto.standin_encrypt Crypto.standin_decrypt standin_sign
           standin_loads standin_dss_verify always_up
           chain unicast_steps relayed).
  - exact chain_well_keyed.
  - split; reflexivity.
  - vm_compute. reflexivity.
Defined.

(** R, with an empty ledger, reads A's signed [hello]. *)
Lemma first_verified_message_admits_sender_witness :
  Trust.trusted_nodes (trust_manager (standin_secure_handle secure_R signed_frame).1)
    !! "A" = Some "pk-A"
  /\ Trust.score_of (trust_manager (standin_secure_handle secure_R signed_frame).1) "A"
     = Some 50.
Proof.
  apply (first_verified_message_admits_sender
           Crypto.standin_decrypt standin_loads standin_dss_verify always_up
           secure_R signed_frame (standin_dumps signed_blob) signed_blob).
  - intros msg sig. reflexivity.
  - reflexivity.
  - apply not_elem_of_empty.
  - vm_compute. reflexivity.
  - vm_compute. reflexivity.
  - vm_compute. reflexivity.
  - reflexivity.
  - apply not_elem_of_dom. reflexivity.
Defined.

(** R, with an empty ledger, reads a frame from A that carries no blob. *)
Lemma absent_score_starts_at_50_witness :
  Trust.score_of (Trust.update_trust_score Trust.empty "A" (-20)) "A" = Some 30
  /\ Trust.score_of (trust_manager (standin_secure_handle secure_R garbled_frame).1) "A"
     = Some 30
  /\ (standin_secure_handle secure_R garbled_frame).2 = [].
Proof.
  apply (absent_score_starts_at_50
           Crypto.standin_decrypt standin_loads standin_dss_verify always_up
           secure_R garbled_frame "garbage" (-20)).
  - reflexivity.
  - reflexivity.
  - apply not_elem_of_empty.
  - vm_compute. reflexivity.
  - vm_compute. reflexivity.
Defined.

(** ** Instances of the further properties *)

(** A codec for the signed blob that reads back whatever it wrote: every
    character is preceded by [+] and every field closed by [.]. *)
Fixpoint put_field (s rest : string) : string :=
  match s with
  | EmptyString => String "." rest
  | String c r => String "+" (String c (put_field r rest))
  end.

Fixpoint get_field (s : string) : option (string * string) :=
  match s with
  | EmptyString => None
  | String c r =>
    if Ascii.eqb c "." then Some (EmptyString, r)
    else
      match r with
      | EmptyString => None
      | String c' r' => '(a, b) ← get_field r'; Some (String c' a, b)
      end
  end.

Definition codec_dumps (sb : Auth.SignedBlob) : string :=
  put_field (Auth.message sb)
    (put_field (Auth.signature sb)
       (put_field (Auth.public_key sb) (put_field (Auth.signer_id sb) ""))).

Definition codec_loads (s : string) : option Auth.SignedBlob :=
  '(msg, r1) ← get_field s;
  '(sig, r2) ← get_field r1;
  '(pk, r3) ← get_field r2;
  '(signer, _) ← get_field r3;
  Some (Auth.mkBlob msg sig pk signer).

Lemma get_put_field (s rest : string) : get_field (put_field s rest) = Some (s, rest).
Proof. induction s as [|c r IH]; [done|]. cbn. by rewrite IH. Qed.

Lemma codec_roundtrip (sb : Auth.SignedBlob) : codec_loads (codec_dumps sb) = Some sb.
Proof.
  unfold codec_loads, codec_dumps. rewrite get_put_field. cbn.
  rewrite get_put_field. cbn. rewrite get_put_field. cbn.
  rewrite get_put_field. cbn. by destruct sb.
Qed.

(** A holds the key pair [pk-A] and signs [hello]. *)
Lemma verify_signature_sign_message_witness :
  Auth.verify_signature codec_loads standin_dss_verify
    (codec_dumps (Auth.mkBlob "hello" (standin_signature "pk-A" "hello") "pk-A" "A"))
  = Some ("hello", "A").
Proof.
  apply (Auth.verify_signature_sign_message
           codec_dumps codec_loads (λ msg, Some (standin_signature "pk-A" msg))
           standin_dss_verify true "pk-A").
  - exact codec_roundtrip.
  - intros msg sig [= <-]. unfold standin_dss_verify. cbn [negb String.eqb andb].
    apply String.eqb_refl.
  - reflexivity.
Defined.

(** A second copy of A's broadcast, with another payload, reaches R. *)
Lemma second_receipt_is_dropped_witness :
  standin_handle (standin_handle (plain "R" ["A"; "B"]) broadcast_frame).1
                 (set_payload "replayed" broadcast_frame)
  = ((standin_handle (plain "R" ["A"; "B"]) broadcast_frame).1, []).
Proof.
  apply (second_receipt_is_dropped
           Crypto.standin_decrypt standin_loads standin_dss_verify always_up
           (plain "R" ["A"; "B"]) broadcast_frame
           (set_payload "replayed" broadcast_frame)).
  reflexivity.
Defined.

(** A after its broadcast of [ping] under the id [msg-1]. *)
Definition A_after_send : Node * list Effect * bool :=
  default (plain "A" ["R"], [], false)
    (node_send Crypto.standin_encrypt standin_sign always_up
               (plain "A" ["R"]) "msg-1" 0%Q zero_iv "broadcast" "ping" "text").

Lemma own_message_is_dropped_witness :
  standin_handle A_after_send.1.1 broadcast_frame = (A_after_send.1.1, []).
Proof.
  apply (own_message_is_dropped
           Crypto.standin_encrypt Crypto.standin_decrypt standin_sign
           standin_loads standin_dss_verify always_up
           (plain "A" ["R"]) "msg-1" 0%Q zero_iv "broadcast" "ping" "text"
           A_after_send.1.1 A_after_send.1.2 A_after_send.2
           (Frame (info "R") broadcast_frame) broadcast_frame).
  - vm_compute. reflexivity.
  - vm_compute. left.
  - reflexivity.
Defined.

(** R delivers A's signed [hello]. *)
Lemma effects_carry_cleartext_witness :
  exists d,
    Crypto.standin_decrypt (payload signed_frame) = Some d
    /\ Auth.verify_signature standin_loads standin_dss_verify d = Some ("hello", "A").
Proof.
  apply (effects_carry_cleartext
           Crypto.standin_decrypt standin_loads standin_dss_verify always_up
           (SecureNode secure_R) signed_frame
           (Callback (route_append "R" (set_payload "hello" signed_frame)))).
  vm_compute. left.
Defined.

(** [ping] encrypted twice travels A - R - B: R takes off one layer and B
    the other. *)
Definition twice_encrypted : string :=
  default "" (Crypto.standin_encrypt zero_iv
                (default "" (Crypto.standin_encrypt zero_iv "ping"))).

Definition double_frame : Message.t :=
  Message.mk "msg-5" "A" "B" twice_encrypted 0%Q 20 "text" ["A"].

Definition double_frame_relayed : Message.t :=
  Message.mk "msg-5" "A" "B" (default "" (Crypto.standin_encrypt zero_iv "ping"))
             0%Q 19 "text" ["A"; "R"].

Lemma second_hop_needs_double_decryption_witness :
  exists d d2,
    Crypto.standin_decrypt (payload double_frame) = Some d
    /\ payload double_frame_relayed = d
    /\ Crypto.standin_decrypt d = Some d2
    /\ payload (effect_message
                  (Callback (route_append "B" (set_payload "ping" double_frame_relayed))))
       = d2.
Proof.
  apply (second_hop_needs_double_decryption
           Crypto.standin_decrypt always_up
           (mkNode "R" (info <$> ["A"; "B"]) ∅) (mkNode "B" (info <$> ["R"]) ∅)
           double_frame (info "B") double_frame_relayed).
  - vm_compute. right. left.
  - vm_compute. left.
Defined.

(** R, which knows A and B, forwards an envelope that came from A. *)
Lemma _forward_message_first_available_witness :
  _forward_message always_up (mkNode "R" (info <$> ["A"; "B"]) ∅) double_frame_relayed
  = ([Frame (info "B") double_frame_relayed], true).
Proof.
  apply (_forward_message_first_available always_up
           (mkNode "R" (info <$> ["A"; "B"]) ∅) double_frame_relayed
           [info "A"] [] (info "B")).
  - reflexivity.
  - intros n ->%list_elem_of_singleton. vm_compute. left.
  - apply (bool_decide_eq_false_1 _). vm_compute. reflexivity.
Defined.

(** B knows only R, which is on the route already. *)
Lemma _forward_message_nowhere_witness :
  _forward_message always_up (mkNode "B" (info <$> ["R"]) ∅) double_frame_relayed
  = ([], false).
Proof.
  apply (_forward_message_nowhere always_up
           (mkNode "B" (info <$> ["R"]) ∅) double_frame_relayed).
  intros n ->%list_elem_of_singleton. vm_compute. right. left.
Defined.

(** A node with authentication switched off reads A's broadcast. *)
Definition open_R : SecureMeshNode :=
  mkSecure (mkNode "R" (info <$> ["A"; "B"]) ∅) false Trust.empty.

Lemma secure_without_auth_is_plain_witness :
  standin_secure_handle open_R broadcast_frame
  = (with_base (handle_client Crypto.standin_decrypt always_up (base open_R)
                              broadcast_frame).1 open_R,
     (handle_client Crypto.standin_decrypt always_up (base open_R) broadcast_frame).2).
Proof.
  apply (secure_without_auth_is_plain
           Crypto.standin_decrypt standin_loads standin_dss_verify always_up
           open_R broadcast_frame).
  reflexivity.
Defined.

(** An envelope that names A as its source and carries a blob that M
    signed with its own key. *)
Definition mismatched_frame : Message.t :=
  Message.mk "msg-6" "A" "R"
    (default "" (Crypto.standin_encrypt zero_iv
       (standin_dumps (Auth.mkBlob "hello" (standin_signature "pk-M" "hello")
                                   "pk-M" "M"))))
    0%Q 20 "text" ["A"].

Lemma signer_mismatch_penalised_witness :
  (standin_secure_handle secure_R mismatched_frame).2 = []
  /\ Trust.score_of (trust_manager (standin_secure_handle secure_R mismatched_frame).1) "A"
     = Some 20
  /\ Trust.trusted_nodes (trust_manager (standin_secure_handle secure_R mismatched_frame).1)
     = Trust.trusted_nodes (trust_manager secure_R).
Proof.
  apply (signer_mismatch_penalised
           Crypto.standin_decrypt standin_loads standin_dss_verify always_up
           secure_R mismatched_frame
           (standin_dumps (Auth.mkBlob "hello" (standin_signature "pk-M" "hello")
                                       "pk-M" "M"))
           "hello" "M").
  - reflexivity.
  - apply not_elem_of_empty.
  - vm_compute. reflexivity.
  - vm_compute. reflexivity.
  - discriminate.
Defined.

(** R after A's first signed [hello], reading a second one. *)
Definition R_knows_A : SecureMeshNode := (standin_secure_handle secure_R signed_frame).1.

Definition second_signed_frame : Message.t :=
  Message.mk "msg-7" "A" "R" (payload signed_frame) 0%Q 20 "text" ["A"].

Lemma trusted_sender_gains_one_witness :
  Trust.trusted_nodes (trust_manager (standin_secure_handle R_knows_A second_signed_frame).1)
  = Trust.trusted_nodes (trust_manager R_knows_A)
  /\ Trust.score_of (trust_manager (standin_secure_handle R_knows_A second_signed_frame).1) "A"
     = Some 51.
Proof.
  apply (trusted_sender_gains_one
           Crypto.standin_decrypt standin_loads standin_dss_verify always_up
           R_knows_A second_signed_frame (standin_dumps signed_blob) "hello").
  - reflexivity.
  - apply (bool_decide_eq_false_1 _). vm_compute. reflexivity.
  - vm_compute. reflexivity.
  - vm_compute. reflexivity.
  - apply elem_of_dom. exists "pk-A". vm_compute. reflexivity.
Defined.

Lemma handler_keeps_scores_in_range_witness :
  Trust.scores_in_range (trust_manager (standin_secure_handle secure_R garbled_frame).1).
Proof.
  apply (handler_keeps_scores_in_range
           Crypto.standin_decrypt standin_loads standin_dss_verify always_up
           secure_R garbled_frame).
  intros id s Hs. vm_compute in Hs. discriminate Hs.
Defined.

(** Three envelopes from X that decrypt to something that is no blob. *)
Definition garbled (id : string) : Message.t :=
  Message.mk id "X" "R" (default "" (Crypto.standin_encrypt zero_iv "garbage"))
             0%Q 20 "text" ["X"].

Definition three_garbled : list Message.t := garbled <$> ["g1"; "g2"; "g3"].

Definition standin_handle_all : SecureMeshNode -> list Message.t -> SecureMeshNode :=
  secure_handle_all Crypto.standin_decrypt standin_loads standin_dss_verify always_up.

Lemma rejected_sender_breaks_cleanup_witness :
  exists st' bad,
    cleanup_untrusted_nodes (standin_handle_all secure_R three_garbled) = (st', Some bad)
    /\ (bad ∉ dom (Trust.trusted_nodes
                     (trust_manager (standin_handle_all secure_R three_garbled)))).
Proof.
  apply (rejected_sender_breaks_cleanup
           Crypto.standin_decrypt standin_loads standin_dss_verify always_up
           secure_R "X" three_garbled).
  - reflexivity.
  - apply not_elem_of_dom. reflexivity.
  - reflexivity.
  - apply (bool_decide_unpack _). vm_compute. exact I.
  - apply Forall_forall. repeat constructor; try apply not_elem_of_empty;
      exists "garbage"; split; vm_compute; reflexivity.
  - cbn. lia.
Defined.

(** R hears from B, which it knows, and from C, which is new. *)
Lemma discovery_refreshes_sender_witness :
  NodeInfo.node_id
    <$> known_nodes
          (_discovery_listener (mkNode "R" (info <$> ["A"; "B"]) ∅)
             (mkDiscovery (Some "discovery") (Some "C") (Some 5001) (Some "host-C"))
             "10.0.0.9" 7%Q)
  = ["A"; "B"; "C"].
Proof.
  refine (proj2 (discovery_refreshes_sender
                   (mkNode "R" (info <$> ["A"; "B"]) ∅) "C" "10.0.0.9" "host-C"
                   5001 7%Q _ _)).
  - apply (bool_decide_unpack _). vm_compute. exact I.
  - discriminate.
Defined.

Lemma discovery_keeps_table_ok_witness :
  table_ok (_discovery_listener (mkNode "R" (info <$> ["A"; "B"]) ∅)
              (mkDiscovery (Some "discovery") (Some "B") (Some 5001) (Some "host-B"))
              "10.0.0.7" 7%Q).
Proof.
  refine (proj1 (discovery_keeps_table_ok
                   (mkNode "R" (info <$> ["A"; "B"]) ∅)
                   (mkDiscovery (Some "discovery") (Some "B") (Some 5001)
                                (Some "host-B"))
                   "10.0.0.7" 7%Q _)).
  split.
  - apply (bool_decide_unpack _). vm_compute. exact I.
  - apply (bool_decide_eq_false_1 _). vm_compute. reflexivity.
Defined.

(** At time 100 a neighbour last seen at 5 is gone and one seen at 20
    stays. *)
Definition aged_R : MeshNode :=
  mkNode "R" [NodeInfo.mk "A" "10.0.0.A" 5001 5%Q "host-A";
              NodeInfo.mk "B" "10.0.0.B" 5001 20%Q "host-B"] ∅.

Lemma cleanup_old_nodes_drops_expired_witness :
  exists st',
    _cleanup_old_nodes aged_R 100%Q = Some st'
    /\ known_nodes st' = filter (λ n, expired 100%Q n = false) (known_nodes aged_R)
    /\ (forall n, n ∈ known_nodes st'
          <-> n ∈ known_nodes aged_R
              /\ (100 - NodeInfo.last_seen n <= NODE_TIMEOUT)%Q)
    /\ node_id st' = node_id aged_R /\ message_cache st' = message_cache aged_R.
Proof.
  apply (cleanup_old_nodes_drops_expired aged_R 100%Q).
  apply (bool_decide_unpack _). vm_compute. exact I.
Defined.

End Mesh.

(* ===================================================================== *)
(** * Chunked file transfer ([file_transfer.FileTransferManager]) *)
(* ===================================================================== *)

(** The three [os.path] functions the reassembler calls, for POSIX paths. *)
Module OsPath.

(** [s.rfind(c)]: the last index of [c] in [s], or [-1]. *)
Fixpoint rfind_from (c : ascii) (s : string) (i acc : Z) : Z :=
  match s with
  | EmptyString => acc
  | String a r => rfind_from c r (i + 1) (if Ascii.eqb a c then i else acc)
  end.

Definition rfind (c : ascii) (s : string) : Z := rfind_from c s 0 (-1).

(** [os.path.join(a, b)] *)
Definition join (a b : string) : string :=
  if String.prefix "/" b then b
  else if String.eqb a "" || (rfind "/" a =? Z.of_nat (String.length a) - 1)
  then a ++ b
  else a ++ "/" ++ b.

(** [os.path.splitext(p)]: split at the last dot of the last component,
    unless that component consists of leading dots up to there. *)
Definition splitext (p : string) : string * string :=
  let sepIndex := rfind "/" p in
  let dotIndex := rfind "." p in
  if sepIndex <? dotIndex then
    let filenameIndex := sepIndex + 1 in
    let stem :=
      substring (Z.to_nat filenameIndex) (Z.to_nat (dotIndex - filenameIndex)) p in
    if existsb (λ a, negb (Ascii.eqb a ".")) (list_ascii_of_string stem)
    then (substring 0 (Z.to_nat dotIndex) p,
          substring (Z.to_nat dotIndex) (String.length p - Z.to_nat dotIndex) p)
    else (p, "")
  else (p, "").

End OsPath.

Module FileChunk.
(** [@dataclass FileChunk] *)
Record t := mk {
  file_id : string;
  filename : string;
  chunk_index : Z;
  total_chunks : Z;
  data : string;
  file_size : Z
}.
End FileChunk.

Module FileTransferState.
(** [@dataclass FileTransferState] *)
Record t := mk {
  file_id : string;
  filename : string;
  total_chunks : Z;
  received_chunks : gmap Z (list byte);
  file_size : Z;
  complete : bool
}.

(** [state.received_chunks[i] = b] *)
Definition store_chunk (i : Z) (b : list byte) (s : t) : t :=
  mk (file_id s) (filename s) (total_chunks s) (<[i := b]> (received_chunks s))
     (file_size s) (complete s).

(** [state.complete = True] *)
Definition set_complete (s : t) : t :=
  mk (file_id s) (filename s) (total_chunks s) (received_chunks s) (file_size s) true.
End FileTransferState.

Module FileTransfer.

Import FileTransferState.

(** The manager object: [completion_callbacks] counts the registered
    callbacks, which are identified by their position. *)
Record FileTransferManager := mkManager {
  save_directory : string;
  transfer_states : gmap string FileTransferState.t;
  completion_callbacks : nat
}.

(** The manager together with what it acts on: the paths that exist with
    their content, and the log of completion-callback invocations
    [(callback, filename, file_path)]. *)
Record World := mkWorld {
  manager : FileTransferManager;
  disk : gmap string (list byte);
  fired : list (nat * string * string)
}.

Inductive Exn :=
| Base64Error          (* [binascii.Error] from [base64.b64decode] *)
| ZeroDivisionError.   (* [len(..) / state.total_chunks] with [total_chunks == 0] *)

Inductive Outcome :=
| Returned (b : bool)
| Raised (e : Exn).

Definition with_states (ts : gmap string FileTransferState.t) (w : World) : World :=
  mkWorld (mkManager (save_directory (manager w)) ts
                     (completion_callbacks (manager w)))
          (disk w) (fired w).

(** [os.path.exists(path)] *)
Definition exists_on (d : gmap string (list byte)) (path : string) : bool :=
  bool_decide (is_Some (d !! path)).

(** The loop [while os.path.exists(file_path): ...] of [_save_complete_file];
    [None] when [fuel] iterations were not enough. *)
Fixpoint free_path (fuel : nat) (d : gmap string (list byte))
    (dir base_name ext : string) (counter : Z) (file_path : string) : option string :=
  if exists_on d file_path then
    match fuel with
    | O => None
    | S fuel =>
      free_path fuel d dir base_name ext (counter + 1)
        (OsPath.join dir (base_name ++ "_" ++ pretty counter ++ ext))
    end
  else Some file_path.

(** The body written to the file: [for i in range(total_chunks): if i in
    received_chunks: f.write(received_chunks[i])]. *)
Definition assemble (state : FileTransferState.t) : list byte :=
  mjoin ((λ i, default [] (received_chunks state !! i))
           <$> seqZ 0 (total_chunks state)).

(** [_save_complete_file(state)] *)
Definition _save_complete_file (fuel : nat) (w : World) (state : FileTransferState.t)
    : option World :=
  let dir := save_directory (manager w) in
  let file_path := OsPath.join dir (filename state) in
  file_path ←
    (if exists_on (disk w) file_path then
       let '(base_name, ext) := OsPath.splitext (filename state) in
       free_path fuel (disk w) dir base_name ext 1 file_path
     else Some file_path);
  Some (mkWorld (manager w)
                (<[file_path := assemble state]> (disk w))
                (fired w ++ ((λ cb, (cb, filename state, file_path))
                               <$> seq 0 (completion_callbacks (manager w))))).

Section WithBase64.

(** [base64.b64decode]; [None] stands for [binascii.Error]. *)
Variable b64decode : string -> option (list byte).

(** [process_chunk(chunk)]; [None] only when the file-name search ran out
    of [fuel]. *)
Definition process_chunk (fuel : nat) (w : World) (chunk : FileChunk.t)
    : option (World * Outcome) :=
  let fid := FileChunk.file_id chunk in
  let states := transfer_states (manager w) in
  let '(states, state) :=
    match states !! fid with
    | Some state => (states, state)
    | None =>
      let state :=
        FileTransferState.mk fid (FileChunk.filename chunk)
          (FileChunk.total_chunks chunk) ∅ (FileChunk.file_size chunk) false in
      (<[fid := state]> states, state)
    end in
  match b64decode (FileChunk.data chunk) with
  | None => Some (with_states states w, Raised Base64Error)
  | Some chunk_data =>
    let state := store_chunk (FileChunk.chunk_index chunk) chunk_data state in
    let w := with_states (<[fid := state]> states) w in
    if total_chunks state =? 0 then Some (w, Raised ZeroDivisionError)
    else if Z.of_nat (size (received_chunks state)) =? total_chunks state then
      w ← _save_complete_file fuel w state;
      Some (with_states (<[fid := set_complete state]> (transfer_states (manager w))) w,
            Returned true)
    else Some (w, Returned false)
  end.

(** ** Duplicates *)

Lemma store_chunk_twice i b s :
  store_chunk i b (store_chunk i b s) = store_chunk i b s.
Proof. unfold store_chunk. cbn. by rewrite insert_insert_eq. Qed.

Lemma with_states_twice ts ts' w :
  with_states ts (with_states ts' w) = with_states ts w.
Proof. reflexivity. Qed.

(** X23: Before completion the dictionary of received chunks absorbs a repeated
    chunk: processing the same chunk again right after a call that returned
    [False] changes nothing and returns [False] again. *)
Lemma duplicate_before_completion_noop fuel w chunk w1 :
  process_chunk fuel w chunk = Some (w1, Returned false) ->
  process_chunk fuel w1 chunk = Some (w1, Returned false).
Proof.
  unfold process_chunk.
  set (fid := FileChunk.file_id chunk).
  destruct (match transfer_states (manager w) !! fid with
            | Some state => (transfer_states (manager w), state)
            | None => _
            end) as [states state] eqn:Hst.
  destruct (b64decode (FileChunk.data chunk)) as [cd|]; [|done].
  set (state' := store_chunk (FileChunk.chunk_index chunk) cd state).
  destruct (total_chunks state' =? 0) eqn:Hz; [done|].
  destruct (Z.of_nat (size (received_chunks state')) =? total_chunks state') eqn:Hsz.
  { destruct (_save_complete_file _ _ _); done. }
  intros [= <-]. cbn [manager transfer_states with_states].
  rewrite lookup_insert_eq. fold state'.
  assert (store_chunk (FileChunk.chunk_index chunk) cd state' = state') as ->
    by apply store_chunk_twice.
  rewrite Hz, Hsz. by rewrite insert_insert_eq.
Qed.

End WithBase64.

(** ** Saving a completed file ([_save_complete_file]) *)

(** The name tried in round [counter] of the search for a free path. *)
Definition candidate (dir base_name ext : string) (counter : Z) : string :=
  OsPath.join dir (base_name ++ "_" ++ pretty counter ++ ext).

Lemma list_ascii_of_string_app (a b : string) :
  list_ascii_of_string (a ++ b)
  = (list_ascii_of_string a ++ list_ascii_of_string b)%list.
Proof. induction a as [|c a IH]; [done|]. simpl. by rewrite IH. Qed.

Lemma string_app_inv_tail (a b t : string) : a ++ t = b ++ t -> a = b.
Proof.
  intros H. apply (f_equal list_ascii_of_string) in H.
  rewrite !list_ascii_of_string_app in H. apply app_inv_tail in H.
  rewrite <- (string_of_list_ascii_of_string a), <- (string_of_list_ascii_of_string b).
  by f_equal.
Qed.

Lemma prefix_slash_app (base_name rest rest' : string) :
  String.prefix "/" (base_name ++ "_" ++ rest)
  = String.prefix "/" (base_name ++ "_" ++ rest').
Proof.
  destruct base_name as [|c base_name]; [done|].
  change (String c base_name ++ "_" ++ rest)
    with (String c (base_name ++ "_" ++ rest)).
  change (String c base_name ++ "_" ++ rest')
    with (String c (base_name ++ "_" ++ rest')).
  generalize (base_name ++ "_" ++ rest) (base_name ++ "_" ++ rest').
  intros s s'. cbv [String.prefix]. destruct (ascii_dec "/" c); [|done].
  by destruct s, s'.
Qed.

Lemma candidate_inj (dir base_name ext : string) (j k : Z) :
  candidate dir base_name ext j = candidate dir base_name ext k -> j = k.
Proof.
  unfold candidate, OsPath.join.
  rewrite (prefix_slash_app base_name (pretty j ++ ext) (pretty k ++ ext)).
  assert (base_name ++ "_" ++ pretty j ++ ext = base_name ++ "_" ++ pretty k ++ ext
          -> j = k) as Hinj.
  { intros H. apply (inj (String.app base_name)) in H.
    apply (inj (String.app "_")) in H. apply string_app_inv_tail in H.
    by apply (inj pretty) in H. }
  destruct (String.prefix _ _); [done|].
  destruct (_ || _); intros H; apply (inj (String.app dir)) in H.
  - by apply Hinj.
  - apply (inj (String.app "/")) in H. by apply Hinj.
Qed.

Lemma free_path_not_exists fuel d dir base_name ext counter file_path r :
  free_path fuel d dir base_name ext counter file_path = Some r ->
  d !! r = None.
Proof.
  revert counter file_path. induction fuel as [|fuel IH]; intros counter file_path; cbn.
  - unfold exists_on. case_bool_decide as He; [done|]. intros [= <-].
    by apply eq_None_not_Some.
  - unfold exists_on. case_bool_decide as He; [apply IH|]. intros [= <-].
    by apply eq_None_not_Some.
Qed.

Lemma free_path_first fuel d dir base_name ext counter file_path :
  d !! file_path = None ->
  free_path fuel d dir base_name ext counter file_path = Some file_path.
Proof.
  intros Hfree. destruct fuel; cbn; unfold exists_on;
    rewrite bool_decide_eq_false_2; try done; rewrite Hfree; by intros [? ?].
Qed.

Lemma free_path_delete fuel d dir base_name ext counter q :
  (forall k, counter <= k -> candidate dir base_name ext k ≠ q) ->
  free_path fuel (delete q d) dir base_name ext (counter + 1)
            (candidate dir base_name ext counter)
  = free_path fuel d dir base_name ext (counter + 1)
              (candidate dir base_name ext counter).
Proof.
  revert counter. induction fuel as [|fuel IH]; intros counter Hq; cbn [free_path].
  - unfold exists_on. rewrite lookup_delete_ne by (apply not_eq_sym, Hq; lia). done.
  - unfold exists_on. rewrite lookup_delete_ne by (apply not_eq_sym, Hq; lia).
    case_bool_decide; [|done]. fold (candidate dir base_name ext (counter + 1)).
    apply IH. intros k Hk. apply Hq. lia.
Qed.

Lemma free_path_candidates fuel d dir base_name ext counter :
  (size d <= fuel)%nat ->
  is_Some (free_path fuel d dir base_name ext (counter + 1)
                     (candidate dir base_name ext counter)).
Proof.
  revert d counter. induction fuel as [|fuel IH]; intros d counter Hsize.
  - assert (d = ∅) as -> by (apply map_size_empty_iff; lia).
    rewrite free_path_first; [done|apply lookup_empty].
  - cbn [free_path]. unfold exists_on. case_bool_decide as He; [|done].
    fold (candidate dir base_name ext (counter + 1)).
    rewrite <- (free_path_delete _ _ _ _ _ _ (candidate dir base_name ext counter)).
    + apply IH. destruct He as [x Hx]. rewrite map_size_delete, Hx. lia.
    + intros k Hk Heq. apply candidate_inj in Heq. lia.
Qed.

Lemma free_path_total fuel d dir base_name ext file_path :
  (size d < fuel)%nat ->
  exists r,
    free_path fuel d dir base_name ext 1 file_path = Some r
    /\ d !! r = None
    /\ (d !! file_path = None -> r = file_path).
Proof.
  intros Hsize.
  assert (is_Some (free_path fuel d dir base_name ext 1 file_path)) as [r Hr].
  { destruct fuel as [|fuel]; [lia|]. cbn [free_path].
    destruct (exists_on d file_path); [|done].
    apply (free_path_candidates fuel d dir base_name ext 1). lia. }
  exists r. split; [done|]. split; [by eapply free_path_not_exists|].
  intros Hfree. rewrite free_path_first in Hr by done. congruence.
Qed.

Lemma _save_complete_file_spec (fuel : nat) (w : World) (state : FileTransferState.t) :
  (size (disk w) < fuel)%nat ->
  exists file_path,
    _save_complete_file fuel w state
    = Some (mkWorld (manager w) (<[file_path := assemble state]> (disk w))
              (fired w ++ ((λ cb, (cb, filename state, file_path))
                             <$> seq 0 (completion_callbacks (manager w)))))
    /\ disk w !! file_path = None
    /\ (disk w !! OsPath.join (save_directory (manager w)) (filename state) = None ->
        file_path = OsPath.join (save_directory (manager w)) (filename state)).
Proof.
  intros Hsize. unfold _save_complete_file.
  set (p := OsPath.join _ _). unfold exists_on. case_bool_decide as He.
  - destruct (OsPath.splitext (filename state)) as [base_name ext].
    destruct (free_path_total fuel (disk w) (save_directory (manager w))
                base_name ext p Hsize) as (r & -> & Hr & Hp).
    exists r. done.
  - exists p. split; [done|]. split; [by apply eq_None_not_Some|done].
Qed.

(** ** The path the file is written to *)






Section PathSearch.

(** [os.path.exists], as the file system answers it while the search runs:
    for files, for directories and for whatever else a path may name. *)
Variable path_exists : string -> bool.

(** The loop [while os.path.exists(file_path): ...]; [None] when [fuel]
    iterations were not enough. *)
Fixpoint free_path_on (fuel : nat) (dir base_name ext : string) (counter : Z)
    (file_path : string) : option string :=
  if path_exists file_path then
    match fuel with
    | O => None
    | S fuel =>
      free_path_on fuel dir base_name ext (counter + 1)
        (OsPath.join dir (base_name ++ "_" ++ pretty counter ++ ext))
    end
  else Some file_path.

(** The path [_save_complete_file] settles on before it opens the file. *)
Definition save_file_path_on (fuel : nat) (dir filename : string) : option string :=
  let file_path := OsPath.join dir filename in
  if path_exists file_path then
    let '(base_name, ext) := OsPath.splitext filename in
    free_path_on fuel dir base_name ext 1 file_path
  else Some file_path.

Lemma free_path_on_free fuel dir base_name ext counter file_path r :
  free_path_on fuel dir base_name ext counter file_path = Some r ->
  path_exists r = false.
Proof.
  revert counter file_path. induction fuel as [|fuel IH]; intros counter file_path;
    cbn [free_path_on]; destruct (path_exists file_path) eqn:He; try done;
    try (by intros [= <-]).
  apply IH.
Qed.

Lemma free_path_on_least fuel dir base_name ext counter k :
  counter <= k ->
  (forall j, counter <= j < k -> path_exists (candidate dir base_name ext j) = true) ->
  path_exists (candidate dir base_name ext k) = false ->
  free_path_on fuel dir base_name ext (counter + 1) (candidate dir base_name ext counter)
  = if decide (Z.to_nat (k - counter) <= fuel)%nat
    then Some (candidate dir base_name ext k) else None.
Proof.
  revert counter. induction fuel as [|fuel IH]; intros counter Hk Hall Hfree;
    cbn [free_path_on]; destruct (decide (counter = k)) as [->|Hne].
  - rewrite Hfree. rewrite decide_True by lia. done.
  - rewrite Hall by lia. rewrite decide_False by lia. done.
  - rewrite Hfree. rewrite decide_True by lia. done.
  - rewrite Hall by lia. fold (candidate dir base_name ext (counter + 1)).
    rewrite IH; [|lia|intros j Hj; apply Hall; lia|done].
    destruct (decide _), (decide _); try done; lia.
Qed.



(** X26: The search for a free name at the start of [_save_complete_file]
    never settles on a path that exists.  It settles on the directory joined
    with the announced name when that path does not exist; when it exists
    and [base_k+ext] is the first numbered variant that does not, for some
    [k >= 1], the search settles on that variant after exactly [k] turns of
    the loop ([fuel] bounds the turns). *)
Theorem save_file_path_first_free (fuel : nat) (dir filename : string) :
  let first := OsPath.join dir filename in
  let base_name := (OsPath.splitext filename).1 in
  let ext := (OsPath.splitext filename).2 in
  (forall file_path, save_file_path_on fuel dir filename = Some file_path ->
     path_exists file_path = false)
  /\ (path_exists first = false -> save_file_path_on fuel dir filename = Some first)
  /\ (forall k, 1 <= k ->
        path_exists first = true ->
        (forall j, 1 <= j < k -> path_exists (candidate dir base_name ext j) = true) ->
        path_exists (candidate dir base_name ext k) = false ->
        ((Z.to_nat k <= fuel)%nat ->
           save_file_path_on fuel dir filename = Some (candidate dir base_name ext k))
        /\ ((fuel < Z.to_nat k)%nat -> save_file_path_on fuel dir filename = None)).
Proof.
  cbn zeta. unfold save_file_path_on.
  destruct (OsPath.splitext filename) as [base_name ext]. cbn [fst snd].
  set (first := OsPath.join dir filename). split; [|split].
  - intros file_path. destruct (path_exists first) eqn:He.
    + apply free_path_on_free.
    + by intros [= <-].
  - by intros ->.
  - intros k Hk Hfirst Hall Hfree. rewrite Hfirst.
    assert (forall fuel0,
              free_path_on (S fuel0) dir base_name ext 1 first
              = if decide (Z.to_nat (k - 1) <= fuel0)%nat
                then Some (candidate dir base_name ext k) else None) as Hturns.
    { intros fuel0. cbn [free_path_on]. rewrite Hfirst.
      fold (candidate dir base_name ext 1).
      apply (free_path_on_least fuel0 dir base_name ext 1 k); [lia|done..]. }
    destruct fuel as [|fuel0].
    + split; [lia|]. intros _. cbn [free_path_on]. by rewrite Hfirst.
    + rewrite Hturns. split; intros Hfuel.
      * rewrite decide_True by lia. done.
      * rewrite decide_False by lia. done.
Qed.


End PathSearch.

Lemma free_path_free_path_on fuel d dir base_name ext counter file_path :
  free_path fuel d dir base_name ext counter file_path
  = free_path_on (exists_on d) fuel dir base_name ext counter file_path.
Proof.
  revert counter file_path. induction fuel as [|fuel IH]; intros counter file_path;
    cbn [free_path free_path_on]; [done|].
  destruct (exists_on d file_path); [|done]. apply IH.
Qed.

(** [_save_complete_file] opens the path of that search, with the disk
    answering [os.path.exists]. *)
Lemma _save_complete_file_path (fuel : nat) (w : World) (state : FileTransferState.t) :
  _save_complete_file fuel w state
  = (file_path ← save_file_path_on (exists_on (disk w)) fuel
                   (save_directory (manager w)) (filename state);
     Some (mkWorld (manager w) (<[file_path := assemble state]> (disk w))
             (fired w ++ ((λ cb, (cb, filename state, file_path))
                            <$> seq 0 (completion_callbacks (manager w)))))).
Proof.
  unfold _save_complete_file, save_file_path_on. cbn zeta.
  destruct (exists_on (disk w) _); [|done].
  destruct (OsPath.splitext (filename state)) as [base_name ext].
  by rewrite free_path_free_path_on.
Qed.

(** ** Sending side ([prepare_file_for_transfer]) *)

(** [FileTransferManager.CHUNK_SIZE] *)
Definition CHUNK_SIZE : Z := 64 * 1024.

(** [os.path.basename(p)]: what follows the last [/]. *)
Definition basename (p : string) : string :=
  let i := Z.to_nat (OsPath.rfind "/" p + 1) in
  substring i (String.length p - i) p.

(** What [prepare_file_for_transfer] gives: the list it returns, or the
    [FileNotFoundError] it raises. *)
Inductive Prepared :=
| FileNotFoundError
| Chunks (chunks : list FileChunk.t).

(** [chunk.total_chunks = total_chunks] *)
Definition set_total_chunks (total_chunks : Z) (chunk : FileChunk.t) : FileChunk.t :=
  FileChunk.mk (FileChunk.file_id chunk) (FileChunk.filename chunk)
               (FileChunk.chunk_index chunk) total_chunks
               (FileChunk.data chunk) (FileChunk.file_size chunk).

(** The outcomes of a sequence of [process_chunk] calls, as in the loop
    [for chunk in chunks: manager.process_chunk(chunk)]: an exception ends
    the loop. *)
Fixpoint process_all (process : World -> FileChunk.t -> option (World * Outcome))
    (w : World) (chunks : list FileChunk.t) : option (World * list Outcome) :=
  match chunks with
  | [] => Some (w, [])
  | chunk :: chunks =>
    '(w, o) ← process w chunk;
    match o with
    | Raised _ => Some (w, [o])
    | Returned _ =>
      '(w, os) ← process_all process w chunks; Some (w, o :: os)
    end
  end.

Section Transfer.

(** [base64.b64encode(..).decode('utf-8')] and [base64.b64decode]. *)
Variable b64encode : list byte -> string.
Variable b64decode : string -> option (list byte).

(** [hashlib.sha256(f"{filename}{file_size}".encode()).hexdigest()[:16]] *)
Variable file_id_of : string -> Z -> string.

(** Decoding gives back what was encoded. *)
Hypothesis b64decode_b64encode : forall b, b64decode (b64encode b) = Some b.

(** The loop [while True: chunk_data = f.read(CHUNK_SIZE) ...] over what is
    left of the file; [None] when [fuel] iterations were not enough. *)
Fixpoint read_loop (fuel : nat) (file_id filename : string) (file_size : Z)
    (rest : list byte) (chunk_index : Z) : option (list FileChunk.t) :=
  let chunk_data := take (Z.to_nat CHUNK_SIZE) rest in
  if decide (chunk_data = []) then Some []
  else
    match fuel with
    | O => None
    | S fuel =>
      let encoded_data := b64encode chunk_data in
      let chunk :=
        FileChunk.mk file_id filename chunk_index 0 encoded_data file_size in
      chunks ← read_loop fuel file_id filename file_size
                 (drop (Z.to_nat CHUNK_SIZE) rest) (chunk_index + 1);
      Some (chunk :: chunks)
    end.

(** [prepare_file_for_transfer(file_path)] on the files of [disk]. *)
Definition prepare_file_for_transfer (fuel : nat) (disk : gmap string (list byte))
    (file_path : string) : option Prepared :=
  match disk !! file_path with
  | None => Some FileNotFoundError
  | Some content =>
    let file_size := Z.of_nat (length content) in
    let filename := basename file_path in
    let file_id := file_id_of filename file_size in
    chunks ← read_loop fuel file_id filename file_size content 0;
    let total_chunks := Z.of_nat (length chunks) in
    Some (Chunks (set_total_chunks total_chunks <$> chunks))
  end.

(** The bytes of the [k]-th chunk of [content]. *)
Definition piece (content : list byte) (k : nat) : list byte :=
  take (Z.to_nat CHUNK_SIZE) (drop (k * Z.to_nat CHUNK_SIZE) content).

(** The number of chunks of a file of [len] bytes. *)
Definition chunk_count (len : nat) : nat :=
  Z.to_nat ((Z.of_nat len + CHUNK_SIZE - 1) / CHUNK_SIZE).

Lemma CHUNK_SIZE_pos : 0 < CHUNK_SIZE.
Proof. reflexivity. Qed.

Lemma chunk_count_0 : chunk_count 0 = 0%nat.
Proof. reflexivity. Qed.

Opaque CHUNK_SIZE.

Lemma chunk_count_S (len : nat) :
  (0 < len)%nat ->
  chunk_count len = S (chunk_count (len - Z.to_nat CHUNK_SIZE)).
Proof.
  intros Hlen. unfold chunk_count. pose proof CHUNK_SIZE_pos as Hpos.
  set (N := CHUNK_SIZE) in *.
  rewrite <- Z2Nat.inj_succ by (apply Z.div_pos; lia). f_equal.
  destruct (decide (Z.of_nat len <= N)) as [Hle|Hgt].
  - replace (Z.of_nat (len - Z.to_nat N)) with 0 by lia.
    rewrite (Z.div_small (0 + N - 1)) by lia.
    assert ((Z.of_nat len + N - 1) / N = 1) as ->; [|done].
    symmetry. apply (Z.div_unique _ _ 1 (Z.of_nat len - 1)); lia.
  - replace (Z.of_nat (len - Z.to_nat N)) with (Z.of_nat len - N) by lia.
    replace (Z.of_nat len + N - 1) with ((Z.of_nat len - N + N - 1) + 1 * N) by lia.
    rewrite Z.div_add by lia. lia.
Qed.

Lemma piece_S (content : list byte) (k : nat) :
  piece content (S k) = piece (drop (Z.to_nat CHUNK_SIZE) content) k.
Proof.
  unfold piece. by rewrite drop_drop.
Qed.

Lemma read_loop_spec (fuel : nat) (file_id filename : string) (file_size : Z)
    (rest : list byte) (chunk_index : Z) :
  (length rest < fuel)%nat ->
  read_loop fuel file_id filename file_size rest chunk_index
  = Some ((λ k, FileChunk.mk file_id filename (chunk_index + Z.of_nat k) 0
                  (b64encode (piece rest k)) file_size)
            <$> seq 0 (chunk_count (length rest))).
Proof.
  revert rest chunk_index.
  induction fuel as [|fuel IH]; intros rest chunk_index Hlen; [lia|].
  pose proof CHUNK_SIZE_pos as Hpos.
  cbn [read_loop]. destruct rest as [|b rest].
  { rewrite take_nil. rewrite decide_True by done. done. }
  rewrite decide_False.
  2:{ destruct (Z.to_nat CHUNK_SIZE) eqn:E; [lia|done]. }
  rewrite IH by (rewrite length_drop; cbn [length] in *; lia).
  cbn [mbind option_bind]. f_equal.
  rewrite (chunk_count_S (length (b :: rest))) by (cbn [length]; lia).
  rewrite length_drop. cbn [seq fmap list_fmap]. apply (f_equal2 cons).
  - change (Z.of_nat 0) with 0. rewrite Z.add_0_r. unfold piece.
    rewrite Nat.mul_0_l. reflexivity.
  - rewrite <- fmap_S_seq, <- list_fmap_compose. apply list_fmap_ext.
    intros i k _. cbn [compose]. rewrite piece_S.
    replace (chunk_index + 1 + Z.of_nat k) with (chunk_index + Z.of_nat (S k)) by lia.
    reflexivity.
Qed.

Lemma pieces_join (content : list byte) (m : nat) :
  (length content <= m * Z.to_nat CHUNK_SIZE)%nat ->
  mjoin (piece content <$> seq 0 m) = content.
Proof.
  revert content. induction m as [|m IH]; intros content Hlen.
  - destruct content; [done|cbn in Hlen; lia].
  - cbn [seq fmap list_fmap mjoin list_join]. rewrite <- fmap_S_seq, <- list_fmap_compose.
    assert ((piece content ∘ S) <$> seq 0 m
            = piece (drop (Z.to_nat CHUNK_SIZE) content) <$> seq 0 m) as ->.
    { apply list_fmap_ext. intros i k _. apply piece_S. }
    rewrite IH by (rewrite length_drop; lia).
    unfold piece. rewrite Nat.mul_0_l. cbn [drop]. apply take_drop.
Qed.

Lemma chunk_count_covers (len : nat) :
  (len <= chunk_count len * Z.to_nat CHUNK_SIZE)%nat.
Proof.
  unfold chunk_count. pose proof CHUNK_SIZE_pos as Hpos.
  set (N := CHUNK_SIZE) in *.
  assert (0 <= (Z.of_nat len + N - 1) / N) by (apply Z.div_pos; lia).
  assert (Z.of_nat len <= (Z.of_nat len + N - 1) / N * N); [|nia].
  pose proof (Z.div_mod (Z.of_nat len + N - 1) N ltac:(lia)).
  pose proof (Z.mod_pos_bound (Z.of_nat len + N - 1) N ltac:(lia)). nia.
Qed.

(** The chunk list of [content], stored under [file_path]. *)
Definition chunks_of (file_path : string) (content : list byte) : list FileChunk.t :=
  let file_size := Z.of_nat (length content) in
  (λ k, FileChunk.mk (file_id_of (basename file_path) file_size) (basename file_path)
          (Z.of_nat k) (Z.of_nat (chunk_count (length content)))
          (b64encode (piece content k)) file_size)
    <$> seq 0 (chunk_count (length content)).

Lemma prepare_file_for_transfer_spec (fuel : nat) (disk : gmap string (list byte))
    (file_path : string) (content : list byte) :
  disk !! file_path = Some content ->
  (length content < fuel)%nat ->
  prepare_file_for_transfer fuel disk file_path
  = Some (Chunks (chunks_of file_path content)).
Proof.
  intros Hfile Hfuel. unfold prepare_file_for_transfer. rewrite Hfile.
  rewrite read_loop_spec by done. cbn [mbind option_bind]. do 2 f_equal.
  rewrite length_fmap, length_seq, <- list_fmap_compose. unfold chunks_of.
  apply list_fmap_ext. intros i k _. cbn. unfold set_total_chunks. cbn.
  f_equal.
Qed.

(** X24: A file that exists is cut into [ceil(size / CHUNK_SIZE)] chunks (none
    for an empty file): chunk [k] carries the index [k], the count of all
    chunks, the name and size of the file and the base64 of the [k]-th run
    of [CHUNK_SIZE] bytes; the runs put end to end are the file.  A path
    that does not exist raises [FileNotFoundError]. *)
Theorem prepare_file_for_transfer_chunks
    (fuel : nat) (disk : gmap string (list byte)) (file_path : string) :
  (forall content, disk !! file_path = Some content -> (length content < fuel)%nat) ->
  match disk !! file_path with
  | None => prepare_file_for_transfer fuel disk file_path = Some FileNotFoundError
  | Some content =>
    exists chunks,
      prepare_file_for_transfer fuel disk file_path = Some (Chunks chunks)
      /\ Z.of_nat (length chunks)
         = (Z.of_nat (length content) + CHUNK_SIZE - 1) / CHUNK_SIZE
      /\ (forall k chunk, chunks !! k = Some chunk ->
            chunk
            = FileChunk.mk
                (file_id_of (basename file_path) (Z.of_nat (length content)))
                (basename file_path) (Z.of_nat k) (Z.of_nat (length chunks))
                (b64encode (take (Z.to_nat CHUNK_SIZE)
                                 (drop (k * Z.to_nat CHUNK_SIZE) content)))
                (Z.of_nat (length content)))
      /\ mjoin ((λ k, take (Z.to_nat CHUNK_SIZE)
                           (drop (k * Z.to_nat CHUNK_SIZE) content))
                  <$> seq 0 (length chunks)) = content
  end.
Proof.
  intros Hfuel. destruct (disk !! file_path) as [content|] eqn:Hfile.
  2:{ unfold prepare_file_for_transfer. by rewrite Hfile. }
  exists (chunks_of file_path content).
  split; [by apply prepare_file_for_transfer_spec; [|apply Hfuel]|].
  assert (length (chunks_of file_path content) = chunk_count (length content)) as Hlen.
  { unfold chunks_of. by rewrite length_fmap, length_seq. }
  rewrite Hlen. split.
  { unfold chunk_count. rewrite Z2Nat.id; [done|].
    pose proof CHUNK_SIZE_pos. apply Z.div_pos; lia. }
  split.
  - intros k chunk Hk. unfold chunks_of in Hk.
    apply list_lookup_fmap_Some in Hk as (k' & -> & Hk').
    apply lookup_seq in Hk' as [-> _]. done.
  - apply (pieces_join content), chunk_count_covers.
Qed.

(** ** A whole transfer *)

Section Run.

(** The chunks of one transfer: [bytes_of k] are the bytes of chunk [k]. *)
Variables (fid fname : string) (n fsize : Z) (bytes_of : nat -> list byte).

Definition chunk_of (k : nat) : FileChunk.t :=
  FileChunk.mk fid fname (Z.of_nat k) n (b64encode (bytes_of k)) fsize.

(** [received_chunks] after the chunks [ks] have been stored into [m]. *)
Definition fill (m : gmap Z (list byte)) (ks : list nat) : gmap Z (list byte) :=
  foldl (λ m k, <[Z.of_nat k := bytes_of k]> m) m ks.

(** The receiver has stored the chunks of [m] and has not completed. *)
Definition pending (w : World) (m : gmap Z (list byte)) : Prop :=
  (transfer_states (manager w) !! fid = None /\ m = ∅)
  \/ transfer_states (manager w) !! fid
     = Some (FileTransferState.mk fid fname n m fsize false).

Lemma process_chunk_step (fuel : nat) (w : World) (m : gmap Z (list byte)) (k : nat) :
  n ≠ 0 ->
  pending w m ->
  process_chunk b64decode fuel w (chunk_of k)
  = let m' := <[Z.of_nat k := bytes_of k]> m in
    let state := FileTransferState.mk fid fname n m' fsize false in
    let w1 := with_states (<[fid := state]> (transfer_states (manager w))) w in
    if Z.of_nat (size m') =? n then
      w2 ← _save_complete_file fuel w1 state;
      Some (with_states (<[fid := set_complete state]> (transfer_states (manager w2))) w2,
            Returned true)
    else Some (w1, Returned false).
Proof.
  intros Hn Hp. unfold process_chunk, chunk_of.
  cbn [FileChunk.file_id FileChunk.filename FileChunk.total_chunks FileChunk.data
       FileChunk.file_size FileChunk.chunk_index].
  rewrite b64decode_b64encode.
  assert ((n =? 0) = false) as Hz by (by apply Z.eqb_neq).
  destruct Hp as [[-> ->]| ->]; unfold store_chunk;
    cbn [file_id filename total_chunks received_chunks file_size complete];
    rewrite Hz; [by rewrite insert_insert_eq|done].
Qed.

Lemma process_all_complete (fuel : nat) (ks : list nat) :
  forall (w : World) (m : gmap Z (list byte)),
  n ≠ 0 ->
  pending w m ->
  NoDup ks ->
  (forall k, k ∈ ks -> m !! Z.of_nat k = None) ->
  ks ≠ [] ->
  Z.of_nat (size m + length ks) = n ->
  (size (disk w) < fuel)%nat ->
  exists w' file_path,
    process_all (process_chunk b64decode fuel) w (chunk_of <$> ks)
    = Some (w', (replicate (length ks - 1) (Returned false) ++ [Returned true])%list)
    /\ disk w !! file_path = None
    /\ disk w'
       = <[file_path := assemble (FileTransferState.mk fid fname n (fill m ks) fsize false)]>
           (disk w)
    /\ fired w'
       = (fired w ++ ((λ cb, (cb, fname, file_path))
                        <$> seq 0 (completion_callbacks (manager w))))%list
    /\ (disk w !! OsPath.join (save_directory (manager w)) fname = None ->
        file_path = OsPath.join (save_directory (manager w)) fname)
    /\ (complete <$> transfer_states (manager w') !! fid) = Some true.
Proof.
  induction ks as [|k ks IH]; intros w m Hn Hp Hnd Hnew Hne Htotal Hfuel; [done|].
  apply NoDup_cons in Hnd as [Hk Hnd].
  assert (size (<[Z.of_nat k := bytes_of k]> m) = S (size m)) as Hsize.
  { apply map_size_insert_None, Hnew. by left. }
  cbn [fmap list_fmap process_all]. rewrite (process_chunk_step fuel w m k Hn Hp).
  cbn zeta. rewrite Hsize.
  set (m' := <[Z.of_nat k := bytes_of k]> m).
  set (state := FileTransferState.mk fid fname n m' fsize false).
  set (w1 := with_states (<[fid := state]> (transfer_states (manager w))) w).
  destruct ks as [|k2 ks].
  - assert ((Z.of_nat (S (size m)) =? n) = true) as ->.
    { apply Z.eqb_eq. cbn [length] in Htotal. lia. }
    destruct (_save_complete_file_spec fuel w1 state) as (p & -> & Hp1 & Hp2); [done|].
    exists (with_states
              (<[fid := set_complete state]> (transfer_states (manager w1)))
              (mkWorld (manager w1) (<[p := assemble state]> (disk w1))
                 (fired w1 ++ ((λ cb, (cb, filename state, p))
                                 <$> seq 0 (completion_callbacks (manager w1)))))), p.
    cbn. split; [done|]. split; [done|]. split; [done|]. split; [done|].
    split; [done|]. by rewrite lookup_insert_eq.
  - assert ((Z.of_nat (S (size m)) =? n) = false) as ->.
    { apply Z.eqb_neq. cbn [length] in Htotal. lia. }
    cbn [mbind option_bind].
    destruct (IH w1 m') as (w' & p & -> & Hfree & Hdisk & Hfired & Hfirst & Hdone);
      try done.
    + right. unfold w1. cbn. by rewrite lookup_insert_eq.
    + intros k' Hk'. unfold m'. rewrite lookup_insert_ne.
      * apply Hnew. by right.
      * intros Heq. apply Nat2Z.inj in Heq. by subst k'.
    + unfold m'. rewrite Hsize. cbn [length] in *. lia.
    + exists w', p. cbn [mbind option_bind length].
      replace (S (S (length ks)) - 1)%nat with (S (S (length ks) - 1)) by lia.
      split; [done|]. split; [exact Hfree|]. split; [exact Hdisk|].
      split; [exact Hfired|]. split; [exact Hfirst|exact Hdone].
Qed.

Lemma fill_lookup (ks : list nat) (m : gmap Z (list byte)) (j : nat) :
  fill m ks !! Z.of_nat j
  = if decide (j ∈ ks) then Some (bytes_of j) else m !! Z.of_nat j.
Proof.
  revert m. induction ks as [|k ks IH]; intros m; cbn [fill foldl].
  - rewrite decide_False; [done|apply not_elem_of_nil].
  - fold (fill (<[Z.of_nat k := bytes_of k]> m) ks). rewrite IH.
    destruct (decide (j ∈ ks)) as [Hin|Hin].
    + rewrite decide_True; [done|by right].
    + destruct (decide (j = k)) as [->|Hjk].
      * rewrite decide_True by (by left). apply lookup_insert_eq.
      * rewrite decide_False by (intros [?|?]%elem_of_cons; done).
        apply lookup_insert_ne. intros Heq. apply Nat2Z.inj in Heq. done.
Qed.

End Run.

(** X25: The file arrives: every chunk list that [prepare_file_for_transfer]
    produces for a non-empty file, processed in any order by a receiver that
    has no transfer under that id, returns [False] for every chunk but the
    last and [True] for the last.  The receiver then has written exactly the
    bytes of the file, under a path that did not exist ([save_directory] joined
    with the base name of the sent path when that is free), has called each
    completion callback once, and has marked the transfer complete. *)
Theorem file_round_trip
    (fuel_s fuel_r : nat) (src : gmap string (list byte)) (file_path : string)
    (content : list byte) (w : World) :
  src !! file_path = Some content ->
  content ≠ [] ->
  (length content < fuel_s)%nat ->
  transfer_states (manager w)
    !! file_id_of (basename file_path) (Z.of_nat (length content)) = None ->
  (size (disk w) < fuel_r)%nat ->
  exists chunks,
    prepare_file_for_transfer fuel_s src file_path = Some (Chunks chunks)
    /\ forall arrived, arrived ≡ₚ chunks ->
       exists w' saved,
         process_all (process_chunk b64decode fuel_r) w arrived
         = Some (w', (replicate (length arrived - 1) (Returned false)
                      ++ [Returned true])%list)
         /\ disk w !! saved = None
         /\ disk w' = <[saved := content]> (disk w)
         /\ fired w'
            = (fired w ++ ((λ cb, (cb, basename file_path, saved))
                             <$> seq 0 (completion_callbacks (manager w))))%list
         /\ (disk w !! OsPath.join (save_directory (manager w)) (basename file_path)
             = None ->
             saved = OsPath.join (save_directory (manager w)) (basename file_path))
         /\ (complete <$> transfer_states (manager w')
               !! file_id_of (basename file_path) (Z.of_nat (length content)))
            = Some true.
Proof.
  intros Hfile Hne Hfs Hnew Hfr. exists (chunks_of file_path content).
  split; [by apply prepare_file_for_transfer_spec|].
  intros arrived Hperm. unfold chunks_of in Hperm. cbn zeta in Hperm.
  set (fid := file_id_of (basename file_path) (Z.of_nat (length content))) in *.
  set (cnt := chunk_count (length content)) in *.
  change (λ k : nat, FileChunk.mk fid (basename file_path) (Z.of_nat k) (Z.of_nat cnt)
                       (b64encode (piece content k)) (Z.of_nat (length content)))
    with (chunk_of fid (basename file_path) (Z.of_nat cnt) (Z.of_nat (length content))
                   (piece content)) in Hperm.
  apply Permutation_map_inv in Hperm as (ks & -> & Hks).
  assert (0 < cnt)%nat as Hcnt.
  { unfold cnt. rewrite chunk_count_S by (destruct content; [done|cbn; lia]). lia. }
  assert (length ks = cnt) as Hlen by (by rewrite <- Hks, length_seq).
  assert (NoDup ks) as Hnd by (rewrite <- Hks; apply NoDup_seq).
  assert (Z.of_nat cnt ≠ 0) as Hn by lia.
  assert (ks ≠ []) as Hks' by (intros ->; cbn in Hlen; lia).
  assert (Z.of_nat (size (∅ : gmap Z (list byte)) + length ks) = Z.of_nat cnt) as Htot
    by (rewrite map_size_empty; lia).
  destruct (process_all_complete fid (basename file_path) (Z.of_nat cnt)
              (Z.of_nat (length content)) (piece content) fuel_r ks w ∅
              Hn (or_introl (conj Hnew eq_refl)) Hnd
              (λ k _, lookup_empty _) Hks' Htot Hfr)
    as (w' & p & Hrun & Hfree & Hdisk & Hfired & Hfirst & Hdone).
  exists w', p. rewrite length_fmap. split; [done|]. split; [done|].
  split; [|done]. rewrite Hdisk. f_equal. unfold assemble.
    cbn [total_chunks received_chunks]. unfold seqZ. rewrite Nat2Z.id.
    rewrite <- list_fmap_compose.
    transitivity (mjoin (piece content <$> seq 0 cnt));
      [|apply pieces_join, chunk_count_covers].
    f_equal. apply list_fmap_ext. intros i k Hk. cbn [compose].
    rewrite Z.add_0_r, fill_lookup. rewrite decide_True; [done|].
    rewrite <- Hks. apply elem_of_seq. apply lookup_seq in Hk. lia.
Qed.

(** ** What the receiver does not check *)

(** [get_transfer_progress(file_id)]: [Some None] is the returned [None],
    [Some (Some q)] a returned ratio and [None] the [ZeroDivisionError] of the
    division. *)
Definition get_transfer_progress (w : World) (file_id : string) : option (option Q) :=
  match transfer_states (manager w) !! file_id with
  | None => Some None
  | Some state =>
    if total_chunks state =? 0 then None
    else Some (Some (inject_Z (Z.of_nat (size (received_chunks state)))
                     / inject_Z (total_chunks state))%Q)
  end.

(** The transfer [file_id] was opened with [total_chunks = 0]. *)
Definition stuck (w : World) (file_id : string) : Prop :=
  exists state,
    transfer_states (manager w) !! file_id = Some state
    /\ total_chunks state = 0 /\ complete state = false.

Lemma process_chunk_stuck (fuel : nat) (w : World) (chunk : FileChunk.t) (fid : string) :
  stuck w fid ->
  (forall w' o, process_chunk b64decode fuel w chunk = Some (w', o) -> stuck w' fid)
  /\ (FileChunk.file_id chunk = fid ->
      exists w' e,
        process_chunk b64decode fuel w chunk = Some (w', Raised e)
        /\ disk w' = disk w /\ fired w' = fired w).
Proof.
  intros (state & Hst & Hzero & Hc). split.
  - intros w' o. unfold process_chunk.
    destruct (decide (FileChunk.file_id chunk = fid)) as [->|Hne].
    + rewrite Hst. destruct (b64decode _) as [cd|].
      2:{ intros [= <- <-]. by exists state. }
      unfold store_chunk. cbn [total_chunks]. rewrite Hzero. cbn [Z.eqb].
      intros [= <- <-]. eexists. cbn. rewrite lookup_insert_eq. done.
    + set (fid' := FileChunk.file_id chunk) in *.
      destruct (match transfer_states (manager w) !! fid' with
                | Some s => (transfer_states (manager w), s)
                | None => _
                end) as [states s] eqn:Hs.
      assert (states !! fid = Some state) as Hst'.
      { destruct (transfer_states (manager w) !! fid'); injection Hs as <- <-;
          [done|by rewrite lookup_insert_ne]. }
      destruct (b64decode _) as [cd|].
      2:{ intros [= <- <-]. by exists state. }
      destruct (_ =? 0).
      { intros [= <- <-]. exists state. cbn. by rewrite lookup_insert_ne. }
      destruct (_ =? _).
      2:{ intros [= <- <-]. exists state. cbn. by rewrite lookup_insert_ne. }
      unfold _save_complete_file.
      destruct (if exists_on _ _ then _ else _) as [p|]; [|done].
      cbn. intros [= <- <-]. exists state. cbn. by rewrite !lookup_insert_ne.
  - intros <-. unfold process_chunk. rewrite Hst.
    destruct (b64decode _) as [cd|].
    + unfold store_chunk. cbn [total_chunks]. rewrite Hzero. cbn [Z.eqb].
      by eexists _, _.
    + by eexists _, _.
Qed.

(** X28: A first chunk that announces [total_chunks = 0] opens a transfer that
    can never complete: the call raises [ZeroDivisionError] after the state
    has been stored, and from then on every chunk for that id raises as well
    without writing a file or calling a callback, [get_transfer_progress]
    raises too, and no later call for any id changes that. *)
Theorem zero_total_chunks_blocks_transfer
    (fuel : nat) (w : World) (chunk : FileChunk.t) (chunk_data : list byte) :
  transfer_states (manager w) !! FileChunk.file_id chunk = None ->
  FileChunk.total_chunks chunk = 0 ->
  b64decode (FileChunk.data chunk) = Some chunk_data ->
  exists w1,
    process_chunk b64decode fuel w chunk = Some (w1, Raised ZeroDivisionError)
    /\ stuck w1 (FileChunk.file_id chunk)
    /\ forall w2, stuck w2 (FileChunk.file_id chunk) ->
         get_transfer_progress w2 (FileChunk.file_id chunk) = None
         /\ (forall fuel' chunk',
               FileChunk.file_id chunk' = FileChunk.file_id chunk ->
               exists w3 e,
                 process_chunk b64decode fuel' w2 chunk' = Some (w3, Raised e)
                 /\ disk w3 = disk w2 /\ fired w3 = fired w2)
         /\ (forall fuel' chunk' w3 o,
               process_chunk b64decode fuel' w2 chunk' = Some (w3, o) ->
               stuck w3 (FileChunk.file_id chunk)).
Proof.
  intros Hnew Hzero Hdec. eexists. split; [|split].
  - unfold process_chunk. rewrite Hnew, Hdec. unfold store_chunk.
    cbn [total_chunks]. rewrite Hzero. cbn [Z.eqb]. reflexivity.
  - eexists. cbn. rewrite lookup_insert_eq. done.
  - intros w2 Hstuck. split; [|split].
    + destruct Hstuck as (state & Hst & Hz & _). unfold get_transfer_progress.
      by rewrite Hst, Hz.
    + intros fuel' chunk' Hid.
      by apply (proj2 (process_chunk_stuck fuel' w2 chunk' _ Hstuck)).
    + intros fuel' chunk'.
      apply (proj1 (process_chunk_stuck fuel' w2 chunk' _ Hstuck)).
Qed.

Transparent CHUNK_SIZE.

End Transfer.

(** ** A one-chunk transfer whose chunk arrives twice *)

Definition standin_process : nat -> World -> FileChunk.t -> option (World * Outcome) :=
  process_chunk Crypto.standin_b64decode.

(** A fresh manager with one registered completion callback and an empty
    [./received_files]. *)
Definition fresh_world : World :=
  mkWorld (mkManager "./received_files" ∅ 1) ∅ [].

(** The only chunk of the two-byte file [a.txt]. *)
Definition only_chunk : FileChunk.t := FileChunk.mk "f1" "a.txt" 0 1 "hi" 2.

Definition after_first : World :=
  default fresh_world (fst <$> standin_process 1 fresh_world only_chunk).

Definition after_second : World :=
  default fresh_world (fst <$> standin_process 1 after_first only_chunk).

(** C2, at the failing input: the only chunk of a one-chunk file is processed
    twice.  The first call completes the transfer, writes [a.txt] and fires
    the callback; the second call, on the same chunk, completes it again: it
    writes a second file [a_1.txt], fires the callback a second time and
    returns [True] again. *)
Theorem duplicate_after_completion_resaves :
  standin_process 1 fresh_world only_chunk = Some (after_first, Returned true)
  /\ standin_process 1 after_first only_chunk = Some (after_second, Returned true)
  /\ (complete <$> transfer_states (manager after_first) !! "f1") = Some true
  /\ fired after_first = [(0%nat, "a.txt", "./received_files/a.txt")]
  /\ fired after_second = [(0%nat, "a.txt", "./received_files/a.txt");
                           (0%nat, "a.txt", "./received_files/a_1.txt")]
  /\ disk after_first = {["./received_files/a.txt" := [x68; x69]]}
  /\ disk after_second
     = <["./received_files/a_1.txt" := [x68; x69]]> (disk after_first)
  /\ after_second ≠ after_first.
Proof.
  assert (fired after_second = [(0%nat, "a.txt", "./received_files/a.txt");
                                (0%nat, "a.txt", "./received_files/a_1.txt")]) as Hf
    by (vm_compute; reflexivity).
  do 7 (split; [vm_compute; reflexivity|]).
  intros Heq. rewrite Heq in Hf. vm_compute in Hf. discriminate Hf.
Qed.

(** ** Instances of the further properties *)

(** The first chunk of a two-chunk file arrives twice. *)
Definition first_of_two : FileChunk.t := FileChunk.mk "f2" "b.txt" 0 2 "hi" 4.

Definition after_first_of_two : World :=
  default fresh_world (fst <$> standin_process 1 fresh_world first_of_two).

Lemma duplicate_before_completion_noop_witness :
  standin_process 1 after_first_of_two first_of_two
  = Some (after_first_of_two, Returned false).
Proof.
  apply (duplicate_before_completion_noop Crypto.standin_b64decode 1 fresh_world
           first_of_two after_first_of_two).
  vm_compute. reflexivity.
Defined.

(** A stand-in for the hash that names a transfer, and the sender's disk
    with a two-byte file. *)
Definition standin_file_id (filename : string) (file_size : Z) : string :=
  filename ++ "#" ++ pretty file_size.

Definition sender_disk : gmap string (list byte) := {["/home/a.txt" := [x68; x69]]}.

Lemma prepare_file_for_transfer_chunks_witness :
  exists chunks,
    prepare_file_for_transfer Crypto.standin_b64encode standin_file_id 3
                              sender_disk "/home/a.txt"
    = Some (Chunks chunks)
    /\ Z.of_nat (length chunks) = (Z.of_nat 2 + CHUNK_SIZE - 1) / CHUNK_SIZE
    /\ (forall k chunk, chunks !! k = Some chunk ->
          chunk
          = FileChunk.mk (standin_file_id (basename "/home/a.txt") (Z.of_nat 2))
              (basename "/home/a.txt") (Z.of_nat k) (Z.of_nat (length chunks))
              (Crypto.standin_b64encode
                 (take (Z.to_nat CHUNK_SIZE)
                       (drop (k * Z.to_nat CHUNK_SIZE) [x68; x69])))
              (Z.of_nat 2))
    /\ mjoin ((λ k, take (Z.to_nat CHUNK_SIZE)
                         (drop (k * Z.to_nat CHUNK_SIZE) [x68; x69]))
                <$> seq 0 (length chunks)) = [x68; x69].
Proof.
  apply (prepare_file_for_transfer_chunks Crypto.standin_b64encode standin_file_id 3
           sender_disk "/home/a.txt").
  intros content Hc. vm_compute in Hc. injection Hc as <-. cbn. lia.
Defined.

Lemma file_round_trip_witness :
  exists chunks,
    prepare_file_for_transfer Crypto.standin_b64encode standin_file_id 3
                              sender_disk "/home/a.txt"
    = Some (Chunks chunks)
    /\ forall arrived, arrived ≡ₚ chunks ->
       exists w' saved,
         process_all (standin_process 1) fresh_world arrived
         = Some (w', (replicate (length arrived - 1) (Returned false)
                      ++ [Returned true])%list)
         /\ disk fresh_world !! saved = None
         /\ disk w' = <[saved := [x68; x69]]> (disk fresh_world)
         /\ fired w'
            = (fired fresh_world
               ++ ((λ cb, (cb, basename "/home/a.txt", saved))
                     <$> seq 0 (completion_callbacks (manager fresh_world))))%list
         /\ (disk fresh_world
               !! OsPath.join (save_directory (manager fresh_world))
                              (basename "/home/a.txt") = None ->
             saved = OsPath.join (save_directory (manager fresh_world))
                                 (basename "/home/a.txt"))
         /\ (complete <$> transfer_states (manager w')
               !! standin_file_id (basename "/home/a.txt") (Z.of_nat 2))
            = Some true.
Proof.
  apply (file_round_trip Crypto.standin_b64encode Crypto.standin_b64decode
           standin_file_id Crypto.standin_b64_roundtrip 3 1 sender_disk
           "/home/a.txt" [x68; x69] fresh_world).
  - reflexivity.
  - discriminate.
  - cbn. lia.
  - reflexivity.
  - vm_compute. lia.
Defined.

(** A second [a.txt] arrives when the first has been saved: the search
    takes one turn and settles on [a_1.txt]. *)
Lemma save_file_path_first_free_witness :
  save_file_path_on (exists_on (disk after_first)) 1 "./received_files" "a.txt"
  = Some "./received_files/a_1.txt".
Proof.
  refine (proj1 (proj2 (proj2 (save_file_path_first_free
                                 (exists_on (disk after_first)) 1
                                 "./received_files" "a.txt"))
                  1 _ _ _ _) _).
  - lia.
  - vm_compute. reflexivity.
  - intros j Hj. lia.
  - vm_compute. reflexivity.
  - vm_compute. lia.
Defined.


(** A first chunk that announces no chunks at all. *)
Definition zero_chunk : FileChunk.t := FileChunk.mk "f0" "z.txt" 0 0 "hi" 2.

Lemma zero_total_chunks_blocks_transfer_witness :
  exists w1,
    standin_process 1 fresh_world zero_chunk = Some (w1, Raised ZeroDivisionError)
    /\ stuck w1 "f0"
    /\ forall w2, stuck w2 "f0" ->
         get_transfer_progress w2 "f0" = None
         /\ (forall fuel' chunk',
               FileChunk.file_id chunk' = "f0" ->
               exists w3 e,
                 standin_process fuel' w2 chunk' = Some (w3, Raised e)
                 /\ disk w3 = disk w2 /\ fired w3 = fired w2)
         /\ (forall fuel' chunk' w3 o,
               standin_process fuel' w2 chunk' = Some (w3, o) -> stuck w3 "f0").
Proof.
  apply (zero_total_chunks_blocks_transfer Crypto.standin_b64decode 1
           fresh_world zero_chunk [x68; x69]); reflexivity.
Defined.

End FileTransfer.

(* ===================================================================== *)
(** * Link-state routing ([message_router.MessageRouter]) *)
(* ===================================================================== *)

Module RouteInfo.
(** [@dataclass RouteInfo] *)
Record t := mk {
  destination : string;
  next_hop : string;
  hop_count : Z;
  total_latency : Q
}.
End RouteInfo.

Module Router.

(** The router object.  Latencies are [float]s in the source; the model
    computes with exact rationals, which stand for the finite floats.  The
    graph of [update_topology] is a star around the local node, so every
    distance the search records is [0.0 + latency], which floats compute
    exactly. *)
Record MessageRouter := mkRouter {
  routing_table : gmap string RouteInfo.t;
  link_latencies : gmap (string * string) Q
}.

(** [a < b] on numbers. *)
Definition Qltb (a b : Q) : bool :=
  match (a ?= b)%Q with Lt => true | _ => false end.

(** [x < d.get(k, float('inf'))] *)
Definition lt_get_inf (x : Q) (d : option Q) : bool :=
  match d with
  | None => true
  | Some y => Qltb x y
  end.

(** [x > d.get(k, float('inf'))] *)
Definition gt_get_inf (x : Q) (d : option Q) : bool :=
  match d with
  | None => false
  | Some y => Qltb y x
  end.

(** ** The graph of [update_topology] *)

(** [graph[k].append(x)] *)
Definition graph_append (k : string) (x : string * Q)
    (graph : gmap string (list (string * Q))) : gmap string (list (string * Q)) :=
  <[k := (default [] (graph !! k) ++ [x])%list]> graph.

(** [self.link_latencies.get((node_id, other), 1.0)] *)
Definition latency (ll : gmap (string * string) Q) (node_id other : string) : Q :=
  default 1%Q (ll !! (node_id, other)).

(** One iteration of [for node in known_nodes]. *)
Definition add_neighbor (ll : gmap (string * string) Q) (node_id : string)
    (graph : gmap string (list (string * Q))) (node : NodeInfo.t)
    : gmap string (list (string * Q)) :=
  let nid := NodeInfo.node_id node in
  let lat := latency ll node_id nid in
  let graph := graph_append node_id (nid, lat) graph in
  let graph :=
    match graph !! nid with
    | None => <[nid := []]> graph
    | Some _ => graph
    end in
  graph_append nid (node_id, lat) graph.

Definition build_graph (ll : gmap (string * string) Q) (node_id : string)
    (known_nodes : list NodeInfo.t) : gmap string (list (string * Q)) :=
  foldl (add_neighbor ll node_id) (<[node_id := []]> ∅) known_nodes.

(** ** Dijkstra ([_compute_routes]) *)

(** The three dictionaries and the heap.  The heap is kept as the list of
    its entries: [heappush] adds one and [heappop] takes out a least one in
    the order of Python tuples (distance first, then node id). *)
Record Search := mkSearch {
  distances : gmap string Q;
  hop_counts : gmap string Z;
  previous : gmap string (option string);
  pq : list (Q * string)
}.

Definition entry_ltb (a b : Q * string) : bool :=
  match (a.1 ?= b.1)%Q with
  | Lt => true
  | Gt => false
  | Eq => String.ltb a.2 b.2
  end.

(** [heapq.heappop(pq)] *)
Fixpoint heappop (l : list (Q * string)) : option ((Q * string) * list (Q * string)) :=
  match l with
  | [] => None
  | x :: rest =>
    match heappop rest with
    | None => Some (x, [])
    | Some (y, rest') =>
      if entry_ltb y x then Some (y, x :: rest') else Some (x, rest)
    end
  end.

(** [heapq.heappush(pq, x)] *)
Definition heappush (l : list (Q * string)) (x : Q * string) : list (Q * string) :=
  (l ++ [x])%list.

(** The body of [for neighbor, weight in graph.get(current_node, [])]. *)
Definition relax (current_dist : Q) (current_node : string) (s : Search)
    (edge : string * Q) : Search :=
  let '(neighbor, weight) := edge in
  let distance := (current_dist + weight)%Q in
  let hop_count := (hop_counts s !!! current_node) + 1 in
  if lt_get_inf distance (distances s !! neighbor) then
    mkSearch (<[neighbor := distance]> (distances s))
             (<[neighbor := hop_count]> (hop_counts s))
             (<[neighbor := Some current_node]> (previous s))
             (heappush (pq s) (distance, neighbor))
  else s.

(** The loop [while pq]; [None] when [fuel] iterations were not enough. *)
Fixpoint dijkstra_loop (fuel : nat) (graph : gmap string (list (string * Q)))
    (s : Search) : option Search :=
  match heappop (pq s) with
  | None => Some s
  | Some ((current_dist, current_node), rest) =>
    match fuel with
    | O => None
    | S fuel =>
      let s := mkSearch (distances s) (hop_counts s) (previous s) rest in
      if gt_get_inf current_dist (distances s !! current_node)
      then dijkstra_loop fuel graph s
      else dijkstra_loop fuel graph
             (foldl (relax current_dist current_node) s
                    (default [] (graph !! current_node)))
    end
  end.

(** ** Next hop ([_find_next_hop]) *)

(** [previous.get(k)]: [None] for a missing key and for a stored [None]. *)
Definition previous_get (previous : gmap string (option string)) (k : string)
    : option string :=
  mjoin (previous !! k).

(** The loop [while previous.get(current) != source]; the outer [None] means
    that [fuel] iterations were not enough. *)
Fixpoint walk_back (fuel : nat) (source : string)
    (previous : gmap string (option string)) (current : string)
    : option (option string) :=
  if bool_decide (previous_get previous current = Some source) then Some (Some current)
  else
    match fuel with
    | O => None
    | S fuel =>
      match previous_get previous current with
      | None => Some None
      | Some current => walk_back fuel source previous current
      end
    end.

Definition _find_next_hop (fuel : nat) (source destination : string)
    (previous : gmap string (option string)) : option (option string) :=
  match previous !! destination with
  | None => Some None
  | Some _ => walk_back fuel source previous destination
  end.

(** ** The routing table *)

(** The body of [for dest_node in distances]: the entry written for
    [dest_node], if any; [dist] is [distances[dest_node]].  [if next_hop:]
    rejects [None] and the empty string. *)
Definition route_entry (fuel : nat) (source : string) (s : Search)
    (dest_node : string) (dist : Q) : option (option RouteInfo.t) :=
  if bool_decide (dest_node = source) then Some None
  else
    next_hop ← _find_next_hop fuel source dest_node (previous s);
    match next_hop with
    | Some next_hop =>
      if bool_decide (next_hop ≠ "")
      then Some (Some (RouteInfo.mk dest_node next_hop (hop_counts s !!! dest_node) dist))
      else Some None
    | None => Some None
    end.

(** The table built by the loop over the items of [distances].  Each entry
    depends on its own key only, so the order of the keys does not matter. *)
Fixpoint build_table (fuel : nat) (source : string) (s : Search)
    (items : list (string * Q)) : option (gmap string RouteInfo.t) :=
  match items with
  | [] => Some ∅
  | (dest_node, dist) :: items =>
    entry ← route_entry fuel source s dest_node dist;
    table ← build_table fuel source s items;
    Some (match entry with
          | Some route => <[dest_node := route]> table
          | None => table
          end)
  end.

(** [_compute_routes(source, graph)] *)
Definition _compute_routes (fuel : nat) (source : string)
    (graph : gmap string (list (string * Q))) : option (gmap string RouteInfo.t) :=
  s ← dijkstra_loop fuel graph
        (mkSearch {[source := 0%Q]} {[source := 0]} {[source := None]} [(0%Q, source)]);
  build_table fuel source s (map_to_list (distances s)).

(** [update_topology(node_id, known_nodes)] *)
Definition update_topology (fuel : nat) (r : MessageRouter) (node_id : string)
    (known_nodes : list NodeInfo.t) : option MessageRouter :=
  table ← _compute_routes fuel node_id
            (build_graph (link_latencies r) node_id known_nodes);
  Some (mkRouter table (link_latencies r)).

(** ** Walks in the graph *)

(** [walk graph u p v]: [p] lists the edges [(node entered, weight)] of a
    walk from [u] to [v]. *)
Inductive walk (graph : gmap string (list (string * Q)))
    : string -> list (string * Q) -> string -> Prop :=
| walk_nil u : walk graph u [] u
| walk_cons u v w p t :
    (v, w) ∈ default [] (graph !! u) ->
    walk graph v p t ->
    walk graph u ((v, w) :: p) t.

Definition weight (p : list (string * Q)) : Q :=
  foldr (λ e acc, (e.2 + acc)%Q) 0%Q p.

Definition reachable (graph : gmap string (list (string * Q))) (u v : string) : Prop :=
  exists p, walk graph u p v.

(** ** Facts about the building blocks *)

Lemma Qltb_lt a b : Qltb a b = true <-> (a < b)%Q.
Proof.
  unfold Qltb. rewrite Qlt_alt. destruct (a ?= b)%Q; split; congruence.
Qed.

Lemma Qltb_ge a b : (b <= a)%Q -> Qltb a b = false.
Proof.
  intros Hle. destruct (Qltb a b) eqn:E; [|done].
  apply Qltb_lt in E. lra.
Qed.

Lemma heappop_None l : heappop l = None -> l = [].
Proof.
  destruct l as [|x rest]; [done|]. cbn.
  destruct (heappop rest) as [[y rest']|]; [|done].
  by destruct (entry_ltb y x).
Qed.

Lemma heappop_Some l x l' :
  heappop l = Some (x, l') ->
  x ∈ l /\ length l = S (length l') /\ forall y, y ∈ l' -> y ∈ l.
Proof.
  revert x l'. induction l as [|a rest IH]; intros x l'; [done|]. cbn.
  destruct (heappop rest) as [[y rest']|] eqn:Hp.
  - destruct (IH y rest' eq_refl) as (Hin & Hlen & Hsub).
    destruct (entry_ltb y a); intros [= <- <-].
    + split; [by right|]. split; [cbn; lia|].
      intros z [->|Hz]%elem_of_cons; [by left|right; by apply Hsub].
    + split; [by left|]. split; [done|]. intros z Hz. by right.
  - apply heappop_None in Hp as ->. intros [= <- <-].
    split; [by left|]. split; [done|]. intros z Hz. by apply elem_of_nil in Hz.
Qed.

(** The adjacency list read by [graph.get(u, [])]. *)
Definition adj (graph : gmap string (list (string * Q))) (u : string)
    : list (string * Q) :=
  default [] (graph !! u).

Lemma adj_graph_append k x graph u :
  adj (graph_append k x graph) u
  = (adj graph u ++ if decide (u = k) then [x] else [])%list.
Proof.
  unfold adj, graph_append. destruct (decide (u = k)) as [->|Hne].
  - by rewrite lookup_insert_eq.
  - rewrite lookup_insert_ne by done. by rewrite app_nil_r.
Qed.

Lemma adj_add_neighbor ll source graph node u :
  adj (add_neighbor ll source graph node) u
  = (adj graph u
     ++ (if decide (u = source)
         then [(NodeInfo.node_id node, latency ll source (NodeInfo.node_id node))]
         else [])
     ++ (if decide (u = NodeInfo.node_id node)
         then [(source, latency ll source (NodeInfo.node_id node))]
         else []))%list.
Proof.
  unfold add_neighbor. rewrite adj_graph_append.
  set (g1 := graph_append source _ graph).
  assert (forall g : gmap string (list (string * Q)),
            adj (match g !! NodeInfo.node_id node with
                 | None => <[NodeInfo.node_id node := []]> g
                 | Some _ => g
                 end) u = adj g u) as Hens.
  { intros g. destruct (g !! NodeInfo.node_id node) eqn:E; [done|].
    unfold adj. destruct (decide (u = NodeInfo.node_id node)) as [->|Hne].
    - by rewrite lookup_insert_eq, E.
    - by rewrite lookup_insert_ne. }
  rewrite Hens. unfold g1. by rewrite adj_graph_append, <- app_assoc.
Qed.

(** The graph of [update_topology] is a star: the edges out of [source] lead
    to the known ids, each with its latency, and every other node has edges
    back to [source] only. *)
Lemma build_graph_edges ll source known_nodes :
  let graph := build_graph ll source known_nodes in
  let ids := NodeInfo.node_id <$> known_nodes in
  (forall v w, (v, w) ∈ adj graph source -> v ∈ ids /\ w = latency ll source v)
  /\ (forall n, n ∈ ids -> (n, latency ll source n) ∈ adj graph source)
  /\ (forall u v w, u ≠ source -> (v, w) ∈ adj graph u ->
        v = source /\ w = latency ll source u /\ u ∈ ids).
Proof.
  cbn zeta. unfold build_graph.
  induction known_nodes as [|node nodes IH] using rev_ind.
  - cbn. unfold adj. split; [|split].
    + intros v w. rewrite lookup_insert_eq. cbn. by intros ?%elem_of_nil.
    + by intros n ?%elem_of_nil.
    + intros u v w Hne. rewrite lookup_insert_ne by done. rewrite lookup_empty.
      cbn. by intros ?%elem_of_nil.
  - rewrite foldl_app, fmap_app. cbn [foldl fmap list_fmap].
    destruct IH as (IH1 & IH2 & IH3).
    set (g := foldl (add_neighbor ll source) (<[source:=[]]> ∅) nodes) in *.
    split; [|split].
    + intros v w. rewrite adj_add_neighbor, decide_True by done.
      rewrite !elem_of_app. intros [Hin|[Hin|Hin]].
      * destruct (IH1 v w Hin) as [? ?]. split; [by left|done].
      * apply list_elem_of_singleton in Hin as [= -> ->].
        split; [|done]. right. by left.
      * case_decide as Heq; [|by apply elem_of_nil in Hin].
        apply list_elem_of_singleton in Hin as [= -> ->].
        split; [|by rewrite <- Heq]. right. rewrite <- Heq. by left.
    + intros n [Hin|Hin]%elem_of_app; rewrite adj_add_neighbor, decide_True by done.
      * rewrite elem_of_app. left. by apply IH2.
      * apply list_elem_of_singleton in Hin as ->.
        rewrite !elem_of_app. right. left. by left.
    + intros u v w Hne. rewrite adj_add_neighbor, decide_False by done.
      rewrite app_nil_l, !elem_of_app. intros [Hin|Hin].
      * destruct (IH3 u v w Hne Hin) as (? & ? & ?).
        split; [done|]. split; [done|]. by left.
      * case_decide as Heq; [|by apply elem_of_nil in Hin].
        apply list_elem_of_singleton in Hin as [= -> ->].
        split; [done|]. split; [by rewrite Heq|]. right. rewrite Heq. by left.
Qed.

(** The distinct neighbour ids other than the local id: the nodes besides
    the local one that the search of [update_topology] visits. *)
Definition neighbour_ids (node_id : string) (known_nodes : list NodeInfo.t)
    : list string :=
  remove_dups (filter (λ k, k ≠ node_id) (NodeInfo.node_id <$> known_nodes)).

Section Star.

Variable ll : gmap (string * string) Q.
Variable source : string.
Variable known_nodes : list NodeInfo.t.

Local Abbreviation ids := (NodeInfo.node_id <$> known_nodes).
Local Abbreviation lat := (latency ll source).
Local Abbreviation graph := (build_graph ll source known_nodes).

(** Link latencies are not negative. *)
Hypothesis latency_nonneg : forall n, n ∈ known_nodes ->
  (0 <= latency ll source (NodeInfo.node_id n))%Q.

Lemma lat_nonneg n : n ∈ ids -> (0 <= lat n)%Q.
Proof.
  intros (node & -> & Hin)%list_elem_of_fmap. by apply latency_nonneg.
Qed.

(** The search state on a star: [source] is at distance 0 and every other
    node with a distance is a neighbour, one hop away over its own link;
    heap entries agree with [distances]. *)
Definition star (s : Search) : Prop :=
  distances s !! source = Some 0%Q
  /\ hop_counts s !! source = Some 0
  /\ previous s !! source = Some None
  /\ (forall n d, n ≠ source -> distances s !! n = Some d ->
        n ∈ ids /\ d = (0 + lat n)%Q
        /\ hop_counts s !! n = Some 1
        /\ previous s !! n = Some (Some source))
  /\ (forall d n, (d, n) ∈ pq s -> distances s !! n = Some d).

(** Every neighbour has a distance. *)
Definition covered (s : Search) : Prop :=
  forall n, n ∈ ids -> n ≠ source -> is_Some (distances s !! n).

Lemma relax_source s v :
  star s -> v ∈ ids ->
  star (relax 0%Q source s (v, lat v))
  /\ (forall n, is_Some (distances s !! n) ->
        is_Some (distances (relax 0%Q source s (v, lat v)) !! n))
  /\ (v ≠ source -> is_Some (distances (relax 0%Q source s (v, lat v)) !! v)).
Proof.
  intros Hs Hv. pose proof Hs as (Hd & Hh & Hp & Hn & Hq).
  pose proof (lat_nonneg v Hv) as Hlat.
  unfold relax. destruct (decide (v = source)) as [->|Hne].
  - rewrite Hd. cbn. rewrite Qltb_ge by lra. split; [exact Hs|]. by split.
  - destruct (distances s !! v) as [d|] eqn:Hdv; cbn.
    + destruct (Hn v d Hne Hdv) as (_ & -> & _).
      rewrite Qltb_ge by lra. split; [exact Hs|]. split; [done|].
      intros _. by rewrite Hdv.
    + split; [|split].
      * unfold star; cbn. rewrite !lookup_insert_ne by done.
        split; [done|]. split; [done|]. split; [done|]. split.
        -- intros n d Hns. destruct (decide (n = v)) as [->|Hnv].
           ++ rewrite !lookup_insert_eq. intros [= <-].
              rewrite (lookup_total_correct _ _ _ Hh). by repeat split.
           ++ rewrite !lookup_insert_ne by done. by apply Hn.
        -- intros d n. unfold heappush. rewrite elem_of_app.
           intros [Hin|Hin].
           ++ specialize (Hq d n Hin). rewrite lookup_insert_ne; [done|].
              intros <-. by rewrite Hdv in Hq.
           ++ apply list_elem_of_singleton in Hin as [= -> ->].
              by rewrite lookup_insert_eq.
      * intros n Hsome. destruct (decide (n = v)) as [->|Hnv].
        -- by rewrite lookup_insert_eq.
        -- by rewrite lookup_insert_ne.
      * intros _. by rewrite lookup_insert_eq.
Qed.

Lemma fold_relax_source es s :
  star s ->
  (forall v w, (v, w) ∈ es -> v ∈ ids /\ w = lat v) ->
  star (foldl (relax 0%Q source) s es)
  /\ (forall n, is_Some (distances s !! n) ->
        is_Some (distances (foldl (relax 0%Q source) s es) !! n))
  /\ (forall v w, (v, w) ∈ es -> v ≠ source ->
        is_Some (distances (foldl (relax 0%Q source) s es) !! v)).
Proof.
  revert s. induction es as [|[v w] es IH]; intros s Hs Hes; cbn.
  - split; [done|]. split; [done|]. by intros v w ?%elem_of_nil.
  - destruct (Hes v w) as [Hv ->]; [by left|].
    destruct (relax_source s v Hs Hv) as (Hs1 & Hmono1 & Hcov1).
    destruct (IH _ Hs1) as (Hs2 & Hmono2 & Hcov2).
    { intros v' w' Hin. apply Hes. by right. }
    split; [done|]. split; [by intros n ?%Hmono1%Hmono2|].
    intros v' w' [[= -> ->]|Hin]%elem_of_cons Hne.
    + by apply Hmono2, Hcov1.
    + by eapply Hcov2.
Qed.

Lemma relax_noop s d n e :
  star s -> covered s ->
  distances s !! n = Some d ->
  e ∈ adj graph n ->
  relax d n s e = s.
Proof.
  intros (Hd & Hh & Hp & Hn & Hq) Hcov Hdn He.
  destruct (build_graph_edges ll source known_nodes) as (G1 & _ & G3).
  destruct e as [v w]. unfold relax.
  destruct (decide (n = source)) as [->|Hne].
  - destruct (G1 v w He) as [Hv ->]. pose proof (lat_nonneg v Hv) as Hlat.
    assert (d = 0%Q) as -> by congruence.
    destruct (decide (v = source)) as [->|Hvs].
    + rewrite Hd. cbn. by rewrite Qltb_ge by lra.
    + destruct (Hcov v Hv Hvs) as [d' Hd'].
      destruct (Hn v d' Hvs Hd') as (_ & -> & _).
      rewrite Hd'. cbn. by rewrite Qltb_ge by lra.
  - destruct (G3 n v w Hne He) as (-> & -> & Hin).
    pose proof (lat_nonneg n Hin) as Hlat.
    destruct (Hn n d Hne Hdn) as (_ & -> & _).
    rewrite Hd. cbn. by rewrite Qltb_ge by lra.
Qed.

Lemma fold_relax_noop s d n es :
  star s -> covered s ->
  distances s !! n = Some d ->
  (forall e, e ∈ es -> e ∈ adj graph n) ->
  foldl (relax d n) s es = s.
Proof.
  intros Hs Hcov Hdn. induction es as [|e es IH]; intros Hes; cbn; [done|].
  rewrite relax_noop; [|done..|apply Hes; by left].
  apply IH. intros e' Hin. apply Hes. by right.
Qed.

(** Once every neighbour has its distance the loop only empties the heap. *)
Lemma dijkstra_loop_drain fuel s :
  star s -> covered s ->
  (length (pq s) <= fuel)%nat ->
  exists s', dijkstra_loop fuel graph s = Some s' /\ star s' /\ covered s'.
Proof.
  revert s. induction fuel as [|fuel IH]; intros s Hs Hcov Hlen.
  - destruct (pq s) as [|x l] eqn:Hpq; [|cbn in Hlen; lia].
    exists s. cbn. by rewrite Hpq.
  - cbn. destruct (heappop (pq s)) as [[[d n] rest]|] eqn:Hpop; [|by exists s].
    destruct (heappop_Some _ _ _ Hpop) as (Hin & Hl & Hsub).
    pose proof Hs as (Hd & Hh & Hp & Hn & Hq).
    pose proof (Hq d n Hin) as Hdn.
    set (s1 := mkSearch (distances s) (hop_counts s) (previous s) rest).
    assert (star s1) as Hs1.
    { unfold star, s1; cbn. repeat split; try done; try (by eapply Hn).
      intros d' n' Hin'. by apply Hq, Hsub. }
    assert (covered s1) as Hcov1 by exact Hcov.
    cbn [distances]. rewrite Hdn. cbn [gt_get_inf].
    rewrite Qltb_ge by lra.
    rewrite (fold_relax_noop s1 d n); [|done..].
    apply IH; [done..|]. cbn. lia.
Qed.

Definition initial : Search :=
  mkSearch {[source := 0%Q]} {[source := 0]} {[source := None]} [(0%Q, source)].

(** With enough fuel the search returns, in a [star] state that covers
    every neighbour. *)
Lemma dijkstra_loop_star :
  exists fuel0, forall fuel, (fuel0 <= fuel)%nat ->
    exists s, dijkstra_loop fuel graph initial = Some s /\ star s /\ covered s.
Proof.
  set (s0 := mkSearch {[source := 0%Q]} {[source := 0]} {[source := None]} []).
  assert (star s0) as Hs0.
  { unfold star, s0; cbn. rewrite !lookup_singleton_eq.
    split; [done|]. split; [done|]. split; [done|]. split.
    - intros n d Hne. by rewrite lookup_singleton_ne.
    - by intros d n ?%elem_of_nil. }
  destruct (build_graph_edges ll source known_nodes) as (G1 & G2 & _).
  destruct (fold_relax_source (adj graph source) s0 Hs0 G1) as (Hs1 & _ & Hcov1).
  set (s1 := foldl (relax 0%Q source) s0 (adj graph source)) in *.
  exists (S (length (pq s1))). intros fuel Hfuel.
  destruct fuel as [|fuel]; [lia|].
  assert (dijkstra_loop (S fuel) graph initial = dijkstra_loop fuel graph s1) as ->.
  { cbn. rewrite lookup_singleton_eq. cbn. reflexivity. }
  apply dijkstra_loop_drain; [done| |lia].
  intros n Hn Hne. eapply Hcov1; [by apply G2|done].
Qed.

(** ** The table on a star *)

(** The entry the table loop writes for key [k] at distance [d]. *)
Definition star_entry (k : string) (d : Q) : option RouteInfo.t :=
  if bool_decide (k = source) then None
  else if bool_decide (k ≠ "") then Some (RouteInfo.mk k k 1 d) else None.

Lemma route_entry_star fuel s k d :
  star s -> distances s !! k = Some d ->
  route_entry fuel source s k d = Some (star_entry k d).
Proof.
  intros (_ & _ & _ & Hn & _) Hk. unfold route_entry, star_entry.
  case_bool_decide as Hks; [done|].
  destruct (Hn k d Hks Hk) as (_ & _ & Hh & Hp).
  unfold _find_next_hop. rewrite Hp.
  assert (walk_back fuel source (previous s) k = Some (Some k)) as ->.
  { destruct fuel; cbn; unfold previous_get; rewrite Hp; cbn;
      by rewrite bool_decide_eq_true_2. }
  cbn. rewrite (lookup_total_correct _ _ _ Hh). by case_bool_decide.
Qed.

Lemma build_table_lookup fuel s items (f : string -> Q -> option RouteInfo.t) :
  NoDup items.*1 ->
  (forall k d, (k, d) ∈ items -> route_entry fuel source s k d = Some (f k d)) ->
  exists table,
    build_table fuel source s items = Some table
    /\ forall k r, table !! k = Some r <-> exists d, (k, d) ∈ items /\ f k d = Some r.
Proof.
  induction items as [|[k0 d0] items IH]; intros Hnd Hf; cbn.
  - exists ∅. split; [done|]. intros k r. rewrite lookup_empty. split; [done|].
    by intros (d & ?%elem_of_nil & _).
  - cbn in Hnd. apply NoDup_cons in Hnd as [Hk0 Hnd].
    destruct (IH Hnd) as (table & -> & Htable).
    { intros k d Hin. apply Hf. by right. }
    rewrite (Hf k0 d0) by (by left). cbn. eexists. split; [reflexivity|].
    assert (forall d, (k0, d) ∈ items -> False) as Hfresh.
    { intros d Hin. apply Hk0. apply list_elem_of_fmap. by exists (k0, d). }
    intros k r. destruct (decide (k = k0)) as [->|Hne].
    + destruct (f k0 d0) as [r0|] eqn:Hf0.
      * rewrite lookup_insert_eq. split.
        -- intros [= <-]. exists d0. split; [by left|done].
        -- intros (d & [[= ->]|Hin]%elem_of_cons & Hr); [congruence|].
           by destruct (Hfresh d).
      * rewrite Htable. split.
        -- intros (d & Hin & _). by destruct (Hfresh d).
        -- intros (d & [[= ->]|Hin]%elem_of_cons & Hr); [congruence|].
           by destruct (Hfresh d).
    + assert ((match f k0 d0 with
               | Some route => <[k0:=route]> table
               | None => table
               end) !! k = table !! k) as ->.
      { destruct (f k0 d0); [by rewrite lookup_insert_ne|done]. }
      rewrite Htable. split.
      * intros (d & Hin & Hr). exists d. split; [by right|done].
      * intros (d & [[= -> _]|Hin]%elem_of_cons & Hr); [done|]. by exists d.
Qed.

Lemma compute_routes_star :
  exists fuel0, forall fuel, (fuel0 <= fuel)%nat ->
    exists table,
      _compute_routes fuel source graph = Some table
      /\ forall k r, table !! k = Some r
           <-> k ∈ ids /\ k ≠ source /\ k ≠ ""
               /\ r = RouteInfo.mk k k 1 (0 + lat k)%Q.
Proof.
  destruct dijkstra_loop_star as [fuel0 Hrun]. exists fuel0. intros fuel Hfuel.
  destruct (Hrun fuel Hfuel) as (s & Hloop & Hs & Hcov).
  unfold _compute_routes. fold initial. rewrite Hloop. cbn.
  destruct (build_table_lookup fuel s (map_to_list (distances s)) star_entry)
    as (table & -> & Htable).
  { apply NoDup_fst_map_to_list. }
  { intros k d Hin%elem_of_map_to_list. by apply route_entry_star. }
  exists table. split; [done|]. intros k r. rewrite Htable.
  destruct Hs as (_ & _ & _ & Hn & _). unfold star_entry. split.
  - intros (d & Hin%elem_of_map_to_list & Hr).
    case_bool_decide as Hks; [done|]. case_bool_decide as Hke; [|done].
    destruct (Hn k d Hks Hin) as (Hk & -> & _). by injection Hr as <-.
  - intros (Hk & Hks & Hke & ->).
    destruct (Hcov k Hk Hks) as [d Hd].
    destruct (Hn k d Hks Hd) as (_ & -> & _).
    exists (0 + lat k)%Q. split; [by apply elem_of_map_to_list|].
    by rewrite bool_decide_eq_false_2, bool_decide_eq_true_2.
Qed.

(** ** The number of turns of the loop *)

Lemma relax_pq_length d n s e : (length (pq s) <= length (pq (relax d n s e)))%nat.
Proof.
  destruct e as [v w]. unfold relax. destruct (lt_get_inf _ _); [|done].
  cbn. unfold heappush. rewrite length_app. lia.
Qed.

Lemma fold_relax_pq_length d n es s :
  (length (pq s) <= length (pq (foldl (relax d n) s es)))%nat.
Proof.
  revert s. induction es as [|e es IH]; intros s; cbn [foldl]; [done|].
  etrans; [apply (relax_pq_length d n s e)|apply IH].
Qed.

(** Every turn of the loop takes one entry off the heap, so a heap of [n]
    entries keeps it going for at least [n] turns. *)
Lemma dijkstra_loop_short fuel g s :
  (fuel < length (pq s))%nat -> dijkstra_loop fuel g s = None.
Proof.
  revert s. induction fuel as [|fuel IH]; intros s Hlen; cbn [dijkstra_loop];
    destruct (heappop (pq s)) as [[[d n] rest]|] eqn:Hpop.
  - done.
  - apply heappop_None in Hpop. rewrite Hpop in Hlen. cbn in Hlen. lia.
  - destruct (heappop_Some _ _ _ Hpop) as (_ & Hl & _).
    destruct (gt_get_inf _ _).
    + apply IH. cbn. lia.
    + apply IH. eapply Nat.lt_le_trans; [|apply fold_relax_pq_length]. cbn. lia.
  - apply heappop_None in Hpop. rewrite Hpop in Hlen. cbn in Hlen. lia.
Qed.

(** The heap holds one entry for each node other than [source] that has a
    distance. *)
Definition tight (s : Search) : Prop :=
  NoDup (pq s).*2
  /\ (forall d n, (d, n) ∈ pq s -> n ≠ source)
  /\ (forall n, n ≠ source -> is_Some (distances s !! n) -> n ∈ (pq s).*2).

Lemma relax_source_tight s v :
  star s -> tight s -> v ∈ ids -> tight (relax 0%Q source s (v, lat v)).
Proof.
  intros Hs (Hnd & Hsrc & Hall) Hv. pose proof Hs as (Hd & Hh & Hp & Hn & Hq).
  pose proof (lat_nonneg v Hv) as Hlat.
  unfold relax. destruct (decide (v = source)) as [->|Hne].
  - rewrite Hd. cbn. by rewrite Qltb_ge by lra.
  - destruct (distances s !! v) as [d|] eqn:Hdv; cbn.
    + destruct (Hn v d Hne Hdv) as (_ & -> & _). by rewrite Qltb_ge by lra.
    + unfold tight, heappush; cbn. rewrite fmap_app. cbn. split; [|split].
      * apply NoDup_app. split; [done|]. split; [|apply NoDup_singleton].
        intros n ([d n'] & Heq & Hin)%list_elem_of_fmap ->%list_elem_of_singleton.
        cbn in Heq. subst n'. specialize (Hq d v Hin). congruence.
      * intros d n [Hin|[= -> ->]%list_elem_of_singleton]%elem_of_app; [|done].
        by eapply Hsrc.
      * intros n Hns Hsome. rewrite elem_of_app.
        destruct (decide (n = v)) as [->|Hnv]; [right; by left|].
        left. apply Hall; [done|]. by rewrite lookup_insert_ne in Hsome.
Qed.

Lemma fold_relax_source_tight es s :
  star s -> tight s ->
  (forall v w, (v, w) ∈ es -> v ∈ ids /\ w = lat v) ->
  tight (foldl (relax 0%Q source) s es).
Proof.
  revert s. induction es as [|[v w] es IH]; intros s Hs Ht Hes; cbn; [done|].
  destruct (Hes v w) as [Hv ->]; [by left|].
  destruct (relax_source s v Hs Hv) as (Hs1 & _ & _).
  apply IH; [done|by apply relax_source_tight|].
  intros v' w' Hin. apply Hes. by right.
Qed.

(** The search state when the loop has dealt with [source]. *)
Definition expanded : Search :=
  foldl (relax 0%Q source)
        (mkSearch {[source := 0%Q]} {[source := 0]} {[source := None]} [])
        (adj graph source).

Lemma expanded_spec :
  star expanded /\ covered expanded
  /\ length (pq expanded) = length (neighbour_ids source known_nodes).
Proof.
  set (s0 := mkSearch {[source := 0%Q]} {[source := 0]} {[source := None]} []).
  assert (star s0) as Hs0.
  { unfold star, s0; cbn. rewrite !lookup_singleton_eq.
    split; [done|]. split; [done|]. split; [done|]. split.
    - intros n d Hne. by rewrite lookup_singleton_ne.
    - by intros d n ?%elem_of_nil. }
  assert (tight s0) as Ht0.
  { unfold tight, s0; cbn. split; [apply NoDup_nil_2|]. split.
    - by intros d n ?%elem_of_nil.
    - intros n Hne. rewrite lookup_singleton_ne by done. by intros [? ?]. }
  destruct (build_graph_edges ll source known_nodes) as (G1 & G2 & _).
  destruct (fold_relax_source (adj graph source) s0 Hs0 G1) as (Hs1 & _ & Hcov1).
  pose proof (fold_relax_source_tight (adj graph source) s0 Hs0 Ht0 G1)
    as (Hnd & Hsrc & Hall).
  fold expanded in Hs1, Hcov1, Hnd, Hsrc, Hall.
  assert (covered expanded) as Hcov.
  { intros n Hn Hne. eapply Hcov1; [by apply G2|done]. }
  split; [done|]. split; [done|].
  rewrite <- (length_fmap snd). apply Permutation_length.
  apply NoDup_Permutation; [done|apply NoDup_remove_dups|].
  intros n. unfold neighbour_ids. rewrite elem_of_remove_dups, list_elem_of_filter.
  destruct Hs1 as (_ & _ & _ & Hn & Hq). split.
  - intros ([d n'] & Heq & Hin)%list_elem_of_fmap. cbn in Heq. subst n'.
    pose proof (Hsrc d n Hin) as Hne. split; [done|].
    by destruct (Hn n d Hne (Hq d n Hin)).
  - intros [Hne Hin]. apply Hall; [done|]. by apply Hcov.
Qed.

(** The loop needs exactly one turn for [source] and one for each distinct
    neighbour: with less fuel it does not return, with that much it does. *)
Lemma dijkstra_loop_star_exact fuel :
  if decide (S (length (neighbour_ids source known_nodes)) <= fuel)%nat
  then exists s, dijkstra_loop fuel graph initial = Some s /\ star s /\ covered s
  else dijkstra_loop fuel graph initial = None.
Proof.
  destruct expanded_spec as (Hs & Hcov & Hlen).
  destruct fuel as [|fuel].
  { rewrite decide_False by lia. reflexivity. }
  assert (dijkstra_loop (S fuel) graph initial = dijkstra_loop fuel graph expanded) as ->.
  { cbn. rewrite lookup_singleton_eq. cbn. reflexivity. }
  case_decide.
  - apply dijkstra_loop_drain; [done..|lia].
  - apply dijkstra_loop_short. lia.
Qed.

Lemma compute_routes_star_exact fuel :
  if decide (S (length (neighbour_ids source known_nodes)) <= fuel)%nat
  then exists table,
         _compute_routes fuel source graph = Some table
         /\ forall k r, table !! k = Some r
              <-> k ∈ ids /\ k ≠ source /\ k ≠ ""
                  /\ r = RouteInfo.mk k k 1 (0 + lat k)%Q
  else _compute_routes fuel source graph = None.
Proof.
  pose proof (dijkstra_loop_star_exact fuel) as Hrun. case_decide.
  2:{ unfold _compute_routes. fold initial. by rewrite Hrun. }
  destruct Hrun as (s & Hloop & Hs & Hcov).
  unfold _compute_routes. fold initial. rewrite Hloop. cbn.
  destruct (build_table_lookup fuel s (map_to_list (distances s)) star_entry)
    as (table & -> & Htable).
  { apply NoDup_fst_map_to_list. }
  { intros k d Hin%elem_of_map_to_list. by apply route_entry_star. }
  exists table. split; [done|]. intros k r. rewrite Htable.
  destruct Hs as (_ & _ & _ & Hn & _). unfold star_entry. split.
  - intros (d & Hin%elem_of_map_to_list & Hr).
    case_bool_decide as Hks; [done|]. case_bool_decide as Hke; [|done].
    destruct (Hn k d Hks Hin) as (Hk & -> & _). by injection Hr as <-.
  - intros (Hk & Hks & Hke & ->).
    destruct (Hcov k Hk Hks) as [d Hd].
    destruct (Hn k d Hks Hd) as (_ & -> & _).
    exists (0 + lat k)%Q. split; [by apply elem_of_map_to_list|].
    by rewrite bool_decide_eq_false_2, bool_decide_eq_true_2.
Qed.

(** ** Walks on a star *)

Lemma edge_nonneg u v w : (v, w) ∈ adj graph u -> (0 <= w)%Q.
Proof.
  destruct (build_graph_edges ll source known_nodes) as (G1 & _ & G3).
  intros He. destruct (decide (u = source)) as [->|Hne].
  - destruct (G1 v w He) as [Hv ->]. by apply lat_nonneg.
  - destruct (G3 u v w Hne He) as (_ & -> & Hu). by apply lat_nonneg.
Qed.

Lemma walk_weight_nonneg u p t : walk graph u p t -> (0 <= weight p)%Q.
Proof.
  induction 1 as [u|u v w p t He _ IH]; unfold weight in *; cbn; [apply Qle_refl|].
  pose proof (edge_nonneg u v w He). lra.
Qed.

Lemma walk_into u p t :
  walk graph u p t -> t ≠ source -> u ≠ t ->
  t ∈ ids /\ (lat t <= weight p)%Q.
Proof.
  destruct (build_graph_edges ll source known_nodes) as (G1 & _ & G3).
  induction 1 as [u|u v w p t He Hw IH]; intros Hts Hut; [done|].
  change (weight ((v, w) :: p)) with (w + weight p)%Q.
  pose proof (edge_nonneg u v w He) as Hw0.
  destruct (decide (v = t)) as [->|Hvt].
  - pose proof (walk_weight_nonneg _ _ _ Hw) as Hp0.
    destruct (decide (u = source)) as [->|Hus].
    + destruct (G1 t w He) as [Ht ->]. split; [done|lra].
    + destruct (G3 u t w Hus He) as (-> & _). done.
  - destruct (IH Hts Hvt) as [Ht Hle]. split; [done|lra].
Qed.

Lemma walk_direct n : n ∈ ids -> walk graph source [(n, lat n)] n.
Proof.
  destruct (build_graph_edges ll source known_nodes) as (_ & G2 & _).
  intros Hn. apply walk_cons; [by apply G2|apply walk_nil].
Qed.

Lemma reachable_star dest :
  dest ≠ source -> reachable graph source dest <-> dest ∈ ids.
Proof.
  intros Hne. split.
  - intros [p Hw]. by destruct (walk_into _ _ _ Hw).
  - intros Hin. eexists. by apply walk_direct.
Qed.

End Star.

(** ** Measured latencies and look-ups *)

(** [update_link_latency(node1, node2, latency)] *)
Definition update_link_latency (r : MessageRouter) (node1 node2 : string)
    (latency : Q) : MessageRouter :=
  mkRouter (routing_table r)
           (<[(node2, node1) := latency]>
              (<[(node1, node2) := latency]> (link_latencies r))).

(** [get_route_info(destination)] *)
Definition get_route_info (r : MessageRouter) (destination : string)
    : option RouteInfo.t :=
  routing_table r !! destination.

(** [get_next_hop(destination)] *)
Definition get_next_hop (r : MessageRouter) (destination : string) : option string :=
  match routing_table r !! destination with
  | Some route => Some (RouteInfo.next_hop route)
  | None => None
  end.

Lemma latency_update_link_latency (r : MessageRouter) (a b : string) (x : Q)
    (u v : string) :
  latency (link_latencies (update_link_latency r a b x)) u v
  = if decide ((u, v) = (a, b) \/ (u, v) = (b, a)) then x
    else latency (link_latencies r) u v.
Proof.
  unfold latency, update_link_latency. cbn.
  destruct (decide ((u, v) = (b, a))) as [->|Hba].
  - rewrite lookup_insert_eq. rewrite decide_True; [done|by right].
  - rewrite lookup_insert_ne by done.
    destruct (decide ((u, v) = (a, b))) as [->|Hab].
    + rewrite lookup_insert_eq. rewrite decide_True; [done|by left].
    + rewrite lookup_insert_ne by done. rewrite decide_False; [done|tauto].
Qed.

(** X30: A measured latency reaches the routes only through the next
    [update_topology]: [update_link_latency] leaves the table as it is.  For
    a neighbour that is in [known_nodes], whose id is neither empty nor the
    local id, a measured latency that is finite and not negative, and
    latencies that are finite and not negative on the links to all of
    [known_nodes] before the measurement, the topology update that follows
    the measurement -- taken at either end of the link -- returns and gives
    the neighbour a direct route of one hop with the measured latency; an id
    that is not in [known_nodes] has no route. *)
Theorem measured_latency_reaches_route
    (r : MessageRouter) (node_id neighbour : string) (measured : Q)
    (known_nodes : list NodeInfo.t) :
  neighbour ∈ NodeInfo.node_id <$> known_nodes ->
  neighbour ≠ "" ->
  neighbour ≠ node_id ->
  (0 <= measured)%Q ->
  (forall n, n ∈ known_nodes ->
     (0 <= latency (link_latencies r) node_id (NodeInfo.node_id n))%Q) ->
  (forall dest, get_route_info (update_link_latency r node_id neighbour measured) dest
                = get_route_info r dest)
  /\ forall r1,
       r1 = update_link_latency r node_id neighbour measured
       \/ r1 = update_link_latency r neighbour node_id measured ->
       exists fuel0, forall fuel, (fuel0 <= fuel)%nat ->
         exists r',
           update_topology fuel r1 node_id known_nodes = Some r'
           /\ get_route_info r' neighbour
              = Some (RouteInfo.mk neighbour neighbour 1 (0 + measured)%Q)
           /\ get_next_hop r' neighbour = Some neighbour
           /\ forall dest, dest ∉ NodeInfo.node_id <$> known_nodes ->
                get_route_info r' dest = None /\ get_next_hop r' dest = None.
Proof.
  intros Hin Hne Hself Hpos Hlat. split; [done|]. intros r1 Hr1.
  assert (forall u v,
            latency (link_latencies r1) u v
            = if decide ((u, v) = (node_id, neighbour) \/ (u, v) = (neighbour, node_id))
              then measured else latency (link_latencies r) u v) as Hl.
  { intros u v. destruct Hr1 as [-> | ->]; rewrite latency_update_link_latency;
      [done|]. destruct (decide _) as [H|H], (decide _) as [H'|H']; tauto. }
  destruct (compute_routes_star (link_latencies r1) node_id known_nodes)
    as [fuel0 Hrun].
  { intros n Hn. rewrite Hl. case_decide; [done|by apply Hlat]. }
  exists fuel0. intros fuel Hfuel. destruct (Hrun fuel Hfuel) as (table & Hc & Htable).
  unfold update_topology. rewrite Hc. cbn. eexists. split; [reflexivity|].
  unfold get_route_info, get_next_hop. cbn.
  assert (table !! neighbour
          = Some (RouteInfo.mk neighbour neighbour 1 (0 + measured)%Q)) as Hnb.
  { apply Htable. split; [done|]. split; [done|]. split; [done|].
    rewrite Hl. rewrite decide_True; [done|by left]. }
  rewrite Hnb. split; [done|]. split; [done|].
  intros dest Hdest.
  assert (table !! dest = None) as ->; [|done].
  destruct (table !! dest) as [route|] eqn:E; [|done].
  apply Htable in E as [? _]. done.
Qed.

(** The test graph at the end of [message_router.py]. *)
Definition test_graph : gmap string (list (string * Q)) :=
  <["A" := [("B", 1%Q); ("D", 2%Q)]]>
  (<["B" := [("A", 1%Q); ("C", 1%Q)]]>
  (<["C" := [("B", 1%Q); ("D", 1%Q)]]>
  (<["D" := [("A", 2%Q); ("C", 1%Q)]]> ∅))).

(** ** The routing table after [update_topology] *)

(** [table] holds shortest routes from [source] in [graph]: it has an entry
    exactly for the destinations other than [source] that can be reached,
    and the entry for [dest] names [dest] and describes a walk from [source]
    to [dest] of least weight: its weight is the entry's latency, its number
    of edges the hop count and its first node the next hop. *)
Definition shortest_routes (graph : gmap string (list (string * Q))) (source : string)
    (table : gmap string RouteInfo.t) : Prop :=
  forall dest,
    (is_Some (table !! dest) <-> dest ≠ source /\ reachable graph source dest)
    /\ forall route, table !! dest = Some route ->
         RouteInfo.destination route = dest
         /\ exists p,
              walk graph source p dest
              /\ (weight p == RouteInfo.total_latency route)%Q
              /\ Z.of_nat (length p) = RouteInfo.hop_count route
              /\ fst <$> head p = Some (RouteInfo.next_hop route)
              /\ forall p', walk graph source p' dest -> (weight p <= weight p')%Q.

(** [walks_back source previous current nh k]: following the predecessor
    map back from [current] reaches after [k] steps the node [nh], the first
    one whose predecessor is [source]. *)
Inductive walks_back (source : string) (previous : gmap string (option string))
    : string -> string -> nat -> Prop :=
| walks_back_here current :
    previous_get previous current = Some source ->
    walks_back source previous current current 0
| walks_back_step current before nh k :
    previous_get previous current = Some before ->
    before ≠ source ->
    walks_back source previous before nh k ->
    walks_back source previous current nh (S k).

Lemma walk_back_walks_back source previous current nh k fuel :
  walks_back source previous current nh k ->
  (k <= fuel)%nat ->
  walk_back fuel source previous current = Some (Some nh).
Proof.
  intros Hw. revert fuel.
  induction Hw as [current Hc|current before nh k Hc Hne _ IH]; intros fuel Hfuel.
  - destruct fuel; cbn; by rewrite bool_decide_eq_true_2.
  - destruct fuel as [|fuel]; [lia|]. cbn.
    rewrite bool_decide_eq_false_2 by congruence. rewrite Hc. apply IH. lia.
Qed.

Lemma walks_back_walk_back source previous current nh fuel :
  walk_back fuel source previous current = Some (Some nh) ->
  exists k, (k <= fuel)%nat /\ walks_back source previous current nh k.
Proof.
  revert current. induction fuel as [|fuel IH]; intros current; cbn;
    case_bool_decide as Hsrc.
  - intros [= <-]. exists 0%nat. split; [done|]. by apply walks_back_here.
  - done.
  - intros [= <-]. exists 0%nat. split; [lia|]. by apply walks_back_here.
  - destruct (previous_get previous current) as [before|] eqn:Hc; [|done].
    intros (k & Hk & Hw)%IH. exists (S k). split; [lia|].
    eapply walks_back_step; [done| |done]. congruence.
Qed.

Lemma find_next_hop_walks_back source previous dest nh :
  (forall k fuel, walks_back source previous dest nh k -> (k <= fuel)%nat ->
     _find_next_hop fuel source dest previous = Some (Some nh))
  /\ (forall fuel, _find_next_hop fuel source dest previous = Some (Some nh) ->
        exists k, (k <= fuel)%nat /\ walks_back source previous dest nh k).
Proof.
  unfold _find_next_hop. split.
  - intros k fuel Hw Hfuel.
    assert (is_Some (previous_get previous dest)) as [x Hx]
      by (destruct Hw; by eexists).
    unfold previous_get in Hx. destruct (previous !! dest); [|done].
    by eapply walk_back_walks_back.
  - intros fuel. destruct (previous !! dest); [|done].
    apply walks_back_walk_back.
Qed.

(** C8: for neighbours with non-empty ids and links of finite, non-negative
    latency, [update_topology] returns after exactly one turn of the search
    loop for the local node and one for each distinct neighbour, leaves the latency
    overlay alone, and the new routing table has an entry exactly for the
    destinations reachable from the local node in the graph it built -- the
    current neighbours -- each entry giving the shortest-path distance, the
    number of edges of that path and its first hop; all other destinations
    are absent.  The next hop is found by [_find_next_hop], which returns a
    node exactly when following the predecessor map back from the
    destination reaches it as the first node whose predecessor is the local
    node. *)
Theorem update_topology_shortest_routes
    (r : MessageRouter) (node_id : string) (known_nodes : list NodeInfo.t) :
  (forall n, n ∈ known_nodes -> NodeInfo.node_id n ≠ "") ->
  (forall n, n ∈ known_nodes ->
     (0 <= latency (link_latencies r) node_id (NodeInfo.node_id n))%Q) ->
  (forall fuel, (fuel < S (length (neighbour_ids node_id known_nodes)))%nat ->
     update_topology fuel r node_id known_nodes = None)
  /\ (forall fuel, (S (length (neighbour_ids node_id known_nodes)) <= fuel)%nat ->
        exists r',
          update_topology fuel r node_id known_nodes = Some r'
          /\ link_latencies r' = link_latencies r
          /\ (forall dest, dest ≠ node_id ->
                (reachable (build_graph (link_latencies r) node_id known_nodes)
                           node_id dest
                 <-> dest ∈ NodeInfo.node_id <$> known_nodes))
          /\ shortest_routes (build_graph (link_latencies r) node_id known_nodes)
                             node_id (routing_table r'))
  /\ (forall previous dest nh,
        (forall k fuel, walks_back node_id previous dest nh k -> (k <= fuel)%nat ->
           _find_next_hop fuel node_id dest previous = Some (Some nh))
        /\ (forall fuel, _find_next_hop fuel node_id dest previous = Some (Some nh) ->
              exists k, (k <= fuel)%nat /\ walks_back node_id previous dest nh k)).
Proof.
  intros Hids Hlat. split; [|split].
  - intros fuel Hfuel.
    pose proof (compute_routes_star_exact (link_latencies r) node_id known_nodes
                  Hlat fuel) as Hrun.
    rewrite decide_False in Hrun by lia. unfold update_topology. by rewrite Hrun.
  - intros fuel Hfuel.
    pose proof (compute_routes_star_exact (link_latencies r) node_id known_nodes
                  Hlat fuel) as Hrun.
    rewrite decide_True in Hrun by lia. destruct Hrun as (table & Hc & Htable).
    unfold update_topology. rewrite Hc. cbn. eexists. split; [reflexivity|].
    cbn. split; [done|]. split.
    { intros dest Hne. by apply reachable_star. }
    assert (forall k, k ∈ NodeInfo.node_id <$> known_nodes -> k ≠ "") as Hne.
    { intros k (n & -> & Hin)%list_elem_of_fmap. by apply Hids. }
    intros dest. split.
    + split.
      * intros [route (Hin & Hsrc & _)%Htable]. split; [done|].
        by apply reachable_star.
      * intros [Hsrc Hreach]. apply reachable_star in Hreach; [|done..].
        eexists. apply Htable. split; [done|]. split; [done|].
        split; [by apply Hne|done].
    + intros route (Hin & Hsrc & _ & ->)%Htable. cbn. split; [done|].
      exists [(dest, latency (link_latencies r) node_id dest)].
      split; [by apply walk_direct|]. split; [cbn; lra|]. split; [done|].
      split; [done|].
      intros p' Hw.
      destruct (walk_into _ _ _ Hlat _ _ _ Hw) as [_ Hle]; [done..|].
      cbn. lra.
  - intros previous dest nh. apply find_next_hop_walks_back.
Qed.

(** A node [me] with neighbours [x] (measured at 3/2) and [y] (unmeasured). *)
Definition two_neighbours : list NodeInfo.t :=
  [NodeInfo.mk "x" "10.0.0.2" 5001 0%Q "host-x";
   NodeInfo.mk "y" "10.0.0.3" 5001 0%Q "host-y"].

Definition measured : MessageRouter :=
  mkRouter ∅ (<[("me", "x") := (3 # 2)%Q]> (<[("x", "me") := (3 # 2)%Q]> ∅)).

Example update_topology_two_neighbours :
  (fun r' => map_to_list (routing_table r'))
    <$> update_topology 3 measured "me" two_neighbours
  = Some [("y", RouteInfo.mk "y" "y" 1 (0 + 1)%Q);
          ("x", RouteInfo.mk "x" "x" 1 (0 + (3 # 2))%Q)].
Proof. vm_compute. reflexivity. Qed.

Lemma update_topology_shortest_routes_witness :
  (forall fuel, (fuel < S (length (neighbour_ids "me" two_neighbours)))%nat ->
     update_topology fuel measured "me" two_neighbours = None)
  /\ (forall fuel, (S (length (neighbour_ids "me" two_neighbours)) <= fuel)%nat ->
        exists r',
          update_topology fuel measured "me" two_neighbours = Some r'
          /\ link_latencies r' = link_latencies measured
          /\ (forall dest, dest ≠ "me" ->
                (reachable (build_graph (link_latencies measured) "me" two_neighbours)
                           "me" dest
                 <-> dest ∈ NodeInfo.node_id <$> two_neighbours))
          /\ shortest_routes (build_graph (link_latencies measured) "me" two_neighbours)
                             "me" (routing_table r'))
  /\ (forall previous dest nh,
        (forall k fuel, walks_back "me" previous dest nh k -> (k <= fuel)%nat ->
           _find_next_hop fuel "me" dest previous = Some (Some nh))
        /\ (forall fuel, _find_next_hop fuel "me" dest previous = Some (Some nh) ->
              exists k, (k <= fuel)%nat /\ walks_back "me" previous dest nh k)).
Proof.
  apply (update_topology_shortest_routes measured "me" two_neighbours).
  - apply Forall_forall. repeat constructor; done.
  - apply Forall_forall. repeat constructor; by vm_compute.
Defined.

(** C8, counterexample: a neighbour whose id is the empty string is
    reachable in the graph that [update_topology] builds -- over its own
    link, of latency 1 -- and yet the routing table has no entry for it,
    because [if next_hop:] rejects the empty string; the table is empty. *)
Lemma empty_id_neighbour_has_no_route :
  walk (build_graph ∅ "me" [NodeInfo.mk "" "10.0.0.4" 5001 0%Q "host-z"])
       "me" [("", 1%Q)] ""
  /\ (routing_table
        <$> update_topology 2 (mkRouter ∅ ∅) "me"
              [NodeInfo.mk "" "10.0.0.4" 5001 0%Q "host-z"]) = Some ∅.
Proof.
  split; [|vm_compute; reflexivity].
  apply walk_cons; [|apply walk_nil]. vm_compute. left.
Qed.

(** The table computed for the test graph at the end of
    [message_router.py], from node [A]. *)
Example compute_routes_test_graph :
  map_to_list <$> _compute_routes 8 "A" test_graph
  = Some [("C", RouteInfo.mk "C" "B" 2 (0 + 1 + 1)%Q);
          ("B", RouteInfo.mk "B" "B" 1 (0 + 1)%Q);
          ("D", RouteInfo.mk "D" "D" 1 (0 + 2)%Q)].
Proof. vm_compute. reflexivity. Qed.

(** ** Instances of the further properties *)

(** [me] measures 3/2 on its link to [x]. *)
Lemma measured_latency_reaches_route_witness :
  (forall dest, get_route_info (update_link_latency (mkRouter ∅ ∅) "me" "x" (3 # 2)%Q) dest
                = get_route_info (mkRouter ∅ ∅) dest)
  /\ forall r1,
       r1 = update_link_latency (mkRouter ∅ ∅) "me" "x" (3 # 2)%Q
       \/ r1 = update_link_latency (mkRouter ∅ ∅) "x" "me" (3 # 2)%Q ->
       exists fuel0, forall fuel, (fuel0 <= fuel)%nat ->
         exists r',
           update_topology fuel r1 "me" two_neighbours = Some r'
           /\ get_route_info r' "x" = Some (RouteInfo.mk "x" "x" 1 (0 + (3 # 2))%Q)
           /\ get_next_hop r' "x" = Some "x"
           /\ forall dest, dest ∉ NodeInfo.node_id <$> two_neighbours ->
                get_route_info r' dest = None /\ get_next_hop r' dest = None.
Proof.
  apply (measured_latency_reaches_route (mkRouter ∅ ∅) "me" "x" (3 # 2)%Q two_neighbours).
  - vm_compute. left.
  - discriminate.
  - discriminate.
  - vm_compute. discriminate.
  - apply Forall_forall. repeat constructor; by vm_compute.
Defined.

End Router.

(* ===================================================================== *)
(** * The search with the machine's arithmetic ([_compute_routes]) *)
(* ===================================================================== *)

(** [Router] computes with exact rationals, which is what the floats of
    [update_topology] amount to: every distance there is [0.0 + latency].
    On other graphs sums of floats round.  Here the numbers are a parameter
    together with their [+] and [<], and so is the heap, so that what is
    proved holds for the sums and comparisons the interpreter performs. *)
Module FloatRouter.

Section WithFloats.

(** The numbers in the graph, with [0.0], [float('inf')], [a + b] and
    [a < b]. *)
Variable F : Type.
Variable fzero : F.
Variable finf : F.
Variable fadd : F -> F -> F.
Variable fltb : F -> F -> bool.

(** [heapq.heappop] and [heapq.heappush] on the list that holds the heap;
    [None] stands for the [IndexError] of popping an empty heap. *)
Variable heappop : list (F * string) -> option ((F * string) * list (F * string)).
Variable heappush : list (F * string) -> F * string -> list (F * string).

(** [@dataclass RouteInfo] *)
Record RouteInfo := mkRoute {
  destination : string;
  next_hop : string;
  hop_count : Z;
  total_latency : F
}.

(** The three dictionaries and the heap of [_compute_routes]. *)
Record Search := mkSearch {
  distances : gmap string F;
  hop_counts : gmap string Z;
  previous : gmap string (option string);
  pq : list (F * string)
}.

(** [x < d.get(k, float('inf'))] *)
Definition lt_get_inf (x : F) (d : option F) : bool := fltb x (default finf d).

(** [x > d.get(k, float('inf'))] *)
Definition gt_get_inf (x : F) (d : option F) : bool := fltb (default finf d) x.

(** [graph.get(u, [])] *)
Definition adj (graph : gmap string (list (string * F))) (u : string)
    : list (string * F) :=
  default [] (graph !! u).

(** The body of [for neighbor, weight in graph.get(current_node, [])]. *)
Definition relax (current_dist : F) (current_node : string) (s : Search)
    (edge : string * F) : Search :=
  let '(neighbor, weight) := edge in
  let distance := fadd current_dist weight in
  let hop_count := (hop_counts s !!! current_node) + 1 in
  if lt_get_inf distance (distances s !! neighbor) then
    mkSearch (<[neighbor := distance]> (distances s))
             (<[neighbor := hop_count]> (hop_counts s))
             (<[neighbor := Some current_node]> (previous s))
             (heappush (pq s) (distance, neighbor))
  else s.

(** The loop [while pq]; [None] when [fuel] iterations were not enough (or
    [heappop] failed). *)
Fixpoint dijkstra_loop (fuel : nat) (graph : gmap string (list (string * F)))
    (s : Search) : option Search :=
  match pq s with
  | [] => Some s
  | _ :: _ =>
    match fuel with
    | O => None
    | S fuel =>
      '(current_dist, current_node, rest) ← heappop (pq s);
      let s := mkSearch (distances s) (hop_counts s) (previous s) rest in
      if gt_get_inf current_dist (distances s !! current_node)
      then dijkstra_loop fuel graph s
      else dijkstra_loop fuel graph
             (foldl (relax current_dist current_node) s (adj graph current_node))
    end
  end.

(** The body of [for dest_node in distances]; [_find_next_hop] is the one
    of [Router], which handles no numbers. *)
Definition route_entry (fuel : nat) (source : string) (s : Search)
    (dest_node : string) (dist : F) : option (option RouteInfo) :=
  if bool_decide (dest_node = source) then Some None
  else
    next_hop ← Router._find_next_hop fuel source dest_node (previous s);
    match next_hop with
    | Some next_hop =>
      if bool_decide (next_hop ≠ "")
      then Some (Some (mkRoute dest_node next_hop (hop_counts s !!! dest_node) dist))
      else Some None
    | None => Some None
    end.

Fixpoint build_table (fuel : nat) (source : string) (s : Search)
    (items : list (string * F)) : option (gmap string RouteInfo) :=
  match items with
  | [] => Some ∅
  | (dest_node, dist) :: items =>
    entry ← route_entry fuel source s dest_node dist;
    table ← build_table fuel source s items;
    Some (match entry with
          | Some route => <[dest_node := route]> table
          | None => table
          end)
  end.

(** [_compute_routes(source, graph)] *)
Definition _compute_routes (fuel : nat) (source : string)
    (graph : gmap string (list (string * F))) : option (gmap string RouteInfo) :=
  s ← dijkstra_loop fuel graph
        (mkSearch {[source := fzero]} {[source := 0]} {[source := None]}
                  [(fzero, source)]);
  build_table fuel source s (map_to_list (distances s)).

(** [walk graph u p v]: [p] lists the edges [(node entered, weight)] of a
    walk from [u] to [v]. *)
Inductive walk (graph : gmap string (list (string * F)))
    : string -> list (string * F) -> string -> Prop :=
| walk_nil u : walk graph u [] u
| walk_cons u v w p t :
    (v, w) ∈ adj graph u ->
    walk graph v p t ->
    walk graph u ((v, w) :: p) t.

(** The latency of a walk as the search accumulates it: the weights added
    one after the other, starting from [0.0]. *)
Definition path_latency (p : list (string * F)) : F :=
  foldl (λ acc e, fadd acc e.2) fzero p.

Definition reachable (graph : gmap string (list (string * F))) (u v : string) : Prop :=
  exists p, walk graph u p v.

(** ** Soundness of the table *)

Variable graph : gmap string (list (string * F)).
Variable source : string.

(** [<] is transitive. *)
Hypothesis fltb_trans : forall x y z,
  fltb x y = true -> fltb y z = true -> fltb x z = true.

(** Adding the weight of an edge never gives a smaller number: the weights
    are not negative. *)
Hypothesis weights_nonneg : forall u v w x,
  (v, w) ∈ adj graph u -> fltb (fadd x w) x = false.

(** The heap operations only move entries: what is popped was in the heap
    and what stays was there too, and a push adds nothing but its
    argument. *)
Hypothesis heappop_elem : forall l x l',
  heappop l = Some (x, l') -> x ∈ l /\ forall y, y ∈ l' -> y ∈ l.
Hypothesis heappush_elem : forall l x y, y ∈ heappush l x -> y ∈ l \/ y = x.

(** What the search has recorded is backed by the graph: a recorded
    distance is the accumulated latency of a walk from [source] whose length
    is the recorded hop count, a heap entry carries the recorded distance of
    its node or a larger number, and a recorded predecessor has an edge to
    the node. *)
Definition sound (s : Search) : Prop :=
  (forall v d, distances s !! v = Some d ->
     exists p, walk graph source p v /\ path_latency p = d
               /\ hop_counts s !! v = Some (Z.of_nat (length p)))
  /\ (forall d x, (d, x) ∈ pq s ->
        exists d', distances s !! x = Some d' /\ (d' = d \/ fltb d' d = true))
  /\ (forall v u, previous s !! v = Some (Some u) -> exists w, (v, w) ∈ adj graph u).

Lemma path_latency_snoc (p : list (string * F)) (e : string * F) :
  path_latency (p ++ [e]) = fadd (path_latency p) e.2.
Proof. unfold path_latency. by rewrite foldl_app. Qed.

Lemma walk_snoc (u : string) (p : list (string * F)) (t v : string) (w : F) :
  walk graph u p t -> (v, w) ∈ adj graph t -> walk graph u (p ++ [(v, w)]) v.
Proof.
  intros Hw He. induction Hw as [u|u v' w' p t He' _ IH]; cbn.
  - apply walk_cons; [exact He|apply walk_nil].
  - apply walk_cons; [exact He'|by apply IH].
Qed.

Lemma sound_initial :
  sound (mkSearch {[source := fzero]} {[source := 0]} {[source := None]}
                  [(fzero, source)]).
Proof.
  split; [|split]; cbn.
  - intros v d [<- <-]%lookup_singleton_Some. exists []. split; [apply walk_nil|].
    split; [done|]. by rewrite lookup_singleton_eq.
  - intros d x [= -> ->]%list_elem_of_singleton. exists fzero.
    split; [by rewrite lookup_singleton_eq|by left].
  - intros v u [_ ?]%lookup_singleton_Some. done.
Qed.

Lemma relax_sound (s : Search) (cd : F) (u v : string) (w : F) :
  sound s ->
  distances s !! u = Some cd ->
  (v, w) ∈ adj graph u ->
  sound (relax cd u s (v, w))
  /\ distances (relax cd u s (v, w)) !! u = Some cd.
Proof.
  intros (H1 & H2 & H3) Hu He.
  unfold relax. destruct (lt_get_inf (fadd cd w) (distances s !! v)) eqn:Hlt.
  2:{ done. }
  assert (v ≠ u) as Hvu.
  { intros ->. rewrite Hu in Hlt. unfold lt_get_inf in Hlt. cbn in Hlt.
    by rewrite (weights_nonneg u u w cd He) in Hlt. }
  split; [|cbn; by rewrite lookup_insert_ne].
  destruct (H1 u cd Hu) as (pu & Hpu & Hwu & Hhu).
  split; [|split]; cbn.
  - intros v' d. destruct (decide (v' = v)) as [->|Hne].
    + rewrite !lookup_insert_eq. intros [= <-]. exists (pu ++ [(v, w)])%list.
      split; [by eapply walk_snoc|]. split.
      * rewrite path_latency_snoc. cbn. by rewrite Hwu.
      * rewrite (lookup_total_correct _ _ _ Hhu), length_app. cbn. f_equal. lia.
    + rewrite !lookup_insert_ne by done. apply H1.
  - intros d x Hin. apply heappush_elem in Hin as [Hin|[= -> ->]].
    + destruct (H2 d x Hin) as (d' & Hd' & Hle).
      destruct (decide (x = v)) as [->|Hne].
      * rewrite lookup_insert_eq. eexists. split; [done|]. right.
        rewrite Hd' in Hlt. unfold lt_get_inf in Hlt. cbn in Hlt.
        destruct Hle as [<-|Hle]; [done|]. by eapply fltb_trans.
      * rewrite lookup_insert_ne by done. by exists d'.
    + rewrite lookup_insert_eq. eexists. split; [done|by left].
  - intros v' u'. destruct (decide (v' = v)) as [->|Hne].
    + rewrite lookup_insert_eq. intros [= <-]. by exists w.
    + rewrite lookup_insert_ne by done. apply H3.
Qed.

Lemma fold_relax_sound (es : list (string * F)) (s : Search) (cd : F) (u : string) :
  sound s ->
  distances s !! u = Some cd ->
  (forall e, e ∈ es -> e ∈ adj graph u) ->
  sound (foldl (relax cd u) s es).
Proof.
  revert s. induction es as [|[v w] es IH]; intros s Hs Hu Hes; [done|].
  cbn [foldl].
  destruct (relax_sound s cd u v w Hs Hu) as [Hs' Hu']; [apply Hes; by left|].
  apply IH; [done..|]. intros e He. apply Hes. by right.
Qed.

Lemma dijkstra_loop_sound (fuel : nat) (s s' : Search) :
  sound s -> dijkstra_loop fuel graph s = Some s' -> sound s'.
Proof.
  revert s. induction fuel as [|fuel IH]; intros s Hs; cbn [dijkstra_loop];
    destruct (pq s) as [|e l] eqn:Hpq; try done; try (by intros [= <-]).
  destruct (heappop (e :: l)) as [[[cd u] rest]|] eqn:Hpop; [|done]. cbn.
  destruct (heappop_elem _ _ _ Hpop) as (Hin & Hsub).
  destruct Hs as (H1 & H2 & H3). rewrite Hpq in H2.
  assert (sound (mkSearch (distances s) (hop_counts s) (previous s) rest)) as Hs1.
  { split; [done|]. split; [|done]. intros d x Hx. apply H2. by apply Hsub. }
  destruct (gt_get_inf cd (distances s !! u)) eqn:Hgt.
  { by apply IH. }
  destruct (H2 cd u Hin) as (du & Hu & Hle). rewrite Hu in Hgt.
  unfold gt_get_inf in Hgt. cbn in Hgt.
  destruct Hle as [->|Hle]; [|congruence].
  apply IH. by apply (fold_relax_sound _ _ cd u).
Qed.

Lemma walk_back_sound (fuel : nat) (s : Search) (current nh : string) :
  sound s ->
  Router.walk_back fuel source (previous s) current = Some (Some nh) ->
  (exists w, (nh, w) ∈ adj graph source) /\ reachable graph nh current.
Proof.
  intros (_ & _ & H3). revert current.
  assert (forall c u, Router.previous_get (previous s) c = Some u ->
                      exists w, (c, w) ∈ adj graph u) as Hedge.
  { intros c u Hc. apply H3. unfold Router.previous_get in Hc.
    destruct (previous s !! c) as [[x|]|]; cbn in Hc; congruence. }
  induction fuel as [|fuel IH]; intros current; cbn [Router.walk_back];
    case_bool_decide as Hsrc.
  - intros [= <-]. split; [by apply Hedge|]. exists []. apply walk_nil.
  - done.
  - intros [= <-]. split; [by apply Hedge|]. exists []. apply walk_nil.
  - destruct (Router.previous_get (previous s) current) as [c'|] eqn:Hc; [|done].
    intros Hwb. destruct (IH c' Hwb) as (Hadj & p & Hp). split; [done|].
    destruct (Hedge current c' Hc) as [w Hw].
    exists (p ++ [(current, w)])%list. by eapply walk_snoc.
Qed.

Lemma build_table_entry (fuel : nat) (s : Search) (items : list (string * F))
    (table : gmap string RouteInfo) (dest : string) (r : RouteInfo) :
  build_table fuel source s items = Some table ->
  table !! dest = Some r ->
  exists dist, (dest, dist) ∈ items
               /\ route_entry fuel source s dest dist = Some (Some r).
Proof.
  revert table. induction items as [|[k d] items IH]; intros table; cbn.
  - intros [= <-]. by rewrite lookup_empty.
  - destruct (route_entry fuel source s k d) as [entry|] eqn:He; [|done]. cbn.
    destruct (build_table fuel source s items) as [table0|]; [|done]. cbn.
    intros [= <-] Hr.
    assert (table0 !! dest = Some r -> exists dist,
              (dest, dist) ∈ (k, d) :: items
              /\ route_entry fuel source s dest dist = Some (Some r)) as Hrest.
    { intros H0. destruct (IH table0 eq_refl H0) as (dist & Hin & Hre).
      exists dist. split; [by right|done]. }
    destruct entry as [route|]; [|by apply Hrest].
    destruct (decide (dest = k)) as [->|Hne].
    + rewrite lookup_insert_eq in Hr. injection Hr as <-. exists d.
      split; [by left|done].
    + rewrite lookup_insert_ne in Hr by done. by apply Hrest.
Qed.

(** X29: Every entry of a table that [_compute_routes] returns is backed by
    the graph, for the sums and comparisons that the machine performs, when
    [<] is transitive, no edge weight makes a sum smaller, and the heap only
    moves entries: the entry is filed under its own destination, which is
    not the source; its next hop is a non-empty id that [source] has an edge
    to and from which the destination can be reached; and the graph has a
    walk from [source] to the destination whose weights, added one after the
    other from [0.0], give exactly the entry's latency and whose number of
    edges is its hop count. *)
Theorem compute_routes_sound
    (fuel : nat) (table : gmap string RouteInfo) (dest : string) (r : RouteInfo) :
  _compute_routes fuel source graph = Some table ->
  table !! dest = Some r ->
  dest ≠ source
  /\ destination r = dest
  /\ next_hop r ≠ ""
  /\ (exists w, (next_hop r, w) ∈ adj graph source)
  /\ reachable graph (next_hop r) dest
  /\ exists p, walk graph source p dest
               /\ path_latency p = total_latency r
               /\ Z.of_nat (length p) = hop_count r.
Proof.
  unfold _compute_routes.
  destruct (dijkstra_loop fuel graph _) as [s|] eqn:Hloop; [|done]. cbn.
  intros Htable Hr.
  pose proof (dijkstra_loop_sound _ _ _ sound_initial Hloop) as Hs.
  destruct (build_table_entry _ _ _ _ _ _ Htable Hr) as (dist & Hin & Hre).
  apply elem_of_map_to_list in Hin. unfold route_entry in Hre.
  case_bool_decide as Hsrc; [done|].
  destruct (Router._find_next_hop fuel source dest (previous s)) as [[nh|]|] eqn:Hnh;
    cbn in Hre; try done.
  case_bool_decide as Hne; [|done]. injection Hre as <-. cbn.
  unfold Router._find_next_hop in Hnh. destruct (previous s !! dest); [|done].
  destruct (walk_back_sound _ _ _ _ Hs Hnh) as [Hadj Hreach].
  destruct Hs as (H1 & _ & _). destruct (H1 dest dist Hin) as (p & Hp & Hw & Hh).
  repeat (split; [done|]). exists p. split; [done|]. split; [done|].
  by rewrite (lookup_total_correct _ _ _ Hh).
Qed.

End WithFloats.

Arguments mkRoute {F} _ _ _ _.
Arguments destination {F} _.
Arguments next_hop {F} _.
Arguments hop_count {F} _.
Arguments total_latency {F} _.
Arguments adj {F} _ _.
Arguments walk {F} _ _ _ _.
Arguments reachable {F} _ _ _.
Arguments path_latency {F} _ _ _.
Arguments _compute_routes {F} _ _ _ _ _ _ _ _ _.

(** ** An arithmetic that meets the hypotheses *)

(** Exact numbers with an infinity ([None]): [+] and [<] as on the extended
    number line, and a heap kept as the list of its entries, from which
    [heappop] takes a least one in the order of tuples. *)
Definition ext_add (a b : option Q) : option Q :=
  x ← a; y ← b; Some (x + y)%Q.

Definition ext_ltb (a b : option Q) : bool :=
  match a, b with
  | Some x, Some y => Router.Qltb x y
  | Some _, None => true
  | None, _ => false
  end.

Definition ext_entry_ltb (a b : option Q * string) : bool :=
  if ext_ltb a.1 b.1 then true
  else if ext_ltb b.1 a.1 then false
  else String.ltb a.2 b.2.

Fixpoint ext_heappop (l : list (option Q * string))
    : option ((option Q * string) * list (option Q * string)) :=
  match l with
  | [] => None
  | x :: rest =>
    match ext_heappop rest with
    | None => Some (x, [])
    | Some (y, rest') =>
      if ext_entry_ltb y x then Some (y, x :: rest') else Some (x, rest)
    end
  end.

Definition ext_heappush (l : list (option Q * string)) (x : option Q * string)
    : list (option Q * string) :=
  (l ++ [x])%list.

(** The test graph at the end of [message_router.py]. *)
Definition test_graph : gmap string (list (string * option Q)) :=
  <["A" := [("B", Some 1%Q); ("D", Some 2%Q)]]>
  (<["B" := [("A", Some 1%Q); ("C", Some 1%Q)]]>
  (<["C" := [("B", Some 1%Q); ("D", Some 1%Q)]]>
  (<["D" := [("A", Some 2%Q); ("C", Some 1%Q)]]> ∅))).

(** [_compute_routes("A", test_graph)] *)
Definition test_table : gmap string (RouteInfo (option Q)) :=
  default ∅ (_compute_routes (Some 0%Q) None ext_add ext_ltb ext_heappop ext_heappush
                             8 "A" test_graph).

(** The route from A to C in the test graph: over B, two hops. *)
Definition route_to_C : RouteInfo (option Q) :=
  mkRoute "C" "B" 2 (Some (0 + 1 + 1)%Q).

Lemma ext_ltb_trans (x y z : option Q) :
  ext_ltb x y = true -> ext_ltb y z = true -> ext_ltb x z = true.
Proof.
  destruct x as [x|], y as [y|], z as [z|]; cbn; try done.
  rewrite !Router.Qltb_lt. lra.
Qed.

Lemma ext_add_nonneg (x : option Q) (w : Q) :
  (0 <= w)%Q -> ext_ltb (ext_add x (Some w)) x = false.
Proof.
  intros Hw. destruct x as [x|]; cbn; [|done]. apply Router.Qltb_ge. lra.
Qed.

Lemma test_graph_nonneg (u v : string) (w x : option Q) :
  (v, w) ∈ adj test_graph u -> ext_ltb (ext_add x w) x = false.
Proof.
  unfold adj, test_graph. rewrite !lookup_insert, lookup_empty.
  repeat case_decide; cbn; intros Hin;
    repeat (apply elem_of_cons in Hin as [[= _ ->]|Hin];
            [apply ext_add_nonneg; lra|]);
    by apply elem_of_nil in Hin.
Qed.

Lemma ext_heappop_elem (l : list (option Q * string)) (x : option Q * string)
    (l' : list (option Q * string)) :
  ext_heappop l = Some (x, l') -> x ∈ l /\ forall y, y ∈ l' -> y ∈ l.
Proof.
  revert x l'. induction l as [|a l IH]; intros x l'; cbn; [done|].
  destruct (ext_heappop l) as [[y rest']|].
  - destruct (IH y rest' eq_refl) as [Hy Hsub].
    destruct (ext_entry_ltb y a); intros [= <- <-].
    + split; [by right|]. intros z [->|Hz]%elem_of_cons; [by left|].
      right. by apply Hsub.
    + split; [by left|]. intros z Hz. by right.
  - intros [= <- <-]. split; [by left|]. by intros z ?%elem_of_nil.
Qed.

Lemma ext_heappush_elem (l : list (option Q * string)) (x y : option Q * string) :
  y ∈ ext_heappush l x -> y ∈ l \/ y = x.
Proof.
  unfold ext_heappush. intros [?|?%list_elem_of_singleton]%elem_of_app; auto.
Qed.

Lemma compute_routes_sound_witness :
  "C" ≠ "A"
  /\ destination route_to_C = "C"
  /\ next_hop route_to_C ≠ ""
  /\ (exists w, (next_hop route_to_C, w) ∈ adj test_graph "A")
  /\ reachable test_graph (next_hop route_to_C) "C"
  /\ exists p, walk test_graph "A" p "C"
               /\ path_latency (Some 0%Q) ext_add p = total_latency route_to_C
               /\ Z.of_nat (length p) = hop_count route_to_C.
Proof.
  apply (compute_routes_sound (option Q) (Some 0%Q) None ext_add ext_ltb ext_heappop ext_heappush
           test_graph "A" ext_ltb_trans test_graph_nonneg ext_heappop_elem
           ext_heappush_elem 8 test_table "C" route_to_C).
  - vm_compute. reflexivity.
  - vm_compute. reflexivity.
Defined.

End FloatRouter.
